(** * Cohomology ring factory of p_group_cohomology: keys, resolution tiers,
      subgroup towers and the symlink mirror

    Shallow embedding of [src/pGroupCohomology/factory.py].  Python values
    that the factory inspects structurally (cache keys, option values) are
    modelled by first-order data; GAP, Sage's pickling, the network and the
    ring engine ([COHO], [MODCOHO]) are interfaces whose operations are
    parameters of the development.  Exceptions are values of [exn]; a
    function that can raise returns a [result]. *)

From Stdlib Require Import ZArith String Ascii List Bool Lia.
From stdpp Require Import base option list gmap strings pretty.

Set Warnings "-register-all".

Local Open Scope string_scope.
Local Open Scope list_scope.
Local Open Scope Z_scope.

(** ** Exceptions and results *)

Inductive exn : Type :=
| ValueError (msg : string)
| TypeError (msg : string)
| RuntimeError (msg : string)
| IOError (msg : string)
| OSError (msg : string)
| FileExistsError (msg : string)
| PermissionError (msg : string)
| URLError (msg : string)
| IndexError (msg : string)
| AttributeError (msg : string)
| AssertionError (msg : string)
| NameError (msg : string)
| ZeroDivisionError
| KeyboardInterrupt
| RecursionError.

Inductive result (A : Type) : Type :=
| Ok (a : A)
| Raise (e : exn).
Arguments Ok {A} a.
Arguments Raise {A} e.

#[global] Instance result_ret : MRet result := fun A a => Ok a.
#[global] Instance result_bind : MBind result := fun A B f m =>
  match m with
  | Ok a => f a
  | Raise e => Raise e
  end.

Definition is_ok {A} (r : result A) : bool :=
  match r with Ok _ => true | Raise _ => false end.

(** ** Python values occurring in keys *)

(** Cache keys are nested tuples of integers and strings:
    [(KEY, path)] for prime power groups, [(KEY, GStem, HP._key, pr)]
    otherwise, with [KEY] either [(q, n)] or [(definition,)]. *)
Inductive pyval : Type :=
| PInt (z : Z)
| PStr (s : string)
| PTuple (l : list pyval).

(** Python's [==] on these values. *)
Fixpoint pyval_eqb (a b : pyval) {struct a} : bool :=
  match a, b with
  | PInt x, PInt y => x =? y
  | PStr s, PStr t => String.eqb s t
  | PTuple l, PTuple m =>
      (fix all_eqb (l m : list pyval) {struct l} : bool :=
         match l, m with
         | [], [] => true
         | x :: l', y :: m' => pyval_eqb x y && all_eqb l' m'
         | _, _ => false
         end) l m
  | _, _ => false
  end.

Section pyval_ind_nested.
Variable P : pyval -> Prop.
Hypothesis HInt : forall z, P (PInt z).
Hypothesis HStr : forall s, P (PStr s).
Hypothesis HTuple : forall l, Forall P l -> P (PTuple l).

Fixpoint pyval_ind_nested (v : pyval) : P v :=
    match v with
    | PInt z => HInt z
    | PStr s => HStr s
    | PTuple l =>
        HTuple l
          ((fix go (l : list pyval) : Forall P l :=
              match l with
              | [] => @List.Forall_nil _ P
              | x :: l' => @List.Forall_cons _ P x l' (pyval_ind_nested x) (go l')
              end) l)
    end.
End pyval_ind_nested.

(** One-character string at position [n] of a Python string. *)
Definition str_item (s : string) (n : nat) : option string :=
  match String.get n s with
  | Some c => Some (String c EmptyString)
  | None => None
  end.

(** [len(v)]: defined on tuples and strings, [TypeError] on integers. *)
Definition py_len (v : pyval) : result Z :=
  match v with
  | PTuple l => Ok (Z.of_nat (List.length l))
  | PStr s => Ok (Z.of_nat (String.length s))
  | PInt _ => Raise (TypeError "object of type 'Integer' has no len()")
  end.

(** [v[i]] with Python's reading of negative indices. *)
Definition py_getitem (v : pyval) (i : Z) : result pyval :=
  match v with
  | PTuple l =>
      let n := Z.of_nat (List.length l) in
      let j := if i <? 0 then i + n else i in
      if (0 <=? j) && (j <? n)
      then match nth_error l (Z.to_nat j) with
           | Some x => Ok x
           | None => Raise (IndexError "tuple index out of range")
           end
      else Raise (IndexError "tuple index out of range")
  | PStr s =>
      let n := Z.of_nat (String.length s) in
      let j := if i <? 0 then i + n else i in
      if (0 <=? j) && (j <? n)
      then match str_item s (Z.to_nat j) with
           | Some x => Ok (PStr x)
           | None => Raise (IndexError "string index out of range")
           end
      else Raise (IndexError "string index out of range")
  | PInt _ => Raise (TypeError "'Integer' object is not subscriptable")
  end.

(** ** The group backend (GAP) *)

(** The operations of GAP that the factory calls.  [canonicalIsomorphism]
    is [true] when GAP returns an isomorphism and [false] when it returns
    [fail]. *)
Class GroupBackend : Type := {
  Group : Type;
  gap_eval : string -> result Group;
  SmallGroup : Z -> Z -> result Group;
  NumberSmallGroups : Z -> result Z;
  canonicalIsomorphism : Group -> Group -> bool;
  Order : Group -> Z;
  IsSubgroup : Group -> Group -> bool;
  Index : Group -> Group -> Z;
  HasName : Group -> bool;
  GapGroupName : Group -> string;
  admissibleGroup : Group -> option Group;
  IdGroup : Group -> result (Z * Z);
  IsPermGroup : Group -> bool;
  GeneratorsString : Group -> string;
  PermGeneratorStrings : Group -> list string;
}.

Section KeyEquivalence.
Context `{GroupBackend}.

Definition gap_eval_val (v : pyval) : result Group :=
    match v with
    | PStr s => gap_eval s
    | _ => Raise (TypeError "gap.eval expects a string")
    end.

Definition SmallGroup_val (q n : pyval) : result Group :=
    match q, n with
    | PInt q, PInt n => SmallGroup q n
    | _, _ => Raise (TypeError "SmallGroup expects two integers")
    end.

  (** Lines 2422-2429: the live group denoted by a group key. *)
Definition group_of_key (k0 : pyval) : result Group :=
    n ← py_len k0;
    if n =? 1 then
      x ← py_getitem k0 0; gap_eval_val x
    else
      x ← py_getitem k0 0; y ← py_getitem k0 1; SmallGroup_val x y.

  (** One activation of [_IsKeyEquivalent] (lines 2417-2436); [rec_last]
      stands for the recursive call [_IsKeyEquivalent(k1[-1], .)]. *)
Definition IsKeyEquivalent_body (rec_last : pyval -> result Z)
      (k1 k2 : pyval) : result Z :=
    n1 ← py_len k1;
    n2 ← py_len k2;
    if negb (n1 =? n2) then Ok 0 else
    a ← py_getitem k1 0;
    b ← py_getitem k2 0;
    similarity ←
      (if pyval_eqb a b then Ok 2
       else
         G1 ← group_of_key a;
         G2 ← group_of_key b;
         if canonicalIsomorphism G1 G2 then Ok 1 else Ok 0);
    if similarity =? 0 then Ok 0 else
    if n1 =? 3 then
      _ ← py_getitem k1 (-1);
      l2 ← py_getitem k2 (-1);
      r ← rec_last l2;
      Ok (Z.min similarity r)
    else Ok similarity.

Definition last_char (s : string) : pyval :=
    match str_item s (Nat.pred (String.length s)) with
    | Some c => PStr c
    | None => PStr ""
    end.

  (** [_IsKeyEquivalent(k1, k2)]: 0 different, 1 equivalent, 2 equal.  The
      recursion is on the last component of [k1]. *)
Fixpoint IsKeyEquivalent (k1 k2 : pyval) {struct k1} : result Z :=
    IsKeyEquivalent_body
      (match k1 with
       | PTuple l =>
           (fix on_last (l : list pyval) : pyval -> result Z :=
              match l with
              | [] => fun _ => Raise (IndexError "tuple index out of range")
              | x :: l' =>
                  match l' with
                  | [] => IsKeyEquivalent x
                  | _ :: _ => on_last l'
                  end
              end) l
       | PStr s =>
           (* the last character of a string has length 1: no further call *)
           IsKeyEquivalent_body
             (fun _ => Raise RecursionError) (last_char s)
       | PInt _ => fun _ => Raise (TypeError "'Integer' object is not subscriptable")
       end) k1 k2.

  (** Line 1189 / 1303 / 1777: cache key of a prime power group. *)
Definition p_group_cache_key (KEY : pyval) (state_path : string) : pyval :=
    PTuple [KEY; PStr state_path].

  (** Line 1986: cache key of a group that is not of prime power order. *)
Definition non_p_group_cache_key (KEY : pyval) (GStem : string)
      (HP_key : pyval) (pr : Z) : pyval :=
    PTuple [KEY; PStr GStem; HP_key; PInt pr].

End KeyEquivalence.

(** ** The file system seen by [os] and [os.path] *)

(** An absolute path is the list of its components below the root.  A file
    system maps a path to what is stored there.  Symbolic links hold an
    absolute target, which is how [_symlink_to_database] creates them. *)
Definition path := list string.

Inductive node : Type :=
| File
| Dir
| Link (target : path).

Definition fs := path -> option node.

Definition upd (f : fs) (p : path) (v : option node) : fs :=
  fun q => if decide (q = p) then v else f q.

Definition path_str (p : path) : string :=
  match p with
  | [] => "/"
  | _ => String.concat "" (List.map (fun c => "/" +:+ c) p)
  end.

(** [os.path.split]: the directory part and the last component. *)
Fixpoint split_last (p : path) : option (path * string) :=
  match p with
  | [] => None
  | c :: p' =>
      match split_last p' with
      | None => Some ([], c)
      | Some (h, t) => Some (c :: h, t)
      end
  end.

Definition is_link (o : option node) : bool :=
  match o with Some (Link _) => true | _ => false end.

Definition is_dir (o : option node) : bool :=
  match o with Some Dir => true | _ => false end.

Definition is_some_node (o : option node) : bool :=
  match o with Some _ => true | None => false end.

Section FileSystem.

(** The order in which a directory lists its entries: [names] enumerates the
    file names in use, and [os.listdir] returns those present, in this
    order. *)
Variable names : list string.

(** Read permission, by canonical path; the mirror never changes it. *)
Variable readable : path -> bool.

(** Write permission on a directory, by canonical path: what it takes to
    add an entry to the directory or to remove one from it.  The mirror never
    changes it either. *)
Variable writable : path -> bool.

(** How many symbolic links a path resolution follows before it gives up
    (the kernel's limit on nested links). *)
Variable link_limit : nat.

(** [os.path.realpath]: walk the components of [rest] below the canonical
    prefix [cur]; at a link, [follow] decides how to go on. *)
Fixpoint walk (f : fs) (follow : path -> path -> string -> path -> path)
    (cur rest : path) {struct rest} : path :=
  match rest with
  | [] => cur
  | c :: rest' =>
      match f (cur ++ [c]) with
      | Some (Link t) => follow t cur c rest'
      | _ => walk f follow (cur ++ [c]) rest'
      end
  end.

(** A link restarts the walk at its target; when the links are used up the
    remainder is returned unresolved. *)
Fixpoint resolve (fuel : nat) (f : fs) (cur rest : path) : path :=
  walk f
    (match fuel with
     | O => fun _ cur c rest' => cur ++ c :: rest'
     | S fuel' => fun t _ _ rest' => resolve fuel' f [] (t ++ rest')
     end) cur rest.

Definition realpath (f : fs) (p : path) : path := resolve link_limit f [] p.

(** Where [lstat] looks: the directory part resolved, the last component
    not followed. *)
Definition lpath (f : fs) (p : path) : path :=
  match split_last p with
  | None => []
  | Some (h, t) => realpath f h ++ [t]
  end.

Definition lstat (f : fs) (p : path) : option node := f (lpath f p).

Definition stat (f : fs) (p : path) : option node :=
  match f (realpath f p) with
  | Some (Link _) => None
  | o => o
  end.

Definition isdir (f : fs) (p : path) : bool := is_dir (stat f p).
Definition islink (f : fs) (p : path) : bool := is_link (lstat f p).
Definition access_F (f : fs) (p : path) : bool := is_some_node (stat f p).
Definition access_R (f : fs) (p : path) : bool :=
  is_some_node (stat f p) && readable (realpath f p).

Definition children (f : fs) (p : path) : list string :=
  List.filter (fun d => is_some_node (f (p ++ [d]))) names.

Definition listdir (f : fs) (p : path) : result (list string) :=
  if isdir f p && readable (realpath f p)
  then Ok (children f (realpath f p))
  else Raise (OSError ("cannot list " +:+ path_str p)).

(** [os.unlink], [os.rmdir], [os.mkdir] and [os.symlink] change the
    directory that holds the entry [p]; they raise [PermissionError] when
    that directory may not be written to. *)
Definition parent_writable (f : fs) (p : path) : bool :=
  match split_last p with
  | None => false
  | Some (h, _) => writable (realpath f h)
  end.

Definition unlink (f : fs) (p : path) : result fs :=
  match lstat f p with
  | None => Raise (OSError ("No such file or directory: " +:+ path_str p))
  | Some Dir => Raise (OSError ("Is a directory: " +:+ path_str p))
  | Some _ =>
      if parent_writable f p then Ok (upd f (lpath f p) None)
      else Raise (PermissionError ("Permission denied: " +:+ path_str p))
  end.

Definition rmdir (f : fs) (p : path) : result fs :=
  match lstat f p with
  | Some Dir =>
      if negb (parent_writable f p)
      then Raise (PermissionError ("Permission denied: " +:+ path_str p))
      else
        match children f (lpath f p) with
        | [] => Ok (upd f (lpath f p) None)
        | _ :: _ => Raise (OSError ("Directory not empty: " +:+ path_str p))
        end
  | _ => Raise (OSError ("Not a directory: " +:+ path_str p))
  end.

Definition parent_isdir (f : fs) (p : path) : bool :=
  match split_last p with
  | None => true
  | Some (h, _) => isdir f h
  end.

Definition mkdir (f : fs) (p : path) : result fs :=
  if is_some_node (lstat f p) then Raise (FileExistsError (path_str p))
  else if negb (parent_isdir f p) then Raise (OSError ("No such file or directory: " +:+ path_str p))
  else if negb (parent_writable f p) then Raise (PermissionError ("Permission denied: " +:+ path_str p))
  else Ok (upd f (lpath f p) (Some Dir)).

(** [os.makedirs]: create the missing ancestors first; [n] bounds the
    number of ancestors, [makedirs] starts it at the length of the path. *)
Fixpoint makedirs_from (n : nat) (f : fs) (p : path) : result fs :=
  match n, split_last p with
  | S n', Some (h, _) =>
      f' ← (if negb (access_F f h) && negb (bool_decide (h = []))
            then match makedirs_from n' f h with
                 | Raise (FileExistsError _) => Ok f
                 | r => r
                 end
            else Ok f);
      mkdir f' p
  | _, _ => mkdir f p
  end.

Definition makedirs (f : fs) (p : path) : result fs :=
  makedirs_from (List.length p) f p.

Definition symlink (src dst : path) (f : fs) : result fs :=
  if is_some_node (lstat f dst) then Raise (FileExistsError (path_str dst))
  else if negb (parent_isdir f dst) then Raise (OSError ("No such file or directory: " +:+ path_str dst))
  else if negb (parent_writable f dst) then Raise (PermissionError ("Permission denied: " +:+ path_str dst))
  else Ok (upd f (lpath f dst) (Some (Link src))).

(** *** [_symlink_to_database] *)

(** Lines 274-292: the body of the loop over [os.listdir(publ)]; [self]
    is the recursive call. *)
Definition mirror_entry (self : path -> path -> fs -> result fs)
    (publ priv : path) (d : string) (f : fs) : result fs :=
  let publd := realpath f (publ ++ [d]) in
  let link_kept := islink f (priv ++ [d]) && bool_decide (realpath f (priv ++ [d]) = publd) in
  if link_kept then Ok f
  else
    f ← (if islink f (priv ++ [d]) then unlink f (priv ++ [d]) else Ok f);
    let privd := priv ++ [d] in
    if isdir f publd then self publd privd f
    else
      f ← (if isdir f privd then rmdir f privd
           else if access_F f privd then unlink f privd
           else Ok f);
      symlink publd privd f.

Fixpoint mirror_entries (self : path -> path -> fs -> result fs)
    (publ priv : path) (L0 : list string) (f : fs) : result fs :=
  match L0 with
  | [] => Ok f
  | d :: L => f ← mirror_entry self publ priv d f; mirror_entries self publ priv L f
  end.

(** Lines 259-292.  [depth] is the interpreter's recursion limit: a source
    tree nested deeper than that ends in [RecursionError]. *)
Fixpoint symlink_to_database (depth : nat) (publ priv : path) (f : fs) : result fs :=
  match depth with
  | O => Raise RecursionError
  | S depth' =>
      let priv := realpath f priv in
      let publ := realpath f publ in
      if negb (access_R f publ && isdir f publ)
      then Raise (ValueError (path_str publ +:+ " is supposed to be a readable folder"))
      else if bool_decide (priv = publ)
      then Raise (ValueError ("Can not symlink " +:+ path_str priv +:+ " to itself"))
      else
        f ← (if negb (isdir f priv) then
               f ← (if access_F f priv || islink f priv then unlink f priv else Ok f);
               makedirs f priv
             else Ok f);
        L0 ← listdir f publ;
        mirror_entries (symlink_to_database depth') publ priv L0 f
  end.

End FileSystem.

(** ** State and exceptions together *)

(** A computation reads and writes a state and ends in a value or an
    exception; the state written before an exception is kept, as Python
    keeps the effects of the statements executed before a [raise]. *)
Definition SM (S A : Type) : Type := S -> S * result A.

#[global] Instance SM_ret (S : Type) : MRet (SM S) := fun A a s => (s, Ok a).
#[global] Instance SM_bind (S : Type) : MBind (SM S) := fun A B k m s =>
  match m s with
  | (s', Ok a) => k a s'
  | (s', Raise e) => (s', Raise e)
  end.

Definition raise {S A : Type} (e : exn) : SM S A := fun s => (s, Raise e).
Definition lift {S A : Type} (r : result A) : SM S A := fun s => (s, r).
Definition gets {S A : Type} (g : S -> A) : SM S A := fun s => (s, Ok (g s)).
Definition modify {S : Type} (g : S -> S) : SM S unit := fun s => (g s, Ok tt).

(** [try: m except <handled> as e: handler e]; exceptions that are not
    [handled] pass through. *)
Definition try_except {S A : Type} (m : SM S A) (handled : exn -> bool)
    (handler : exn -> SM S A) : SM S A := fun s =>
  match m s with
  | (s', Raise e) => if handled e then handler e s' else (s', Raise e)
  | r => r
  end.

(** Python's class hierarchy on the exceptions used here. *)
Definition isinstance_ValueError (e : exn) : bool :=
  match e with ValueError _ => true | _ => false end.
Definition isinstance_RuntimeError (e : exn) : bool :=
  match e with RuntimeError _ | RecursionError => true | _ => false end.
Definition isinstance_URLError (e : exn) : bool :=
  match e with URLError _ => true | _ => false end.
Definition isinstance_KeyboardInterrupt (e : exn) : bool :=
  match e with KeyboardInterrupt => true | _ => false end.
Definition isinstance_BaseException (e : exn) : bool := true.

Definition exn_str (e : exn) : string :=
  match e with
  | ValueError m | TypeError m | RuntimeError m | IOError m | OSError m
  | FileExistsError m | PermissionError m | URLError m | IndexError m | AttributeError m
  | AssertionError m | NameError m => m
  | ZeroDivisionError => "division by zero"
  | KeyboardInterrupt => ""
  | RecursionError => "maximum recursion depth exceeded"
  end.

(** ** Integers as Sage sees them *)

Fixpoint smallest_factor_from (fuel : nat) (d q : Z) : Z :=
  match fuel with
  | O => q
  | S k => if q mod d =? 0 then d else smallest_factor_from k (d + 1) q
  end.

(** [q.factor()[0][0]] for [q > 1]. *)
Definition smallest_prime_factor (q : Z) : Z :=
  smallest_factor_from (Z.to_nat q) 2 q.

Fixpoint strip_factor (fuel : nat) (p q : Z) : Z :=
  match fuel with
  | O => q
  | S k => if (1 <? q) && (q mod p =? 0) then strip_factor k p (q / p) else q
  end.

Definition is_prime_power (q : Z) : bool :=
  (1 <? q) && (strip_factor (Z.to_nat q) (smallest_prime_factor q) q =? 1).

Definition is_prime (q : Z) : bool :=
  (1 <? q) && (smallest_prime_factor q =? q).

Definition divides (p q : Z) : bool :=
  if p =? 0 then q =? 0 else q mod p =? 0.

(** ** Strings *)

(** [str.isspace] on a character.  A string is a sequence of code points
    below 256; of these, Python takes U+0009 to U+000D, U+001C to U+0020,
    U+0085 and U+00A0 for white space. *)
Definition is_space (c : ascii) : bool :=
  let n := nat_of_ascii c in
  ((9 <=? n) && (n <=? 13) || (28 <=? n) && (n <=? 32) || (n =? 133) || (n =? 160))%nat.

(** [s.split()]: the maximal runs without white space; [word] is the run
    being read. *)
Fixpoint py_split_from (word : string) (s : string) : list string :=
  match s with
  | EmptyString => if String.eqb word "" then [] else [word]
  | String c s' =>
      if is_space c
      then (if String.eqb word "" then py_split_from "" s'
            else word :: py_split_from "" s')
      else py_split_from (word +:+ String c EmptyString) s'
  end.

Definition py_split (s : string) : list string := py_split_from "" s.

Fixpoint lstrip (s : string) : string :=
  match s with
  | String c s' => if is_space c then lstrip s' else s
  | EmptyString => EmptyString
  end.

Fixpoint rstrip (s : string) : string :=
  match s with
  | String c s' =>
      match rstrip s' with
      | EmptyString => if is_space c then EmptyString else String c EmptyString
      | r => String c r
      end
  | EmptyString => EmptyString
  end.

(** [s.strip()]. *)
Definition py_strip (s : string) : string := rstrip (lstrip s).

(** [''.join([t.strip() for t in s.split()])] (lines 935 and 2019). *)
Definition strip_blanks (s : string) : string :=
  String.concat "" (List.map py_strip (py_split s)).

Fixpoint string_filter (keep : ascii -> bool) (s : string) : string :=
  match s with
  | EmptyString => EmptyString
  | String c s' => if keep c then String c (string_filter keep s') else string_filter keep s'
  end.

Fixpoint string_map (g : ascii -> ascii) (s : string) : string :=
  match s with
  | EmptyString => EmptyString
  | String c s' => String (g c) (string_map g s')
  end.

Definition is_alnum (c : ascii) : bool :=
  let n := nat_of_ascii c in
  ((48 <=? n) && (n <=? 57) || (65 <=? n) && (n <=? 90) || (97 <=? n) && (n <=? 122))%nat.

(** [_GStemMaker.sub('_', t)] (line 68). *)
Definition GStemMaker_sub (t : string) : string :=
  string_map (fun c => if is_alnum c then c else "_"%char) t.

Definition starts_with_slash (s : string) : bool :=
  match s with String "/" _ => true | _ => false end.

Fixpoint ends_with_slash (s : string) : bool :=
  match s with
  | EmptyString => false
  | String c EmptyString => Ascii.eqb c "/"
  | String _ s' => ends_with_slash s'
  end.

(** [os.path.join(a, b)]. *)
Definition path_join (a b : string) : string :=
  if starts_with_slash b then b
  else if String.eqb a "" || ends_with_slash a then a +:+ b
  else a +:+ "/" +:+ b.

Definition not_space (c : ascii) : bool := negb (is_space c).

Fixpoint space_free (s : string) : bool :=
  match s with
  | EmptyString => true
  | String c s' => not_space c && space_free s'
  end.

(** A cache key whose group definition has lost its white space. *)
Definition strip_key (key : pyval) : pyval :=
  match key with
  | PTuple (PTuple [PStr d] :: rest) => PTuple (PTuple [PStr (string_filter not_space d)] :: rest)
  | _ => key
  end.

(** [len(key[0]) == 1]: the key starts with a group definition. *)
Definition has_definition (key : pyval) : bool :=
  match key with
  | PTuple (PTuple [PStr _] :: _) => true
  | _ => false
  end.

(** Cache keys as the ring classes store them: a tuple that starts with a
    group key, [(definition,)] or [(q, n)]. *)
Definition wf_cache_key (key : pyval) : Prop :=
  exists lead rest, key = PTuple (lead :: rest) /\
    ((exists d, lead = PTuple [PStr d]) \/ (exists q n, lead = PTuple [PInt q; PInt n])).

(** ** Arguments of the factory *)

(** The positional arguments of a call: an address in the SmallGroups
    library, a group in GAP, or a wrong number of arguments. *)
Inductive descriptor `{GroupBackend} : Type :=
| SmallGroupAddress (q n : Z)
| ExplicitGroup (g : Group)
| Malformed.

Section GroupKeys.
Context `{GroupBackend}.

(** [check_arguments] (lines 986-1025): what it returns or raises.  GAP's
    answers are functions of their arguments here, so that the calls of
    [_gap_reset_random_seed] (lines 992, 1004) have no counterpart; the
    records handed to [coho_logger] (lines 1010, 1012, 1020) are left out
    as well, and what is proved of [__call__] allows for log records. *)
Definition check_arguments (args : descriptor) (minimal_generators : bool)
    (GroupId : option (Z * Z)) : result (Z * Group) :=
  match args with
  | Malformed => Raise (ValueError "The p-Group must be described by one or two parameters")
  | SmallGroupAddress q n =>
      if match GroupId with Some (a, b) => negb ((q =? a) && (n =? b)) | None => false end
      then Raise (ValueError ("``GroupId`` incompatible with the given SmallGroups entry"))
      else
        max_n ← match NumberSmallGroups q with
                | Raise e => if isinstance_RuntimeError e
                             then Raise (ValueError ("SmallGroups library not available for order " +:+ pretty q))
                             else Raise e
                | r => r
                end;
        if negb ((1 <=? n) && (n <=? max_n))
        then Raise (ValueError ("Second argument must be between 1 and " +:+ pretty max_n))
        else G ← SmallGroup q n; Ok (q, G)
  | ExplicitGroup g =>
      q ← match GroupId with
          | Some (a, b) =>
              G ← SmallGroup a b;
              if negb (canonicalIsomorphism g G)
              then Raise (ValueError ("The given group generators are not canonically isomorphic to SmallGroup("
                                        +:+ pretty a +:+ "," +:+ pretty b +:+ ")"))
              else Ok a
          | None => Ok (Order g)
          end;
      if q =? 1 then Raise (ValueError "We don't consider the trivial group")
      else if minimal_generators || negb (is_prime_power q) then Ok (q, g)
      else match admissibleGroup g with
           | Some R => Ok (q, R)
           | None => Raise (ValueError "The first generators of the group must form a minimal generating set")
           end
  end.

(** Python's truth value of a key component. *)
Definition py_truthy (v : pyval) : bool :=
  match v with
  | PInt z => negb (z =? 0)
  | PStr s => negb (String.eqb s "")
  | PTuple l => negb (bool_decide (l = []))
  end.

(** Lines 919-944: the key that GAP determines for a group [g]; the record
    of line 937 is left out. *)
Definition key_from_gap (g : Group) : result pyval :=
  looked_up ←
    match (gId ← IdGroup g;
           gs ← SmallGroup gId.1 gId.2;
           Ok (if canonicalIsomorphism g gs then Some gId else None)) with
    | Raise e => if isinstance_ValueError e then Ok None else Raise e
    | r => r
    end;
  match looked_up with
  | Some (a, b) => Ok (PTuple [PInt a; PInt b])
  | None =>
      if IsPermGroup g
      then Ok (PTuple [PStr (strip_blanks ("Group(" +:+ GeneratorsString g +:+ ")"))])
      else Ok (PTuple [PStr (string_filter
                               (fun c => negb (Ascii.eqb c "010" || Ascii.eqb c " "))
                               ("Group([" +:+ String.concat "," (PermGeneratorStrings g) +:+ "])"))])
  end.

(** [create_group_key] (lines 913-944). *)
Definition create_group_key (G : descriptor) (GroupId : option (Z * Z))
    (GroupDefinition : option pyval) : result pyval :=
  let definition :=
    match GroupDefinition with
    | Some d => if py_truthy d then Some d else None
    | None => None
    end in
  match definition, G, GroupId with
  | Some d, _, _ => Ok d
  | None, SmallGroupAddress q n, _ => Ok (PTuple [PInt q; PInt n])
  | None, _, Some (a, b) => Ok (PTuple [PInt a; PInt b])
  | None, ExplicitGroup g, None => key_from_gap g
  | None, Malformed, None => Raise (IndexError "list index out of range")
  end.

Definition nonempty (o : option string) : option string :=
  match o with
  | Some "" => None
  | o => o
  end.

(** [gstem] (lines 741-758). *)
Definition gstem (G : descriptor) (GStem GroupName : option string)
    (GroupId : option (Z * Z)) : result string :=
  match nonempty GStem with
  | Some t => Ok (GStemMaker_sub t)
  | None =>
      match G, GroupId with
      | SmallGroupAddress q n, _ => Ok (pretty q +:+ "gp" +:+ pretty n)
      | _, Some (a, b) => Ok (pretty a +:+ "gp" +:+ pretty b)
      | _, None =>
          match nonempty GroupName, G with
          | Some t, _ => Ok (GStemMaker_sub t)
          | None, ExplicitGroup g =>
              if HasName g then Ok (GStemMaker_sub (GapGroupName g))
              else Raise (ValueError "Cannot infer a short group identifier. Please provide one of the optional arguments ``GStem`` or ``GroupName``")
          | None, _ =>
              Raise (ValueError "Cannot infer a short group identifier. Please provide one of the optional arguments ``GStem`` or ``GroupName``")
          end
      end
  end.

(** [group_name] (lines 804-816). *)
Definition group_name (G : descriptor) (GroupName : option string) : option string :=
  match nonempty GroupName with
  | Some t => Some t
  | None =>
      match G with
      | ExplicitGroup g => if HasName g then Some (GapGroupName g) else None
      | _ => None
      end
  end.

End GroupKeys.

(** ** The ring engine, Sage and the operating system *)

(** What the factory records about its own run: log records and the calls
    it makes to the outside. *)
Inductive event : Type :=
| LogMsg (level msg : string)
| EvLoad (file : string)
| EvSave (file : string)
| EvSymlink (src dst : string)
| EvFetch (url : string)
| EvConstruct (what : string).

(** Values of the global options. *)
Inductive optval : Type :=
| OBool (b : bool)
| OInt (z : Z)
| OStr (s : string).

Definition opt_truthy (o : option optval) : bool :=
  match o with
  | Some (OBool b) => b
  | Some (OInt z) => negb (z =? 0)
  | Some (OStr s) => negb (String.eqb s "")
  | None => false
  end.

(** The keyword [options]: absent, a string, a dictionary or a list. *)
Inductive options_arg : Type :=
| OptsNone
| OptsStr (s : string)
| OptsDict (d : list (string * optval))
| OptsList (l : list string).

(** The keyword [websource]: absent, [False], a URL, or anything else. *)
Inductive websource_arg : Type :=
| WsNone
| WsFalse
| WsStr (url : string)
| WsOther.

(** The cohomology rings ([COHO], [MODCOHO]) and everything the factory
    reaches through Sage and [os]: [World] is the state of the disk, the
    network and the computer algebra sessions.  [resolve_subgroups] is the
    stage of [__call__] that finds the Sylow and the intermediate subgroup
    and their completed rings (lines 1858-1969); [new_COHO] and
    [new_MODCOHO] are the constructors of the two ring classes. *)
Class RingEngine `{GroupBackend} : Type := {
  Ring : Type;
  World : Type;
  ring_is : Ring -> Ring -> bool;
  ring_key : Ring -> pyval;
  setprop_key : pyval -> Ring -> Ring;
  setprop : string -> pyval -> Ring -> Ring;
  autosave_name : Ring -> string;
  ring_group : Ring -> Group;
  ring_subgroup : Ring -> Group;
  ring_sylow_subgroup : Ring -> Group;
  ring_HP : Ring -> option Ring;
  ring_HSyl : Ring -> option Ring;
  is_MODCOHO : Ring -> bool;
  knownDeg : Ring -> Z;
  os_access_R : string -> World -> bool;
  sage_load : string -> World -> World * result Ring;
  safe_save : Ring -> string -> World -> World * result unit;
  link_database : string -> string -> World -> World * result unit;
  os_symlink : string -> string -> World -> World * result unit;
  fetch_archive : string -> string -> World -> World * result unit;
  revalidate : Ring -> World -> World * result Ring;
  rename_from_library : string -> Ring -> World -> World * result Ring;
  new_COHO : pyval -> Z -> string -> option string -> pyval -> string ->
             bool -> websource_arg -> list (string * pyval) ->
             World -> World * result Ring;
  resolve_subgroups : Group -> Z -> string -> option string ->
             option Group -> option Ring -> option Group -> option Ring -> bool ->
             World -> World * result (Group * Ring * option (Z * Z));
  new_MODCOHO : Group -> Z -> Ring -> Group -> option string -> string ->
             option string -> option (Z * Z) -> pyval ->
             World -> World * result Ring;
  ring_make : Ring -> World -> World * result Ring;
  verify_consistency_of_dimensions : Ring -> World -> World * result unit;
  ring_key_setprop_key : forall k R, ring_key (setprop_key k R) = k;
}.

Definition logging_options : list string :=
  ["warn"; "info"; "debug"; "cputime"; "nocputime"; "walltime"; "nowalltime"; "time"; "notime"].

Definition drop2 (s : string) : string :=
  match s with
  | String _ (String _ r) => r
  | _ => ""
  end.

Definition starts_with_no (s : string) : bool :=
  match s with
  | String "n" (String "o" _) => true
  | _ => false
  end.

(** Lines 484-513: one positional argument of [global_options]. *)
Definition global_option (o : gmap string optval) (opt : string) : gmap string optval :=
  if bool_decide (opt ∈ logging_options) then o
  else if (1 <? String.length opt)%nat && starts_with_no opt then <[drop2 opt := OBool false]> o
  else <[opt := OBool true]> o.

(** [global_options] called with positional arguments only (lines 481-516). *)
Definition global_options (args : list string) (o : gmap string optval) : gmap string optval :=
  match args with
  | [] | [""] => o
  | _ => List.fold_left global_option args o
  end.

Definition dict_update (d : list (string * optval)) (o : gmap string optval) : gmap string optval :=
  List.fold_left (fun o kv => <[kv.1 := kv.2]> o) d o.

Section Factory.
Context `{RingEngine}.

(** The keyword arguments of [CohomologyRing(...)]. *)
Record kwds : Type := {
  kw_root : bool;
  kw_options : options_arg;
  kw_from_scratch : bool;
  kw_websource : websource_arg;
  kw_minimal_generators : bool;
  kw_GroupId : option (Z * Z);
  kw_GroupDefinition : option pyval;
  kw_prime : option Z;
  kw_GStem : option string;
  kw_GroupName : option string;
  kw_GroupDescr : option string;
  kw_Subgroup : option Group;
  kw_SubgpId : option (Z * Z);
  kw_SubgpCohomology : option Ring;
  kw_SylowSubgroup : option Group;
  kw_SylowSubgpCohomology : option Ring;
  kw_OneStep : bool;
  kw_props : list (string * pyval);
}.

(** The factory instance, the class attributes of [COHO] it reads, the
    global option dictionary, and the outside world. *)
Record state : Type := {
  world : World;
  coho_options : gmap string optval;
  cache : list (pyval * Ring);
  create_local_sources : bool;
  local_sources : option string;
  workspace : string;
  remote_sources : list string;
  log : list event;
}.

Definition set_world (w : World) (s : state) : state :=
  {| world := w; coho_options := coho_options s; cache := cache s;
     create_local_sources := create_local_sources s; local_sources := local_sources s;
     workspace := workspace s; remote_sources := remote_sources s; log := log s |}.

Definition set_options (o : gmap string optval) (s : state) : state :=
  {| world := world s; coho_options := o; cache := cache s;
     create_local_sources := create_local_sources s; local_sources := local_sources s;
     workspace := workspace s; remote_sources := remote_sources s; log := log s |}.

Definition set_cache (c : list (pyval * Ring)) (s : state) : state :=
  {| world := world s; coho_options := coho_options s; cache := c;
     create_local_sources := create_local_sources s; local_sources := local_sources s;
     workspace := workspace s; remote_sources := remote_sources s; log := log s |}.

Definition add_log (e : event) (s : state) : state :=
  {| world := world s; coho_options := coho_options s; cache := cache s;
     create_local_sources := create_local_sources s; local_sources := local_sources s;
     workspace := workspace s; remote_sources := remote_sources s; log := log s ++ [e] |}.

Definition M (A : Type) : Type := SM state A.

Definition emit (e : event) : M unit := modify (add_log e).
Definition logger (level msg : string) : M unit := emit (LogMsg level msg).

(** A call to the outside. *)
Definition outside {A : Type} (op : World -> World * result A) : M A := fun s =>
  let '(w, r) := op (world s) in (set_world w s, r).

Definition access_R_ok (file : string) : M bool :=
  gets (fun s => os_access_R file (world s)).

Definition set_option (k : string) (v : optval) : M unit :=
  modify (fun s => set_options (<[k := v]> (coho_options s)) s).

Definition del_option (k : string) : M unit :=
  modify (fun s => set_options (delete k (coho_options s)) s).

(** The weak dictionary [self._cache], as long as its rings are alive. *)
Fixpoint cache_lookup (k : pyval) (c : list (pyval * Ring)) : option Ring :=
  match c with
  | [] => None
  | (k', R) :: c' => if pyval_eqb k k' then Some R else cache_lookup k c'
  end.

Definition cache_delete (k : pyval) (c : list (pyval * Ring)) : list (pyval * Ring) :=
  List.filter (fun kR => negb (pyval_eqb k kR.1)) c.

Definition cache_insert (k : pyval) (R : Ring) (c : list (pyval * Ring)) : list (pyval * Ring) :=
  (k, R) :: cache_delete k c.

(** The ring that the cache holds under the key [k] has become [R]: the
    cache holds the object itself, so that an attribute set on the ring is
    seen by whoever finds the ring in the cache. *)
Definition cache_setprop (k : pyval) (R : Ring) (c : list (pyval * Ring)) : list (pyval * Ring) :=
  List.map (fun kR => if pyval_eqb k kR.1 then (kR.1, R) else kR) c.

(** [COHO.local_sources if self._create_local_sources else COHO.workspace]. *)
Definition get_root_workspace : M string := fun s =>
  if create_local_sources s
  then match local_sources s with
       | Some r => (s, Ok r)
       | None => (s, Raise (TypeError "expected str, bytes or os.PathLike object, not NoneType"))
       end
  else (s, Ok (workspace s)).

Definition state_file (root GStem : string) : string :=
  path_join (path_join (path_join root GStem) "dat") "State".

(** The [try: ... load ... except BaseException] blocks of the resolvers
    (lines 1203-1211, 1221-1229, 1391-1399): [failure msg] is what the
    handler raises. *)
Definition load_with_root (root file : string) (failure : string -> exn) : M Ring :=
  try_except
    (_ ← set_option "@use_this_root@" (OStr root);
     _ ← emit (EvLoad file);
     OUT ← outside (sage_load file);
     _ ← del_option "@use_this_root@";
     mret OUT)
    isinstance_BaseException
    (fun msg => _ ← del_option "@use_this_root@"; raise (failure (exn_str msg))).

Definition ensure_slash (url : string) : string :=
  if ends_with_slash url then url else url +:+ "/".

(** Lines 2265-2328 for a prime power group ([prime is None]): every URL is
    tried in turn and [OUT] is whatever the last one gave. *)
Fixpoint remote_loop (GStem root : string) (urls : list string) (OUT : option Ring)
    : M (option Ring) :=
  match urls with
  | [] => mret OUT
  | URL :: urls' =>
      let URL := ensure_slash URL in
      _ ← logger "debug" ("Accessing " +:+ URL);
      _ ← emit (EvFetch (URL +:+ GStem +:+ ".tar.gz"));
      _ ← outside (fetch_archive (URL +:+ GStem +:+ ".tar.gz") root);
      _ ← logger "info" "Trying to read downloaded data";
      _ ← set_option "@use_this_root@" (OStr root);
      OUT ← try_except
              (_ ← emit (EvLoad (path_join (path_join root GStem) ("H" +:+ GStem)));
               R ← outside (sage_load (path_join (path_join root GStem) ("H" +:+ GStem)));
               mret (Some R))
              isinstance_BaseException (fun _ => mret None);
      OUT ← match OUT with
            | Some R => R' ← outside (rename_from_library GStem R); mret (Some R')
            | None => _ ← logger "debug" ("No cohomology ring not found in " +:+ URL); mret None
            end;
      remote_loop GStem root urls' OUT
  end.

(** [from_remote_sources(GStem, websource)] (lines 2242-2339), as the
    resolvers call it: they never pass [prime]. *)
Definition from_remote_sources (GStem : string) (websource : option string)
    : M (option Ring) :=
  use_web ← gets (fun s => opt_truthy (coho_options s !! "use_web"));
  if negb (use_web : bool) then mret None else
  root ← get_root_workspace;
  urls ← match websource with
         | None => gets remote_sources
         | Some w => mret (if String.eqb w "" then [] else [ensure_slash w])
         end;
  match urls with
  | [] => mret None
  | _ =>
      _ ← logger "info" "Accessing web";
      _ ← logger "info" "Press Ctrl-c to interrupt web access.";
      OUT ← remote_loop GStem root urls None;
      match OUT with
      | None => raise (RuntimeError "The requested cohomology ring could not be found in any repository")
      | Some R =>
          _ ← try_except
                (if knownDeg R =? 0
                 then _ ← emit (EvSave (autosave_name R)); outside (safe_save R (autosave_name R))
                 else mret tt)
                isinstance_BaseException
                (fun _ => logger "error" "Unable to save basic ring setup");
          mret (Some R)
      end
  end.

Definition websource_url (w : websource_arg) : option string :=
  match w with
  | WsStr url => Some url
  | _ => None
  end.

Definition websource_allowed (w : websource_arg) : bool :=
  match w with
  | WsFalse => false
  | _ => true
  end.

(** Lines 1246-1259: what the resolver does with a ring it found. *)
Definition finish_p_group (KEY : pyval) (props : list (string * pyval))
    (OUT : option Ring) : M (option Ring) :=
  match OUT with
  | None => mret None
  | Some R =>
      R ← outside (revalidate R);
      n ← lift (py_len KEY);
      _ ← (if n =? 2 then
             _ ← logger "info" "Checking compatibility of SmallGroups library and stored cohomology ring";
             q ← lift (py_getitem KEY 0);
             i ← lift (py_getitem KEY 1);
             G ← lift (SmallGroup_val q i);
             if negb (canonicalIsomorphism (ring_group R) G)
             then raise (ValueError "Stored group data incompatible with data in the SmallGroups library")
             else mret tt
           else mret tt);
      mret (Some (List.fold_left (fun R kv => setprop kv.1 kv.2 R) props R))
  end.

(** The fourth tier (lines 1231-1245). *)
Definition web_tier (GStem : string) (websource : websource_arg) : M (option Ring) :=
  try_except
    (try_except
       (try_except
          (from_remote_sources GStem (websource_url websource))
          isinstance_URLError
          (fun msg =>
             _ ← (if bool_decide (exn_str msg = "HTTP Error 404")
                  then logger "info" "Cohomology ring can not be found in web repository."
                  else logger "debug" "Websource is not available.");
             mret None))
       (fun e => isinstance_ValueError e || isinstance_RuntimeError e)
       (fun _ => _ ← logger "info" "Cohomology ring can not be found in web repository."; mret None))
    isinstance_KeyboardInterrupt
    (fun _ => _ ← logger "warning" "Access to websource was interrupted."; mret None).

(** [_get_p_group_from_cache_or_db] (lines 1175-1259). *)
Definition get_p_group_from_cache_or_db (GStem : string) (KEY : pyval)
    (from_scratch : bool) (websource : websource_arg)
    (props : list (string * pyval)) : M (option Ring) :=
  root_local_sources ← gets local_sources;
  root_workspace ← get_root_workspace;
  let file_name := path_join GStem ("H" +:+ GStem +:+ ".sobj") in
  _ ← (if from_scratch then set_option "use_web" (OBool false) else mret tt);
  let CacheKey := p_group_cache_key KEY (state_file root_workspace GStem) in
  cached ← gets (fun s => cache_lookup CacheKey (cache s));
  hit ← match cached with
        | Some OUT =>
            on_disk ← access_R_ok (autosave_name OUT);
            if (on_disk : bool) then _ ← logger "debug" "Got ring from cache"; mret (Some OUT)
            else
              _ ← logger "error" "Found in cache, but not on disk. Removing cache item";
              _ ← modify (fun s => set_cache (cache_delete CacheKey (cache s)) s);
              mret None
        | None => mret None
        end;
  match hit with
  | Some OUT => mret (Some OUT)
  | None =>
      in_workspace ← access_R_ok (path_join root_workspace file_name);
      in_local_sources ←
        match nonempty root_local_sources with
        | Some r => access_R_ok (path_join r file_name)
        | None => mret false
        end;
      OUT ←
        (if (in_workspace : bool) then
           _ ← logger "debug" ("Data found at " +:+ path_join root_workspace file_name);
           if from_scratch
           then raise (RuntimeError ("You requested a computation from scratch. Please remove "
                                       +:+ path_join root_workspace GStem))
           else
             R ← load_with_root root_workspace (path_join root_workspace file_name)
                   (fun msg => IOError ("Saved data at " +:+ path_join root_workspace file_name
                                          +:+ " are not readable: " +:+ msg));
             mret (Some R)
         else if in_local_sources && negb from_scratch then
           let r := default "" root_local_sources in
           _ ← logger "debug" ("Local data found at " +:+ path_join r file_name);
           _ ← try_except
                 (_ ← emit (EvSymlink (path_join r GStem) (path_join root_workspace GStem));
                  outside (link_database (path_join r GStem) (path_join root_workspace GStem)))
                 isinstance_BaseException
                 (fun _ => raise (ValueError ("Can not create a symbolic link to the local sources. Please remove "
                                                +:+ path_join root_workspace GStem)));
           R ← load_with_root root_workspace (path_join root_workspace file_name)
                 (fun msg => IOError ("Saved data at " +:+ path_join r file_name
                                        +:+ " are not readable: " +:+ msg));
           mret (Some R)
         else if websource_allowed websource && negb from_scratch then
           web_tier GStem websource
         else mret None);
      finish_p_group KEY props OUT
  end.

(** [_get_p_group_from_scratch] (lines 1297-1327); [COHO.__init__] puts the
    new ring into the cache. *)
Definition get_p_group_from_scratch (KEY : pyval) (q : Z) (GStem : string)
    (GroupName : option string) (from_scratch : bool) (websource : websource_arg)
    (props : list (string * pyval)) : M Ring :=
  _ ← logger "info" "We compute this cohomology ring from scratch";
  root_workspace ← get_root_workspace;
  let CacheKey := p_group_cache_key KEY (state_file root_workspace GStem) in
  _ ← emit (EvConstruct ("COHO " +:+ GStem));
  OUT ← outside (new_COHO KEY q GStem GroupName CacheKey root_workspace
                   from_scratch websource props);
  _ ← modify (fun s => set_cache (cache_insert (ring_key OUT) OUT (cache s)) s);
  _ ← try_except
        (if knownDeg OUT =? 0
         then _ ← emit (EvSave (autosave_name OUT)); outside (safe_save OUT (autosave_name OUT))
         else mret tt)
        isinstance_BaseException
        (fun _ => logger "error" "Unable to save basic ring setup");
  mret OUT.

(** [_check_compatibility] (lines 1067-1082). *)
Definition check_compatibility (CacheKey : pyval) (R : Ring) : M Ring :=
  similarity ← lift (IsKeyEquivalent CacheKey (ring_key R));
  if similarity =? 1 then
    _ ← logger "warning" "WARNING: The given key and ring describe different groups, but they are equivalent";
    mret R
  else if similarity =? 0 then raise (ValueError "The ring does not match the given key")
  else mret R.

(** [_get_non_p_group_from_db] (lines 1378-1428). *)
Definition get_non_p_group_from_db (GStem : string) (pr : Z)
    (from_scratch : bool) (websource : websource_arg) : M (option Ring) :=
  root_local_sources ← gets local_sources;
  root_workspace ← get_root_workspace;
  let file_name := "H" +:+ GStem +:+ "mod" +:+ pretty pr +:+ ".sobj" in
  in_workspace ← access_R_ok (path_join root_workspace file_name);
  in_local_sources ←
    match nonempty root_local_sources with
    | Some r => access_R_ok (path_join r file_name)
    | None => mret false
    end;
  OUT ←
    (if (in_workspace : bool) then
       if from_scratch
       then raise (RuntimeError ("You requested a computation from scratch. Please remove "
                                   +:+ path_join root_workspace file_name))
       else
         R ← load_with_root root_workspace (path_join root_workspace file_name)
               (fun _ => IOError ("Saved data at " +:+ path_join root_workspace file_name
                                    +:+ " are not readable"));
         mret (Some R)
     else if in_local_sources && negb from_scratch then
       let r := default "" root_local_sources in
       _ ← emit (EvSymlink (path_join r file_name) (path_join root_workspace file_name));
       _ ← outside (os_symlink (path_join r file_name) (path_join root_workspace file_name));
       R ← load_with_root root_workspace (path_join root_workspace file_name)
             (fun _ => ValueError "unsupported format character ' ' (0x20) at index 2");
       mret (Some R)
     else if websource_allowed websource && negb from_scratch then
       try_except
         (from_remote_sources GStem (websource_url websource))
         isinstance_BaseException
         (fun _ => _ ← logger "info" "No cohomology ring found in web repository."; mret None)
     else mret None);
  match OUT with
  | None => mret None
  | Some R => R ← outside (revalidate R); mret (Some R)
  end.

(** *** [__call__] *)

(** Lines 1719-1726. *)
Definition apply_options (opts : options_arg) : M unit :=
  match opts with
  | OptsNone => mret tt
  | OptsStr o => modify (fun s => set_options (global_options [o] (coho_options s)) s)
  | OptsDict d => modify (fun s => set_options (dict_update d (coho_options s)) s)
  | OptsList l => modify (fun s => set_options (global_options l (coho_options s)) s)
  end.

(** Lines 1739-1742: the arguments as they are used from here on.  A key of
    length two whose components are not integers is refused here, where
    the source fails a little later, on formatting the stem name. *)
Definition arguments_from_key (KEY : pyval) (Hfinal : Group) : result descriptor :=
  n ← py_len KEY;
  if n =? 2 then
    a ← py_getitem KEY 0;
    b ← py_getitem KEY 1;
    match a, b with
    | PInt q, PInt i => Ok (SmallGroupAddress q i)
    | _, _ => Raise (TypeError "%d format: a number is required")
    end
  else Ok (ExplicitGroup Hfinal).

(** Lines 1746-1758. *)
Definition required_prime (q : Z) (prime : option Z) : result (option Z) :=
  if is_prime_power q then Ok None
  else match prime with
       | None => Raise (ValueError "The parameter `prime` must be provided")
       | Some pr =>
           if negb (is_prime pr)
           then Raise (ValueError ("The parameter `prime=" +:+ pretty pr +:+ "` must provide a prime number"))
           else if negb (divides pr q)
           then Raise (ValueError ("The parameter `prime=" +:+ pretty pr
                                     +:+ "` must divide the group order " +:+ pretty q))
           else Ok (Some pr)
       end.

(** Lines 1776-1781: the prime power case. *)
Definition call_p_group (KEY : pyval) (q : Z) (GStem : string)
    (GroupName : option string) (k : kwds) : M Ring :=
  root_workspace ← get_root_workspace;
  let CacheKey := p_group_cache_key KEY (state_file root_workspace GStem) in
  let websource := if q <? 128 then WsFalse else kw_websource k in
  found ← get_p_group_from_cache_or_db GStem KEY (kw_from_scratch k) websource (kw_props k);
  R ← match found with
      | Some R => mret R
      | None => get_p_group_from_scratch KEY q GStem GroupName
                  (kw_from_scratch k) websource (kw_props k)
      end;
  check_compatibility CacheKey R.

Definition ring_is_opt (R : Ring) (o : option Ring) : bool :=
  match o with
  | Some X => ring_is R X
  | None => false
  end.

(** Lines 1792-1816: a ring found on disk is checked against the given
    group and the given subgroups, and returned. *)
Definition check_stored_ring (Hfinal : Group) (k : kwds) (OUT : Ring) : result Ring :=
  if negb (canonicalIsomorphism Hfinal (ring_group OUT))
  then Raise (ValueError "The stored cohomology ring does not match the given group")
  else if match kw_SubgpCohomology k with
          | Some HP => negb (ring_is_opt HP (ring_HP OUT))
          | None => false
          end
  then Raise (ValueError "The stored cohomology ring is not defined as a subring of the given ring")
  else if match kw_Subgroup k with
          | Some U => negb (canonicalIsomorphism U (ring_subgroup OUT))
          | None => false
          end
  then Raise (ValueError "The stored cohomology ring is not computed using the given subgroup")
  else if match kw_SylowSubgpCohomology k with
          | Some HSyl => negb (ring_is_opt HSyl (ring_HSyl OUT))
          | None => false
          end
  then Raise (ValueError "The stored cohomology ring is not defined as a subring of the given ring")
  else if match kw_SylowSubgroup k with
          | Some U => negb (canonicalIsomorphism U (ring_sylow_subgroup OUT))
          | None => false
          end
  then Raise (ValueError "The stored cohomology ring is not computed using the given Sylow subgroup")
  else Ok OUT.

(** Lines 1822-1825: [HSyl = HP._HSyl or HP] when [SubgpCohomology] is
    given, the keyword [SylowSubgpCohomology] otherwise. *)
Definition given_HSyl (k : kwds) : option Ring :=
  match kw_SubgpCohomology k with
  | Some HP => Some (default HP (ring_HSyl HP))
  | None => kw_SylowSubgpCohomology k
  end.

(** Lines 1822-1853: the given subgroups and rings are checked before any
    subgroup or ring is computed.  The result is [HSyl]. *)
Definition check_given_subgroups (Hfinal : Group) (pr : Z) (k : kwds)
    : result (option Ring) :=
  let HSyl := given_HSyl k in
  _ ← match HSyl with
      | Some R =>
          if is_MODCOHO R
          then Raise (TypeError "The given cohomology of a Sylow subgroup does in fact not belong to a prime power group")
          else Ok tt
      | None => Ok tt
      end;
  _ ← match kw_Subgroup k with
      | Some U =>
          if negb (IsSubgroup Hfinal U)
          then Raise (ValueError "The given subgroup is in fact not a subgroup")
          else if divides pr (Index Hfinal U)
          then Raise (ValueError ("The given subgroup must contain a Sylow " +:+ pretty pr +:+ "-subgroup"))
          else Ok tt
      | None => Ok tt
      end;
  _ ← match kw_SylowSubgroup k with
      | Some Syl =>
          if negb (IsSubgroup Hfinal Syl)
          then Raise (ValueError "The given Sylow subgroup is in fact not a subgroup")
          else if divides pr (Index Hfinal Syl)
          then Raise (ValueError ("The index of the given Sylow " +:+ pretty pr
                                    +:+ "-subgroup is not coprime to " +:+ pretty pr))
          else if negb (divides pr (Order Syl))
          then Raise (ValueError ("The given Sylow subgroup's order is indivisible by " +:+ pretty pr))
          else match kw_Subgroup k with
               | Some U =>
                   if negb (IsSubgroup U Syl)
                   then Raise (ValueError "The given subgroup must contain the given Sylow subgroup")
                   else Ok tt
               | None => Ok tt
               end
      | None => Ok tt
      end;
  Ok HSyl.

(** [list(v)]. *)
Definition py_list (v : pyval) : result (list pyval) :=
  match v with
  | PTuple l => Ok l
  | PStr s => Ok (List.map (fun c => PStr (String c EmptyString)) (list_ascii_of_string s))
  | PInt _ => Raise (TypeError "'Integer' object is not iterable")
  end.

(** Lines 2018-2022: white space is removed from the group definition in
    the key of the new ring.  [setprop] changes the ring that
    [MODCOHO.__init__] has put into the cache, under the key the ring had
    then. *)
Definition normalise_definition (OUT : Ring) : M Ring :=
  k0 ← lift (py_getitem (ring_key OUT) 0);
  n ← lift (py_len k0);
  if n =? 1 then
    d ← lift (py_getitem k0 0);
    match d with
    | PStr t =>
        tmpKey ← lift (py_list (ring_key OUT));
        let OUT' := setprop_key (PTuple (<[0%nat := PTuple [PStr (strip_blanks t)]]> tmpKey)) OUT in
        _ ← modify (fun s => set_cache (cache_setprop (ring_key OUT) OUT' (cache s)) s);
        mret OUT'
    | _ => raise (AttributeError "object has no attribute 'split'")
    end
  else mret OUT.

(** Lines 2026-2027. *)
Definition update_on_disk (OUT : Ring) : M Ring :=
  _ ← logger "info" "Trying to update data on disk";
  _ ← emit (EvSave (autosave_name OUT));
  _ ← outside (safe_save OUT (autosave_name OUT));
  mret OUT.

(** Lines 2017-2027. *)
Definition verify_assembled_key (CacheKey : pyval) (OUT : Ring) : M Ring :=
  if pyval_eqb (ring_key OUT) CacheKey then mret OUT
  else
    OUT ← normalise_definition OUT;
    if negb (pyval_eqb (ring_key OUT) CacheKey)
    then raise (RuntimeError "Cache keys are corrupted")
    else update_on_disk OUT.

(** Lines 1986-2037: the composite key, the cache, and the new ring;
    [MODCOHO.__init__] puts the new ring into the cache.  The call of
    [_gap_reset_random_seed] (line 2029) has no counterpart. *)
Definition assemble (KEY : pyval) (GStem : string) (GroupName : option string)
    (Hfinal : Group) (pr : Z) (k : kwds)
    (Subgroup : Group) (HP : Ring) (SubgpId : option (Z * Z)) : M Ring :=
  let CacheKey := non_p_group_cache_key KEY GStem (ring_key HP) pr in
  cached ← gets (fun s => cache_lookup CacheKey (cache s));
  match cached with
  | Some OUT =>
      if negb (pyval_eqb (ring_key OUT) CacheKey) then
        similarity ← lift (IsKeyEquivalent CacheKey (ring_key OUT));
        if similarity =? 0
        then raise (ValueError "Cohomology ring cache is broken")
        else
          _ ← (if similarity =? 1
               then logger "warning" "Stored cohomology data have a different group description, but they seem to be equivalent"
               else mret tt);
          mret OUT
      else mret OUT
  | None =>
      _ ← emit (EvConstruct ("MODCOHO " +:+ GStem));
      OUT ← outside (new_MODCOHO Hfinal pr HP Subgroup GroupName GStem
                       (kw_GroupDescr k) SubgpId KEY);
      _ ← modify (fun s => set_cache (cache_insert (ring_key OUT) OUT (cache s)) s);
      OUT ← verify_assembled_key CacheKey OUT;
      _ ← try_except
            (if knownDeg OUT =? 0
             then _ ← emit (EvSave (autosave_name OUT)); outside (safe_save OUT (autosave_name OUT))
             else mret tt)
            isinstance_BaseException
            (fun _ => logger "error" "Unable to save basic ring setup");
      mret OUT
  end.

(** Lines 1791-2037: the case of a group that is not of prime power
    order. *)
Definition call_non_p_group (KEY : pyval) (q : Z) (Hfinal : Group) (pr : Z)
    (GStem : string) (GroupName : option string) (k : kwds) : M Ring :=
  stored ← get_non_p_group_from_db GStem pr (kw_from_scratch k) (kw_websource k);
  match stored with
  | Some OUT => lift (check_stored_ring Hfinal k OUT)
  | None =>
      HSyl ← lift (check_given_subgroups Hfinal pr k);
      _ ← emit (EvConstruct ("subgroups of " +:+ GStem));
      '(Subgroup, HP, SubgpId) ←
        outside (resolve_subgroups Hfinal pr GStem GroupName
                   (kw_Subgroup k) (kw_SubgpCohomology k)
                   (kw_SylowSubgroup k) HSyl (kw_OneStep k));
      assemble KEY GStem GroupName Hfinal pr k Subgroup HP SubgpId
  end.

(** Lines 1733-2037: [__call__] from the admissibility check on. *)
Definition call_main (args : descriptor) (k : kwds) : M Ring :=
  let GapName :=
    match args with
    | ExplicitGroup g => if HasName g then Some (GapGroupName g) else None
    | _ => None
    end in
  '(q, Hfinal) ← lift (check_arguments args (kw_minimal_generators k) (kw_GroupId k));
  KEY ← lift (create_group_key args (kw_GroupId k) (kw_GroupDefinition k));
  args ← lift (arguments_from_key KEY Hfinal);
  pr ← lift (required_prime q (kw_prime k));
  GStem ← lift (gstem args (kw_GStem k)
                  (match nonempty (kw_GroupName k) with Some t => Some t | None => GapName end)
                  (kw_GroupId k));
  let GroupName := group_name args (kw_GroupName k) in
  match pr with
  | None => call_p_group KEY q GStem GroupName k
  | Some pr => call_non_p_group KEY q Hfinal pr GStem GroupName k
  end.

(** [CohomologyRingFactory.__call__] (lines 1696-2037). *)
Definition call (args : descriptor) (k : kwds) : M Ring :=
  if kw_root k
  then raise (ValueError "The syntax for ``CohomologyRing`` has changed. Don't provide the ``root`` keyword, but use the ``set_workspace`` method instead")
  else
    _ ← apply_options (kw_options k);
    _ ← (if kw_from_scratch k then set_option "use_web" (OBool false) else mret tt);
    call_main args k.

(** *** [from_subgroup_tower] *)

(** The keywords [GroupName] and [GroupDescr] of [from_subgroup_tower]. *)
Inductive names_arg : Type :=
| NamesNone
| NamesStr (t : string)
| NamesList (l : list (option string))
| NamesTuple (l : list (option string)).

(** A Python list or tuple of names. *)
Inductive pyseq : Type :=
| PyList (l : list (option string))
| PyTuple (l : list (option string)).

(** [l.pop(0)]. *)
Definition pop0 (l : pyseq) : result (option string * pyseq) :=
  match l with
  | PyList (x :: l') => Ok (x, PyList l')
  | PyList [] => Raise (IndexError "pop from empty list")
  | PyTuple _ => Raise (AttributeError "'tuple' object has no attribute 'pop'")
  end.

Definition count_from_1 (m : nat) : list Z :=
  List.map Z.of_nat (List.seq 1 m).

(** Lines 1567-1577. *)
Definition tower_names (n : nat) (p : Z) (GroupName : names_arg) : result pyseq :=
  match GroupName with
  | NamesList l =>
      if negb (List.length l =? n)%nat
      then Raise (AssertionError "Number of group names does not coincide with the height of the subgroup tower")
      else Ok (PyList l)
  | NamesTuple l =>
      if negb (List.length l =? n)%nat
      then Raise (AssertionError "Number of group names does not coincide with the height of the subgroup tower")
      else Ok (PyTuple l)
  | NamesStr g =>
      Ok (PyList ([Some ("Syl_" +:+ pretty p +:+ "_" +:+ g)]
                  ++ List.map (fun i => Some ("Subgp_" +:+ pretty i +:+ "_" +:+ g))
                       (count_from_1 (n - 2))
                  ++ [Some g]))
  | NamesNone => Ok (PyList (List.repeat None n))
  end.

(** Lines 1578-1588; the name [ZZ] used at line 1585 is not defined in the
    module. *)
Definition tower_descrs (n : nat) (p : Z) (GroupDescr : names_arg) : result pyseq :=
  match GroupDescr with
  | NamesList l =>
      if negb (List.length l =? n)%nat
      then Raise (AssertionError "Number of group names does not coincide with the height of the subgroup tower")
      else Ok (PyList l)
  | NamesTuple l =>
      if negb (List.length l =? n)%nat
      then Raise (AssertionError "Number of group names does not coincide with the height of the subgroup tower")
      else Ok (PyTuple l)
  | NamesStr g =>
      match count_from_1 (n - 2) with
      | [] => Ok (PyList [Some ("Sylow " +:+ pretty p +:+ "-subgroup of " +:+ g); Some g])
      | _ :: _ => Raise (NameError "name 'ZZ' is not defined")
      end
  | NamesNone => Ok (PyList (List.repeat None n))
  end.

(** Line 1589-1590. *)
Fixpoint check_nested (args : list Group) : result unit :=
  match args with
  | G :: (G' :: _) as rest =>
      if negb (IsSubgroup G' G)
      then Raise (AssertionError "argument has to be a subgroup of the next argument")
      else check_nested rest
  | _ => Ok tt
  end.

Definition pop_names (GroupNames GroupDescrs : pyseq)
    : result (option string * option string * pyseq * pyseq) :=
  '(name, GroupNames) ← pop0 GroupNames;
  '(descr, GroupDescrs) ← pop0 GroupDescrs;
  Ok (name, descr, GroupNames, GroupDescrs).

Definition with_names (name descr : option string) (k : kwds) : kwds :=
  {| kw_root := kw_root k; kw_options := kw_options k;
     kw_from_scratch := kw_from_scratch k; kw_websource := kw_websource k;
     kw_minimal_generators := kw_minimal_generators k; kw_GroupId := kw_GroupId k;
     kw_GroupDefinition := kw_GroupDefinition k; kw_prime := kw_prime k;
     kw_GStem := kw_GStem k; kw_GroupName := name; kw_GroupDescr := descr;
     kw_Subgroup := kw_Subgroup k; kw_SubgpId := kw_SubgpId k;
     kw_SubgpCohomology := kw_SubgpCohomology k;
     kw_SylowSubgroup := kw_SylowSubgroup k;
     kw_SylowSubgpCohomology := kw_SylowSubgpCohomology k;
     kw_OneStep := kw_OneStep k; kw_props := kw_props k |}.

(** The keywords of one step up the tower: [SubgpCohomology=H0],
    [Subgroup=G0], [prime=p], [from_scratch=True] and the names. *)
Definition step_kwds (H0 : Ring) (G0 : Group) (p : Z)
    (name descr : option string) (k : kwds) : kwds :=
  {| kw_root := kw_root k; kw_options := kw_options k;
     kw_from_scratch := true; kw_websource := kw_websource k;
     kw_minimal_generators := kw_minimal_generators k; kw_GroupId := kw_GroupId k;
     kw_GroupDefinition := kw_GroupDefinition k; kw_prime := Some p;
     kw_GStem := kw_GStem k; kw_GroupName := name; kw_GroupDescr := descr;
     kw_Subgroup := Some G0; kw_SubgpId := kw_SubgpId k;
     kw_SubgpCohomology := Some H0;
     kw_SylowSubgroup := kw_SylowSubgroup k;
     kw_SylowSubgpCohomology := kw_SylowSubgpCohomology k;
     kw_OneStep := kw_OneStep k; kw_props := kw_props k |}.

Definition in_range (i lo hi : nat) : bool := ((lo <=? i) && (i <? hi))%nat.

(** Lines 1595-1601: [while i in range(1, len(args)-1)].  The body never
    assigns [i]; every round takes one name from [GroupNames], which is what
    the recursion follows. *)
Fixpoint tower_loop (args : list Group) (i : nat) (p : Z) (k : kwds)
    (names : list (option string)) (GroupDescrs : pyseq)
    (G0 : Group) (H0 : Ring)
    : M (Group * Ring * pyseq * pyseq) :=
  if negb (in_range i 1 (List.length args - 1)) then mret (G0, H0, PyList names, GroupDescrs)
  else
    match List.nth_error args i with
    | None => raise (IndexError "tuple index out of range")
    | Some G1 =>
        match names with
        | [] => raise (IndexError "pop from empty list")
        | name :: names' =>
            '(descr, GroupDescrs) ← lift (pop0 GroupDescrs);
            H1 ← call (ExplicitGroup G1) (step_kwds H0 G0 p name descr k);
            H1 ← outside (ring_make H1);
            _ ← outside (verify_consistency_of_dimensions H1);
            tower_loop args i p k names' GroupDescrs G1 H1
        end
    end.

(** [from_subgroup_tower] (lines 1562-1602). *)
Definition from_subgroup_tower (args : list Group)
    (GroupName GroupDescr : names_arg) (k : kwds) : M Ring :=
  match args with
  | [] | [_] => raise (AssertionError "At least two groups must be provided.")
  | G0 :: _ =>
      let n := List.length args in
      let q := Order G0 in
      if negb (is_prime_power q)
      then raise (AssertionError "The first argument must be a prime power group")
      else
        let p := smallest_prime_factor q in
        GroupNames ← lift (tower_names n p GroupName);
        GroupDescrs ← lift (tower_descrs n p GroupDescr);
        _ ← lift (check_nested args);
        let i := (n - 2)%nat in
        let top := List.last args G0 in
        _ ← (if negb (divides q (Order top)) then raise ZeroDivisionError
             else if (Order top / q) mod p =? 0
             then raise (AssertionError "First given group must be a Sylow subgroup of the last given group")
             else mret tt);
        '(name, descr, GroupNames, GroupDescrs) ← lift (pop_names GroupNames GroupDescrs);
        H0 ← call (ExplicitGroup G0) (with_names name descr k);
        H0 ← outside (ring_make H0);
        _ ← outside (verify_consistency_of_dimensions H0);
        '(G0, H0, GroupNames, GroupDescrs) ←
          match GroupNames with
          | PyList names => tower_loop args i p k names GroupDescrs G0 H0
          | PyTuple _ =>
              if in_range i 1 (n - 1)
              then raise (AttributeError "'tuple' object has no attribute 'pop'")
              else mret (G0, H0, GroupNames, GroupDescrs)
          end;
        '(name, descr, _, _) ← lift (pop_names GroupNames GroupDescrs);
        call (ExplicitGroup top) (step_kwds H0 G0 p name descr k)
  end.

(** *** What the properties speak about *)

Definition is_fetch (e : event) : bool :=
  match e with EvFetch _ => true | _ => false end.

Definition is_construct (e : event) : bool :=
  match e with EvConstruct _ => true | _ => false end.

(** The downloads recorded in a log. *)
Definition fetches (l : list event) : list event := List.filter is_fetch l.

(** The option [use_web] fails the test of line 2244. *)
Definition web_off (s : state) : Prop :=
  opt_truthy (coho_options s !! "use_web") = false.

(** [use_web] is [False] in the global options. *)
Definition web_switched_off (s : state) : Prop :=
  coho_options s !! "use_web" = Some (OBool false).

(** From the log [l] to the log [l'] nothing but log records has been
    added: no file was loaded, saved, linked or fetched and no ring was
    constructed in between. *)
Definition only_records_added (l l' : list event) : Prop :=
  forall e, In e l' -> In e l \/ exists level msg, e = LogMsg level msg.

(** The downloads made so far are [L]. *)
Definition same_fetches (L : list event) (s : state) : Prop :=
  fetches (log s) = L.

(** [I] goes from the state before [m] to the state after it, whether [m]
    returns or raises. *)
Definition preserves {A : Type} (I : state -> Prop) (m : M A) : Prop :=
  forall s, I s -> I (m s).1.

(** [I] does not depend on the outside, the cache, log records other than
    downloads, or options other than [use_web], and it survives switching
    [use_web] off. *)
Record stable (I : state -> Prop) : Prop := {
  stable_world : forall s w, I s -> I (set_world w s);
  stable_cache : forall s c, I s -> I (set_cache c s);
  stable_log : forall s e, is_fetch e = false -> I s -> I (add_log e s);
  stable_insert : forall s k v, k <> "use_web" -> I s ->
                  I (set_options (<[k := v]> (coho_options s)) s);
  stable_delete : forall s k, k <> "use_web" -> I s ->
                  I (set_options (delete k (coho_options s)) s);
  stable_web_off : forall s, I s ->
                  I (set_options (<["use_web" := OBool false]> (coho_options s)) s);
}.

End Factory.

(** ** A small instance of the interfaces *)

(** Groups are named by their order; two groups are canonically isomorphic
    when the orders agree, and [U] is a subgroup of [G] when its order
    divides that of [G].  Every group has the SmallGroups number 1. *)
Definition toy_backend : GroupBackend := {|
  Group := Z;
  gap_eval := fun _ => Raise (ValueError "GAP: syntax error");
  SmallGroup := fun q _ => Ok q;
  NumberSmallGroups := fun _ => Ok 1;
  canonicalIsomorphism := fun g h => g =? h;
  Order := fun g => g;
  IsSubgroup := fun G U => divides U G;
  Index := fun G U => G / U;
  HasName := fun _ => false;
  GapGroupName := fun _ => "";
  admissibleGroup := fun g => Some g;
  IdGroup := fun g => Ok (g, 1);
  IsPermGroup := fun _ => true;
  GeneratorsString := fun g => "[" +:+ pretty g +:+ "]";
  PermGeneratorStrings := fun _ => [];
|}.

Definition cyclic (order : Z) : @Group toy_backend := order.

(** A group definition as GAP prints it, with a blank after every comma. *)
Fixpoint blank_after_commas (s : string) : string :=
  match s with
  | EmptyString => EmptyString
  | String c s' =>
      if Ascii.eqb c ","
      then String c (String " " (blank_after_commas s'))
      else String c (blank_after_commas s')
  end.

Definition as_printed (KEY : pyval) : pyval :=
  match KEY with
  | PTuple [PStr d] => PTuple [PStr (blank_after_commas d)]
  | _ => KEY
  end.

Section ToyEngine.
#[local] Existing Instance toy_backend.

Inductive toy_ring : Type :=
| ToyRing (key : pyval) (group subgroup : Z) (modcoho : bool) (sylow : option toy_ring).

Definition toy_key (R : toy_ring) : pyval :=
  match R with ToyRing key _ _ _ _ => key end.
Definition toy_group (R : toy_ring) : Z :=
  match R with ToyRing _ g _ _ _ => g end.
Definition toy_subgroup (R : toy_ring) : Z :=
  match R with ToyRing _ _ u _ _ => u end.
Definition toy_modcoho (R : toy_ring) : bool :=
  match R with ToyRing _ _ _ m _ => m end.
Definition toy_sylow (R : toy_ring) : option toy_ring :=
  match R with ToyRing _ _ _ _ y => y end.
Definition toy_set_key (k : pyval) (R : toy_ring) : toy_ring :=
  match R with ToyRing _ g u m y => ToyRing k g u m y end.

(** The outside: which files can be read, whether the user interrupts a
    download, and a record of what the ring engine and the network were
    asked to do. *)
Record toy_world : Type := {
  tw_files : list string;
  tw_interrupt : bool;
  tw_trace : list string;
}.

Definition toy_note (what : string) (w : toy_world) : toy_world :=
  {| tw_files := tw_files w; tw_interrupt := tw_interrupt w;
     tw_trace := tw_trace w ++ [what] |}.

Definition toy_engine : @RingEngine toy_backend := {|
  Ring := toy_ring;
  World := toy_world;
  ring_is := fun R R' => pyval_eqb (toy_key R) (toy_key R');
  ring_key := toy_key;
  setprop_key := toy_set_key;
  setprop := fun _ _ R => R;
  autosave_name := fun R => "autosave";
  ring_group := toy_group;
  ring_subgroup := toy_subgroup;
  ring_sylow_subgroup := fun R => match toy_sylow R with Some Y => toy_group Y | None => toy_group R end;
  ring_HP := fun _ => None;
  ring_HSyl := toy_sylow;
  is_MODCOHO := toy_modcoho;
  knownDeg := fun _ => 0;
  os_access_R := fun file w => bool_decide (file ∈ tw_files w);
  sage_load := fun file w => (w, Raise (IOError "cannot unpickle"));
  safe_save := fun R file w => (toy_note ("save " +:+ file) w, Ok tt);
  link_database := fun src dst w => (w, Ok tt);
  os_symlink := fun src dst w => (w, Ok tt);
  fetch_archive := fun url root w =>
    (toy_note ("fetch " +:+ url) w,
     if tw_interrupt w then Raise KeyboardInterrupt else Raise (URLError "HTTP Error 404"));
  revalidate := fun R w => (w, Ok R);
  rename_from_library := fun _ R w => (w, Ok R);
  new_COHO := fun KEY q GStem GroupName CacheKey root from_scratch websource props w =>
    (toy_note ("COHO " +:+ GStem) w, Ok (ToyRing CacheKey q q false None));
  resolve_subgroups := fun Hfinal pr GStem GroupName Subgroup HP SylowSubgroup HSyl OneStep w =>
    match Subgroup, HP with
    | Some U, Some R => (w, Ok (U, R, None))
    | _, _ => (w, Raise (ValueError "no subgroup given"))
    end;
  new_MODCOHO := fun Hfinal pr HP Subgroup GroupName GStem GroupDescr SubgpId KEY w =>
    (toy_note ("MODCOHO " +:+ pretty Hfinal +:+ " over " +:+ pretty Subgroup) w,
     Ok (ToyRing (non_p_group_cache_key (as_printed KEY) GStem (toy_key HP) pr) Hfinal Subgroup true
           (Some (default HP (toy_sylow HP)))));
  ring_make := fun R w => (w, Ok R);
  verify_consistency_of_dimensions := fun _ w => (w, Ok tt);
  ring_key_setprop_key := fun k R => match R with ToyRing _ _ _ _ _ => eq_refl end;
|}.

#[local] Existing Instance toy_engine.

Definition toy_kwds : kwds := {|
  kw_root := false; kw_options := OptsNone; kw_from_scratch := false;
  kw_websource := WsNone; kw_minimal_generators := false; kw_GroupId := None;
  kw_GroupDefinition := None; kw_prime := None; kw_GStem := None;
  kw_GroupName := None; kw_GroupDescr := None; kw_Subgroup := None;
  kw_SubgpId := None; kw_SubgpCohomology := None; kw_SylowSubgroup := None;
  kw_SylowSubgpCohomology := None; kw_OneStep := false; kw_props := [];
|}.

Definition toy_state (files : list string) (interrupt : bool) : state := {|
  world := {| tw_files := files; tw_interrupt := interrupt; tw_trace := [] |};
  coho_options := {[ "use_web" := OBool true ]};
  cache := [];
  create_local_sources := false;
  local_sources := None;
  workspace := "/ws";
  remote_sources := ["http://cohomology.uni-jena.de/db/"];
  log := [];
|}.

(** The symmetric group of degree 6, by its definition, and the ring of a
    subgroup of order 16. *)
Definition Sym6_key : pyval := PTuple [PStr "Group([(1,2,3,4,5,6),(1,2)])"].

Definition D16_ring : Ring :=
  ToyRing (PTuple [PTuple [PInt 16; PInt 11]; PStr "/ws/16gp11/dat/State"]) 16 16 false None.

(** Keywords that give an intermediate subgroup. *)
Definition toy_kwds_subgroup (U : Z) : kwds := {|
  kw_root := false; kw_options := OptsNone; kw_from_scratch := false;
  kw_websource := WsFalse; kw_minimal_generators := false; kw_GroupId := None;
  kw_GroupDefinition := None; kw_prime := Some 2; kw_GStem := None;
  kw_GroupName := None; kw_GroupDescr := None; kw_Subgroup := Some (cyclic U);
  kw_SubgpId := None; kw_SubgpCohomology := None; kw_SylowSubgroup := None;
  kw_SylowSubgpCohomology := None; kw_OneStep := false; kw_props := [];
|}.

(** Keywords that ask for a computation from scratch. *)
Definition toy_kwds_from_scratch : kwds := {|
  kw_root := false; kw_options := OptsNone; kw_from_scratch := true;
  kw_websource := WsNone; kw_minimal_generators := false; kw_GroupId := None;
  kw_GroupDefinition := None; kw_prime := None; kw_GStem := None;
  kw_GroupName := None; kw_GroupDescr := None; kw_Subgroup := None;
  kw_SubgpId := None; kw_SubgpCohomology := None; kw_SylowSubgroup := None;
  kw_SylowSubgpCohomology := None; kw_OneStep := false; kw_props := [];
|}.

End ToyEngine.

(** ** Mirrored trees *)

(** No prefix of the path is a symbolic link. *)
Definition plain (f : fs) (p : path) : Prop :=
  forall n, (n < List.length p)%nat -> is_link (f (take (S n) p)) = false.


(** The state agrees with the first one outside the target. *)
Definition agree (T : path) (f0 f : fs) : Prop :=
  forall q, (forall u, q <> T ++ u) -> f q = f0 q.

(** The entry of the target that mirrors the entry [v] of the source. *)
Definition mirror_of (P : path) (f0 : fs) (v : path) : option node :=
  match f0 (P ++ v) with
  | Some Dir => Some Dir
  | Some File => Some (Link (P ++ v))
  | _ => None
  end.

(** A target that already holds a chain of links. *)
Definition chain_names : list string := ["db"; "ws"; "x"; "y"].

Definition chain_fs : fs := fun p =>
  if bool_decide (p = []) then Some Dir else
  if bool_decide (p = ["db"]) then Some Dir else
  if bool_decide (p = ["db"; "x"]) then Some File else
  if bool_decide (p = ["db"; "y"]) then Some File else
  if bool_decide (p = ["ws"]) then Some Dir else
  if bool_decide (p = ["ws"; "x"]) then Some (Link ["ws"; "y"]) else
  if bool_decide (p = ["ws"; "y"]) then Some (Link ["db"; "x"]) else None.

(** A source tree with a file, a directory and a file in it; no target yet. *)
Definition demo_names : list string := ["x"; "sub"; "y"].

Definition demo_fs : fs := fun p =>
  if bool_decide (p = []) then Some Dir else
  if bool_decide (p = ["db"]) then Some Dir else
  if bool_decide (p = ["db"; "x"]) then Some File else
  if bool_decide (p = ["db"; "sub"]) then Some Dir else
  if bool_decide (p = ["db"; "sub"; "y"]) then Some File else None.

Definition all_readable : path -> bool := fun _ => true.

(** Neither path is an initial part of the other: [p] is not the target
    [T], does not lie below it and is no directory above it. *)
Definition apart (T p : path) : Prop := forall u v, p ++ u <> T ++ v.

(** No symbolic link of the file system points to the target, into it or to
    a directory above it. *)
Definition links_apart (T : path) (f : fs) : Prop :=
  forall p t, f p = Some (Link t) -> apart T t.

Section Mirrored.
Variable names : list string.
Variable readable : path -> bool.
Variable link_limit : nat.
Variable f0 : fs.

(** The target directory [t] of the state [f] mirrors the source directory
    [q] of [f0], down to [n] levels: [t] is a directory, [q] is a readable
    directory, and for every entry [d] of [q], with [qd] the real path of
    that entry, [t/d] either is a symbolic link that resolves to [qd], or
    [qd] is a directory and [t/d] mirrors it. *)
Fixpoint mirrored (n : nat) (f : fs) (q t : path) : Prop :=
  match n with
  | O => False
  | S n' =>
      f t = Some Dir /\
      access_R readable link_limit f0 q && isdir link_limit f0 q = true /\
      forall d, In d (children names f0 q) ->
        (exists t', f (t ++ [d]) = Some (Link t') /\
                    resolve (link_limit - 1) f0 [] t' = realpath link_limit f0 (q ++ [d])) \/
        (isdir link_limit f0 (realpath link_limit f0 (q ++ [d])) = true /\
         mirrored n' f (realpath link_limit f0 (q ++ [d])) (t ++ [d]))
  end.

(** The entry [d] of the target [t] mirrors the entry [d] of the source
    [q]. *)
Definition entry_mirrored (n : nat) (f : fs) (q t : path) (d : string) : Prop :=
  (exists t', f (t ++ [d]) = Some (Link t') /\
              resolve (link_limit - 1) f0 [] t' = realpath link_limit f0 (q ++ [d])) \/
  (isdir link_limit f0 (realpath link_limit f0 (q ++ [d])) = true /\
   mirrored n f (realpath link_limit f0 (q ++ [d])) (t ++ [d])).

(** What a run [self] of depth [n] that returns has done, started below the
    target [T] in a state that agrees with [f0] outside of it: it wrote below
    its own target only, made no link that points to [T], and left its
    target a mirror of its source. *)
Definition mirrors (T : path) (self : path -> path -> fs -> result fs) (n : nat) : Prop :=
  forall (q t : path) (f f' : fs),
    agree T f0 f -> links_apart T f ->
    apart T q -> plain f0 q ->
    (exists s, t = T ++ s) -> plain f t ->
    (f t = Some Dir \/ forall h c, split_last t = Some (h, c) -> f h = Some Dir) ->
    self q t f = Ok f' ->
    (forall p, (forall u, p <> t ++ u) -> f' p = f p) /\
    links_apart T f' /\
    mirrored n f' q t.

End Mirrored.

Definition all_writable : path -> bool := fun _ => true.

(** A source with a symbolic link in it, and a target that already holds a
    regular file, a directory, an entry of its own and a stale link. *)
Definition busy_names : list string := ["x"; "sub"; "y"; "l"; "old"].

Definition busy_fs : fs := fun p =>
  if bool_decide (p = []) then Some Dir else
  if bool_decide (p = ["db"]) then Some Dir else
  if bool_decide (p = ["db"; "x"]) then Some File else
  if bool_decide (p = ["db"; "sub"]) then Some Dir else
  if bool_decide (p = ["db"; "sub"; "y"]) then Some File else
  if bool_decide (p = ["db"; "l"]) then Some (Link ["db"; "x"]) else
  if bool_decide (p = ["ws"]) then Some Dir else
  if bool_decide (p = ["ws"; "x"]) then Some File else
  if bool_decide (p = ["ws"; "sub"]) then Some Dir else
  if bool_decide (p = ["ws"; "old"]) then Some File else
  if bool_decide (p = ["ws"; "l"]) then Some (Link ["db"; "sub"]) else None.

(** What the mirror makes of [busy_fs]. *)
Definition busy_mirror : fs :=
  upd (upd (upd (upd (upd busy_fs ["ws"; "x"] None) ["ws"; "x"] (Some (Link ["db"; "x"])))
                 ["ws"; "sub"; "y"] (Some (Link ["db"; "sub"; "y"])))
            ["ws"; "l"] None)
       ["ws"; "l"] (Some (Link ["db"; "x"])).

(** ** Predicates on strings *)

(** Every character of the string passes the test. *)
Fixpoint string_all (ok : ascii -> bool) (s : string) : bool :=
  match s with
  | EmptyString => true
  | String c s' => ok c && string_all ok s'
  end.

(** Letters, digits and the underscore. *)
Definition is_word_char (c : ascii) : bool := is_alnum c || Ascii.eqb c "_".

(** Neither a blank nor a line feed. *)
Definition not_blank (c : ascii) : bool := negb (Ascii.eqb c "010" || Ascii.eqb c " ").

(** ** Folders and repositories *)

(** [try: m finally: fin]. *)
Definition try_finally {S A : Type} (m : SM S A) (fin : SM S unit) : SM S A := fun s =>
  let '(s1, r) := m s in
  let '(s2, r') := fin s1 in
  (s2, match r' with Raise e => Raise e | Ok _ => r end).

(** The argument of [set_local_sources]: a path, something false, or
    anything else that is true (the default location). *)
Inductive folder_arg : Type :=
| FolderDefault
| FolderOff
| FolderStr (folder : string).

(** The argument of [set_workspace]: [None], a path, or not a string. *)
Inductive workspace_arg : Type :=
| WorkspaceDefault
| WorkspacePath (s : string)
| WorkspaceOther.

(** The argument of [set_remote_sources]: [None], a tuple of URLs, or not
    a tuple. *)
Inductive urls_arg : Type :=
| UrlsDefault
| UrlsTuple (URLs : list string)
| UrlsOther.

(** What the methods ask of [os] and of Sage: the folders of the
    installation, a fresh temporary directory, the defaults of the global
    options ([auxiliaries.default_options]) and the restart of Singular and
    of GAP's random seed (lines 404-406). *)
Class FolderEnv `{RingEngine} : Type := {
  os_realpath : string -> World -> string;
  os_exists : string -> World -> bool;
  os_isdir : string -> World -> bool;
  os_access_W : string -> World -> bool;
  os_makedirs : string -> World -> World * result unit;
  tmp_dir : World -> World * result string;
  SAGE_SHARE : string;
  DOT_SAGE : string;
  default_options : gmap string optval;
  reset_sessions : World -> World * result unit;
}.

Section StateSetters.
Context `{RingEngine}.

Definition set_create_local_sources (b : bool) (s : state) : state :=
  {| world := world s; coho_options := coho_options s; cache := cache s;
     create_local_sources := b; local_sources := local_sources s;
     workspace := workspace s; remote_sources := remote_sources s; log := log s |}.

Definition set_local_sources_attr (o : option string) (s : state) : state :=
  {| world := world s; coho_options := coho_options s; cache := cache s;
     create_local_sources := create_local_sources s; local_sources := o;
     workspace := workspace s; remote_sources := remote_sources s; log := log s |}.

Definition set_workspace_attr (w : string) (s : state) : state :=
  {| world := world s; coho_options := coho_options s; cache := cache s;
     create_local_sources := create_local_sources s; local_sources := local_sources s;
     workspace := w; remote_sources := remote_sources s; log := log s |}.

Definition set_remote_sources_attr (l : list string) (s : state) : state :=
  {| world := world s; coho_options := coho_options s; cache := cache s;
     create_local_sources := create_local_sources s; local_sources := local_sources s;
     workspace := workspace s; remote_sources := l; log := log s |}.

End StateSetters.

Section Folders.
Context `{FolderEnv}.

(** [get_local_sources] (line 541) and [get_workspace] (line 559). *)
Definition get_local_sources : M (option string) := gets local_sources.
Definition get_workspace : M string := gets workspace.

(** [set_local_sources] (lines 617-641). *)
Definition set_local_sources (folder : folder_arg) : M unit :=
  match folder with
  | FolderOff | FolderStr "" => modify (set_create_local_sources false)
  | _ =>
      _ ← modify (set_create_local_sources true);
      folder ← gets (fun s =>
                 os_realpath (match folder with
                              | FolderStr t => t
                              | _ => path_join SAGE_SHARE "pGroupCohomology"
                              end) (world s));
      folder_exists ← gets (fun s => os_exists folder (world s));
      _ ← (if (folder_exists : bool) then
             folder_isdir ← gets (fun s => os_isdir folder (world s));
             if (folder_isdir : bool) then
               writeable ← gets (fun s => os_access_W folder (world s));
               if negb (writeable : bool) then
                 _ ← logger "warning" ("WARNING: '" +:+ folder +:+ "' is not writeable");
                 modify (set_create_local_sources false)
               else mret tt
             else raise (OSError ("'" +:+ folder +:+ "' is no folder"))
           else outside (os_makedirs folder));
      modify (set_local_sources_attr (Some folder))
  end.

(** [set_workspace] (lines 2071-2083). *)
Definition set_workspace (a : workspace_arg) : M unit :=
  match a with
  | WorkspaceOther => raise (TypeError "String (pathname) expected")
  | _ =>
      s ← match a with
          | WorkspacePath t => mret t
          | _ => gets (fun st =>
                   os_realpath (path_join (path_join DOT_SAGE "pGroupCohomology") "db")
                     (world st))
          end;
      s_exists ← gets (fun st => os_exists s (world st));
      _ ← (if (s_exists : bool) then
             s_isdir ← gets (fun st => os_isdir s (world st));
             if negb (s_isdir : bool)
             then raise (OSError ("There is a file " +:+ s +:+ " that we won't overwrite"))
             else
               writeable ← gets (fun st => os_access_W s (world st));
               if negb (writeable : bool)
               then raise (OSError ("The folder " +:+ s +:+ " is not writeable"))
               else mret tt
           else outside (os_makedirs s));
      modify (set_workspace_attr s)
  end.

(** [set_remote_sources] (lines 2164-2169). *)
Definition set_remote_sources (URLs : urls_arg) : M unit :=
  match URLs with
  | UrlsDefault => modify (set_remote_sources_attr ["http://cohomology.uni-jena.de/db/"])
  | UrlsTuple l => modify (set_remote_sources_attr l)
  | UrlsOther => raise (TypeError "Tuple expected")
  end.

(** [from_workspace] (lines 2113-2124). *)
Definition from_workspace (args : descriptor) (k : kwds) : M Ring :=
  create ← gets create_local_sources;
  old_local_sources ← gets local_sources;
  _ ← modify (set_local_sources_attr None);
  old_remote_sources ← gets remote_sources;
  _ ← modify (set_remote_sources_attr []);
  _ ← set_local_sources FolderOff;
  try_finally (call args k)
    (_ ← modify (set_create_local_sources create);
     _ ← modify (set_local_sources_attr old_local_sources);
     modify (set_remote_sources_attr old_remote_sources)).

(** [from_local_sources] (lines 683-689); [get_local_sources()] is a path
    or [None]. *)
Definition from_local_sources (args : descriptor) (k : kwds) : M Ring :=
  create ← gets create_local_sources;
  _ ← (if negb create then
         folder ← get_local_sources;
         set_local_sources (match folder with
                            | Some t => FolderStr t
                            | None => FolderOff
                            end)
       else mret tt);
  try_finally (call args k) (modify (set_create_local_sources create)).

(** [reset] (lines 393-406).  The level and the format of the logger are
    not part of the state: the log keeps every record with its level. *)
Definition reset : M unit :=
  _ ← modify (set_cache []);
  _ ← set_local_sources FolderDefault;
  _ ← set_local_sources FolderOff;
  _ ← set_workspace WorkspaceDefault;
  _ ← set_remote_sources UrlsDefault;
  _ ← modify (set_options default_options);
  outside reset_sessions.

(** [doctest_setup] (lines 426-429). *)
Definition doctest_setup : M unit :=
  _ ← reset;
  _ ← set_remote_sources (UrlsTuple []);
  d ← outside tmp_dir;
  set_workspace (WorkspacePath d).

End Folders.

(** A toy installation: a path exists when it is among the files of the
    toy world, it is a folder when it ends in a slash, and it is writeable
    unless it lies below [/readonly]. *)
Definition toy_exists (p : string) (w : toy_world) : bool := bool_decide (p ∈ tw_files w).

Definition toy_isdir (p : string) (w : toy_world) : bool :=
  bool_decide (p ∈ tw_files w) && ends_with_slash p.

Definition toy_access_W (p : string) (w : toy_world) : bool :=
  negb (String.prefix "/readonly" p).

Definition toy_makedirs (p : string) (w : toy_world) : toy_world * result unit :=
  ({| tw_files := p :: tw_files w; tw_interrupt := tw_interrupt w;
      tw_trace := tw_trace w ++ ["makedirs " +:+ p] |}, Ok tt).

Definition toy_folders : @FolderEnv toy_backend toy_engine :=
  @Build_FolderEnv toy_backend toy_engine
    (fun p _ => p) toy_exists toy_isdir toy_access_W toy_makedirs
    (fun w => (w, Ok "/tmp/doctest/"))
    "/sage/share" "/home/.sage"
    {[ "use_web" := OBool true ]}
    (fun w => (toy_note "reset" w, Ok tt)).

(** A workspace that is a symbolic link to the database. *)
Definition linked_fs : fs := fun p =>
  if bool_decide (p = []) then Some Dir else
  if bool_decide (p = ["db"]) then Some Dir else
  if bool_decide (p = ["ws"]) then Some (Link ["db"]) else None.

(** The source tree of [demo_fs] with a regular file where the target is
    to be. *)
Definition occupied_fs : fs := fun p =>
  if bool_decide (p = ["ws"]) then Some File else demo_fs p.

(** * Properties *)

(** ** Equality of keys *)

Lemma pyval_eqb_spec (a b : pyval) : pyval_eqb a b = true <-> a = b.
Proof.
  revert b. induction a as [x|s|l IH] using pyval_ind_nested; intros [y|t|m]; simpl;
    try (split; [discriminate | intros E; discriminate E]).
  - rewrite Z.eqb_eq. split; congruence.
  - rewrite String.eqb_eq. split; congruence.
  - revert m. induction IH as [|x l Hx _ IHl]; intros [|y m]; simpl;
      try (split; [discriminate | intros E; discriminate E]).
    + split; reflexivity.
    + rewrite andb_true_iff, Hx, IHl. split.
      * intros [-> E]. injection E as ->. reflexivity.
      * intros E. injection E as -> ->. split; reflexivity.
Qed.

Lemma pyval_eqb_refl (a : pyval) : pyval_eqb a a = true.
Proof. apply pyval_eqb_spec. reflexivity. Qed.


Section KeyEquivalenceFacts.
Context `{GroupBackend}.

(** On a key of three components the comparator does what its last lines
    say: the leading classification, and below it the classification of
    the last components. *)
Lemma IsKeyEquivalent_triple_equal_lead (a b c b' c' : pyval) :
  IsKeyEquivalent (PTuple [a; b; c]) (PTuple [a; b'; c'])
  = (r ← IsKeyEquivalent c c'; Ok (Z.min 2 r)).
Proof.
  cbn [IsKeyEquivalent]. unfold IsKeyEquivalent_body. simpl.
  rewrite pyval_eqb_refl. simpl. reflexivity.
Qed.

(** A key of four components with equal leading components is classified
    as equal, whatever the embedded keys are. *)
Lemma IsKeyEquivalent_composite_equal_lead (KEY HP1 HP2 : pyval)
    (GStem1 GStem2 : string) (pr1 pr2 : Z) :
  IsKeyEquivalent (non_p_group_cache_key KEY GStem1 HP1 pr1)
                  (non_p_group_cache_key KEY GStem2 HP2 pr2) = Ok 2.
Proof.
  unfold non_p_group_cache_key. cbn [IsKeyEquivalent].
  unfold IsKeyEquivalent_body. simpl. rewrite pyval_eqb_refl. reflexivity.
Qed.

(** Keys of different lengths are different. *)
Lemma IsKeyEquivalent_length_mismatch (l1 l2 : list pyval) :
  List.length l1 <> List.length l2 ->
  IsKeyEquivalent (PTuple l1) (PTuple l2) = Ok 0.
Proof.
  intros Hne. cbn [IsKeyEquivalent]. unfold IsKeyEquivalent_body.
  cbn [py_len mbind result_bind].
  destruct (Z.eqb_spec (Z.of_nat (List.length l1)) (Z.of_nat (List.length l2))) as [E|E].
  - apply Nat2Z.inj in E. contradiction.
  - reflexivity.
Qed.

(** C1 (code): the composite keys of line 1986 have four components, the
    comparator descends only into keys of three.  Two composite keys of the
    same group whose embedded subgroup keys are DIFFERENT (one is the key
    of the Sylow subgroup's ring, the other the key of the ring of an
    intermediate subgroup) are classified as EQUAL. *)
Theorem IsKeyEquivalent_composite_ignores_subgroup_key :
  let sylow := p_group_cache_key (PTuple [PInt 16; PInt 11]) "/ws/16gp11/dat/State" in
  let normalizer := non_p_group_cache_key (PTuple [PInt 48; PInt 30]) "48gp30" sylow 2 in
  let k1 := non_p_group_cache_key (PTuple [PInt 720; PInt 763]) "720gp763" sylow 2 in
  let k2 := non_p_group_cache_key (PTuple [PInt 720; PInt 763]) "720gp763" normalizer 2 in
  IsKeyEquivalent sylow normalizer = Ok 0 /\ IsKeyEquivalent k1 k2 = Ok 2.
Proof.
  intros sylow normalizer k1 k2. split.
  - apply IsKeyEquivalent_length_mismatch. simpl. lia.
  - apply IsKeyEquivalent_composite_equal_lead.
Qed.

End KeyEquivalenceFacts.

(** ** The trivial group *)

Section TrivialGroup.
Context `{RingEngine}.

Lemma check_arguments_trivial (g : Group) (mg : bool) (GroupId : option (Z * Z)) :
  Order g = 1 ->
  (forall G, canonicalIsomorphism g G = true -> Order G = Order g) ->
  (forall a b G, SmallGroup a b = Ok G -> Order G = a) ->
  (forall a b e, SmallGroup a b = Raise e -> exists m, e = ValueError m) ->
  exists msg, check_arguments (ExplicitGroup g) mg GroupId = Raise (ValueError msg).
Proof.
  intros Hone Hiso Hsmall Hgap. unfold check_arguments.
  destruct GroupId as [[a b]|]; cbn [mbind result_bind].
  - destruct (SmallGroup a b) as [G|e] eqn:EG; cbn [mbind result_bind].
    + destruct (canonicalIsomorphism g G) eqn:Ec; cbn [negb mbind result_bind].
      * assert (a = 1) as -> by (rewrite <- (Hsmall _ _ _ EG), (Hiso _ Ec); exact Hone).
        simpl. eauto.
      * eauto.
    + destruct (Hgap _ _ _ EG) as [m ->]. eauto.
  - rewrite Hone. simpl. eauto.
Qed.

(** C10: a group of order 1 given as a group in GAP is turned down by the
    admissibility check with a [ValueError]; the call ends there and returns
    no ring: the cache is as before, and apart from log records the call has
    left no event, so that nothing has been loaded, saved, linked, fetched
    or constructed.  The group backend is taken to be sound: a canonical
    isomorphism preserves the order, [SmallGroup(q, n)] has order [q], and
    GAP reports its errors as [ValueError]. *)
Theorem call_trivial_group_rejected (g : Group) (k : kwds) (s : state) :
  Order g = 1 ->
  (forall G, canonicalIsomorphism g G = true -> Order G = Order g) ->
  (forall a b G, SmallGroup a b = Ok G -> Order G = a) ->
  (forall a b e, SmallGroup a b = Raise e -> exists m, e = ValueError m) ->
  (exists msg, check_arguments (ExplicitGroup g) (kw_minimal_generators k) (kw_GroupId k)
               = Raise (ValueError msg)) /\
  (exists msg s', call (ExplicitGroup g) k s = (s', Raise (ValueError msg)) /\
                  cache s' = cache s /\ only_records_added (log s) (log s')).
Proof.
  intros Hone Hiso Hsmall Hgap.
  destruct (check_arguments_trivial g (kw_minimal_generators k) (kw_GroupId k)
              Hone Hiso Hsmall Hgap) as [msg Hmsg].
  split; [eauto|].
  unfold call. destruct (kw_root k).
  - eexists _, s. split; [reflexivity|]. split; [reflexivity|]. intros e He. left. exact He.
  - unfold call_main. rewrite Hmsg.
    destruct (kw_options k), (kw_from_scratch k); cbn;
      eexists _, _; (split; [reflexivity|]); cbn;
      (split; [reflexivity|]); intros e He; left; exact He.
Qed.

End TrivialGroup.

Lemma call_trivial_group_rejected_witness :
  (exists msg, @check_arguments toy_backend (ExplicitGroup (cyclic 1)) false None
               = Raise (ValueError msg)) /\
  (exists msg s', @call toy_backend toy_engine (ExplicitGroup (cyclic 1)) toy_kwds (toy_state [] false)
                  = (s', Raise (ValueError msg)) /\
                  cache s' = cache (toy_state [] false) /\
                  only_records_added (log (toy_state [] false)) (log s')).
Proof.
  apply (@call_trivial_group_rejected toy_backend toy_engine (cyclic 1) toy_kwds (toy_state [] false)).
  - reflexivity.
  - intros G E. apply Z.eqb_eq in E. symmetry. exact E.
  - intros a b G E. injection E as <-. reflexivity.
  - intros a b e E. simpl in E. discriminate.
Defined.

(** ** White space in group definitions *)

Lemma string_app_cons (c : ascii) (x y : string) :
  String c x +:+ y = String c (x +:+ y).
Proof. reflexivity. Qed.

Lemma string_app_nil_l (y : string) : "" +:+ y = y.
Proof. reflexivity. Qed.

Lemma string_app_nil_r (x : string) : x +:+ "" = x.
Proof.
  induction x as [|c x IH]; [reflexivity|].
  rewrite string_app_cons, IH. reflexivity.
Qed.

Lemma string_app_assoc (x y z : string) : (x +:+ y) +:+ z = x +:+ (y +:+ z).
Proof.
  induction x as [|c x IH]; [reflexivity|].
  rewrite !string_app_cons, IH. reflexivity.
Qed.

Lemma string_concat_empty_cons (x : string) (xs : list string) :
  String.concat "" (x :: xs) = x +:+ String.concat "" xs.
Proof.
  destruct xs as [|y ys]; cbn [String.concat].
  - rewrite string_app_nil_r. reflexivity.
  - rewrite string_app_nil_l. reflexivity.
Qed.

Lemma lstrip_space_free (s : string) : space_free s = true -> lstrip s = s.
Proof.
  destruct s as [|c s]; simpl; [reflexivity|].
  unfold not_space. destruct (is_space c); simpl; [discriminate | reflexivity].
Qed.

Lemma rstrip_space_free (s : string) : space_free s = true -> rstrip s = s.
Proof.
  induction s as [|c s IH]; simpl; [reflexivity|].
  intros E. apply andb_true_iff in E as [Ec Es]. rewrite (IH Es).
  unfold not_space in Ec. destruct s; [|reflexivity].
  destruct (is_space c); [discriminate | reflexivity].
Qed.

Lemma py_strip_space_free (s : string) : space_free s = true -> py_strip s = s.
Proof.
  intros E. unfold py_strip. rewrite (lstrip_space_free _ E). apply rstrip_space_free, E.
Qed.

Lemma space_free_snoc (w : string) (c : ascii) :
  space_free w = true -> is_space c = false ->
  space_free (w +:+ String c EmptyString) = true.
Proof.
  intros Hw Hc. induction w as [|a w IH].
  - rewrite string_app_nil_l. simpl. unfold not_space. rewrite Hc. reflexivity.
  - rewrite string_app_cons. simpl in *.
    apply andb_true_iff in Hw as [Ha Hw]. rewrite Ha, (IH Hw). reflexivity.
Qed.

Lemma py_split_from_concat (s w : string) :
  space_free w = true ->
  String.concat "" (List.map py_strip (py_split_from w s)) = w +:+ string_filter not_space s.
Proof.
  revert w. induction s as [|c s IH]; intros w Hw; cbn [py_split_from string_filter].
  - destruct (String.eqb_spec w "") as [->|_]; cbn [List.map String.concat].
    + reflexivity.
    + rewrite py_strip_space_free by exact Hw. rewrite string_app_nil_r. reflexivity.
  - unfold not_space at 1. destruct (is_space c) eqn:Ec; cbn [negb].
    + destruct (String.eqb_spec w "") as [->|_].
      * apply (IH "" eq_refl).
      * cbn [List.map]. rewrite string_concat_empty_cons, (IH "" eq_refl).
        rewrite py_strip_space_free by exact Hw. rewrite string_app_nil_l. reflexivity.
    + rewrite (IH _ (space_free_snoc _ _ Hw Ec)), string_app_assoc.
      rewrite string_app_cons, string_app_nil_l. reflexivity.
Qed.

(** [''.join([t.strip() for t in s.split()])] removes exactly the white
    space of [s]. *)
Lemma strip_blanks_filter (s : string) : strip_blanks s = string_filter not_space s.
Proof. unfold strip_blanks, py_split. apply (py_split_from_concat s "" eq_refl). Qed.

(** ** Running computations *)

Ltac run_result := unfold mbind, mret, result_bind, result_ret; cbv beta iota.

Ltac run :=
  unfold mbind, mret, SM_bind, SM_ret, result_bind, result_ret,
    lift, raise, gets, modify; cbv beta iota.

Section StateFacts.
Context `{RingEngine}.

Lemma world_set_options o s : world (set_options o s) = world s.
Proof. reflexivity. Qed.
Lemma world_set_cache c s : world (set_cache c s) = world s.
Proof. reflexivity. Qed.
Lemma world_add_log e s : world (add_log e s) = world s.
Proof. reflexivity. Qed.
Lemma world_set_world w s : world (set_world w s) = w.
Proof. reflexivity. Qed.
Lemma cache_set_options o s : cache (set_options o s) = cache s.
Proof. reflexivity. Qed.
Lemma cache_set_world w s : cache (set_world w s) = cache s.
Proof. reflexivity. Qed.
Lemma cache_add_log e s : cache (add_log e s) = cache s.
Proof. reflexivity. Qed.
Lemma cache_set_cache c s : cache (set_cache c s) = c.
Proof. reflexivity. Qed.
Lemma options_set_options o s : coho_options (set_options o s) = o.
Proof. reflexivity. Qed.
Lemma options_set_world w s : coho_options (set_world w s) = coho_options s.
Proof. reflexivity. Qed.
Lemma options_set_cache c s : coho_options (set_cache c s) = coho_options s.
Proof. reflexivity. Qed.
Lemma options_add_log e s : coho_options (add_log e s) = coho_options s.
Proof. reflexivity. Qed.
Lemma log_set_options o s : log (set_options o s) = log s.
Proof. reflexivity. Qed.
Lemma log_set_world w s : log (set_world w s) = log s.
Proof. reflexivity. Qed.
Lemma log_set_cache c s : log (set_cache c s) = log s.
Proof. reflexivity. Qed.
Lemma log_add_log e s : log (add_log e s) = log s ++ [e].
Proof. reflexivity. Qed.
Lemma local_sources_set_options o s : local_sources (set_options o s) = local_sources s.
Proof. reflexivity. Qed.
Lemma local_sources_add_log e s : local_sources (add_log e s) = local_sources s.
Proof. reflexivity. Qed.
Lemma remote_sources_set_options o s : remote_sources (set_options o s) = remote_sources s.
Proof. reflexivity. Qed.

End StateFacts.

Ltac state_simpl :=
  rewrite ?world_set_options, ?world_set_cache, ?world_add_log, ?world_set_world,
    ?cache_set_options, ?cache_set_world, ?cache_add_log, ?cache_set_cache,
    ?options_set_options, ?options_set_world, ?options_set_cache, ?options_add_log,
    ?log_set_options, ?log_set_world, ?log_set_cache, ?log_add_log,
    ?local_sources_set_options, ?local_sources_add_log, ?remote_sources_set_options.

(** ** The key of a newly assembled ring *)

Lemma py_getitem_head (x : pyval) (l : list pyval) : py_getitem (PTuple (x :: l)) 0 = Ok x.
Proof.
  unfold py_getitem. cbn [List.length]. rewrite Nat2Z.inj_succ.
  change (0 <? 0) with false. cbv iota.
  destruct (Z.ltb_spec 0 (Z.succ (Z.of_nat (List.length l)))) as [_|Hle]; [reflexivity | lia].
Qed.

Section AssembledKey.
Context `{RingEngine}.

Lemma normalise_definition_wf (OUT : Ring) (s : state) :
  wf_cache_key (ring_key OUT) ->
  normalise_definition OUT s
  = if has_definition (ring_key OUT)
    then (set_cache (cache_setprop (ring_key OUT)
                       (setprop_key (strip_key (ring_key OUT)) OUT) (cache s)) s,
          Ok (setprop_key (strip_key (ring_key OUT)) OUT))
    else (s, Ok OUT).
Proof.
  intros (lead & rest & Hkey & [[d ->] | (q & n & ->)]); unfold normalise_definition;
    rewrite Hkey; run; rewrite py_getitem_head; cbn [py_len List.length].
  - change (Z.of_nat 1 =? 1) with true. cbv iota.
    rewrite py_getitem_head. cbn [py_list has_definition strip_key].
    rewrite strip_blanks_filter. reflexivity.
  - change (Z.of_nat 2 =? 1) with false. reflexivity.
Qed.

Lemma strip_key_without_definition (key : pyval) :
  has_definition key = false -> strip_key key = key.
Proof.
  destruct key as [z|t|[|[z|t|[|[z|t|l] [|y l']]] rest]]; try reflexivity. discriminate.
Qed.

(** C4: the Ring Engine has assembled the ring [OUT] for a group that is not
    of prime power order, the composite cache key was not in the cache, and
    the key stored in [OUT] differs from it.  If the stored key differs from
    the cache key even with the white space of its group definition removed,
    [assemble] raises [RuntimeError("Cache keys are corrupted")]: nothing is
    saved, and the state is the one [MODCOHO] has left, except that the ring
    in the cache has got the key without white space when its key starts with
    a group definition.  If the stored key without that white space is the
    cache key, the ring gets this key, the record "Trying to update data on
    disk" is logged and the ring is saved with [safe_save]; should that fail,
    its exception leaves [assemble], otherwise the ring is returned. *)
Theorem assemble_key_mismatch (KEY : pyval) (GStem : string) (GroupName : option string)
    (Hfinal : Group) (pr : Z) (k : kwds) (Subgroup : Group) (HP : Ring)
    (SubgpId : option (Z * Z)) (s : state) (w : World) (OUT : Ring) :
  let CacheKey := non_p_group_cache_key KEY GStem (ring_key HP) pr in
  cache_lookup CacheKey (cache s) = None ->
  new_MODCOHO Hfinal pr HP Subgroup GroupName GStem (kw_GroupDescr k) SubgpId KEY (world s)
  = (w, Ok OUT) ->
  wf_cache_key (ring_key OUT) ->
  ring_key OUT <> CacheKey ->
  let OUT' := setprop_key (strip_key (ring_key OUT)) OUT in
  let s0 := set_cache (cache_insert (ring_key OUT) OUT (cache s))
              (set_world w (add_log (EvConstruct ("MODCOHO " +:+ GStem)) s)) in
  let s1 := if has_definition (ring_key OUT)
            then set_cache (cache_setprop (ring_key OUT) OUT' (cache s0)) s0
            else s0 in
  (strip_key (ring_key OUT) <> CacheKey ->
   assemble KEY GStem GroupName Hfinal pr k Subgroup HP SubgpId s
   = (s1, Raise (RuntimeError "Cache keys are corrupted")))
  /\
  (strip_key (ring_key OUT) = CacheKey ->
   ring_key OUT' = CacheKey /\
   cache_lookup (ring_key OUT) (cache s1) = Some OUT' /\
   let s2 := add_log (EvSave (autosave_name OUT'))
               (add_log (LogMsg "info" "Trying to update data on disk") s1) in
   let saved := safe_save OUT' (autosave_name OUT') w in
   match saved.2 with
   | Raise e =>
       assemble KEY GStem GroupName Hfinal pr k Subgroup HP SubgpId s
       = (set_world saved.1 s2, Raise e)
   | Ok _ =>
       exists s3,
         assemble KEY GStem GroupName Hfinal pr k Subgroup HP SubgpId s = (s3, Ok OUT') /\
         cache s3 = cache s1 /\
         exists l, log s3 = log s2 ++ l
   end).
Proof.
  intros CacheKey Hmiss Hnew Hwf Hne OUT' s0 s1.
  assert (pyval_eqb (ring_key OUT) CacheKey = false) as Hneb.
  { destruct (pyval_eqb (ring_key OUT) CacheKey) eqn:E; [|reflexivity].
    apply pyval_eqb_spec in E. contradiction. }
  assert (ring_key OUT' = strip_key (ring_key OUT)) as Hkey'
    by apply ring_key_setprop_key.
  assert (assemble KEY GStem GroupName Hfinal pr k Subgroup HP SubgpId s
          = (OUT1 ← verify_assembled_key CacheKey OUT;
             _ ← try_except
                   (if knownDeg OUT1 =? 0
                    then _ ← emit (EvSave (autosave_name OUT1));
                         outside (safe_save OUT1 (autosave_name OUT1))
                    else mret tt)
                   isinstance_BaseException
                   (fun _ => logger "error" "Unable to save basic ring setup");
             mret OUT1) s0) as ->.
  { unfold assemble. fold CacheKey. run. rewrite Hmiss.
    unfold emit, outside. run. state_simpl. rewrite Hnew. reflexivity. }
  assert (normalise_definition OUT s0
          = (s1, Ok (if has_definition (ring_key OUT) then OUT' else OUT))) as Hnorm.
  { rewrite (normalise_definition_wf OUT s0 Hwf). subst s1 OUT'.
    destruct (has_definition (ring_key OUT)); reflexivity. }
  split.
  - intros Hstrip.
    unfold verify_assembled_key. rewrite Hneb. run. rewrite Hnorm.
    assert (pyval_eqb (ring_key (if has_definition (ring_key OUT) then OUT' else OUT)) CacheKey
            = false) as ->; [|reflexivity].
    destruct (has_definition (ring_key OUT)); [|exact Hneb].
    rewrite Hkey'. destruct (pyval_eqb (strip_key (ring_key OUT)) CacheKey) eqn:E; [|reflexivity].
    apply pyval_eqb_spec in E. contradiction.
  - intros Hstrip.
    assert (has_definition (ring_key OUT) = true) as Hdef.
    { destruct (has_definition (ring_key OUT)) eqn:E; [reflexivity|].
      rewrite (strip_key_without_definition _ E) in Hstrip. contradiction. }
    rewrite Hdef in Hnorm.
    split; [congruence|]. split.
    { subst s1 s0. rewrite Hdef. state_simpl. unfold cache_insert. cbn [cache_setprop List.map fst snd].
      rewrite pyval_eqb_refl. cbn [cache_lookup fst]. rewrite pyval_eqb_refl. reflexivity. }
    cbv zeta.
    unfold verify_assembled_key. rewrite Hneb. run. rewrite Hnorm.
    rewrite Hkey', Hstrip, pyval_eqb_refl. cbn [negb].
    unfold update_on_disk, logger, emit, outside. run. state_simpl.
    assert (world s1 = w) as -> by (subst s1 s0; rewrite Hdef; reflexivity).
    destruct (safe_save OUT' (autosave_name OUT') w) as [w2 [[]|e]] eqn:Esave; cbn [fst snd].
    + unfold try_except. run.
      destruct (knownDeg OUT' =? 0).
      * state_simpl.
        destruct (safe_save OUT' (autosave_name OUT') w2) as [w3 [[]|e]]; run.
        -- eexists. split; [reflexivity|]. split; [reflexivity|].
           exists [EvSave (autosave_name OUT')]. reflexivity.
        -- cbn [isinstance_BaseException]. unfold logger, emit. run.
           eexists. split; [reflexivity|]. split; [reflexivity|].
           exists [EvSave (autosave_name OUT'); LogMsg "error" "Unable to save basic ring setup"].
           repeat (rewrite log_add_log || rewrite log_set_world).
           rewrite <- !app_assoc. reflexivity.
      * eexists. split; [reflexivity|]. split; [reflexivity|].
        exists []. rewrite app_nil_r. reflexivity.
    + reflexivity.
Qed.

End AssembledKey.

Lemma assemble_key_mismatch_witness :
  exists s3,
    @assemble toy_backend toy_engine Sym6_key "Sym6" None (cyclic 720) 2 toy_kwds (cyclic 16)
      D16_ring None (toy_state [] false)
    = (s3, Ok (toy_set_key (non_p_group_cache_key Sym6_key "Sym6" (toy_key D16_ring) 2)
                 (ToyRing (non_p_group_cache_key (as_printed Sym6_key) "Sym6"
                             (toy_key D16_ring) 2) 720 16 true (Some D16_ring)))) /\
    In (EvSave "autosave") (log s3).
Proof.
  pose proof (@assemble_key_mismatch toy_backend toy_engine
                Sym6_key "Sym6" None (cyclic 720) 2 toy_kwds (cyclic 16) D16_ring None
                (toy_state [] false)
                (toy_note "MODCOHO 720 over 16" (world (toy_state [] false)))
                (ToyRing (non_p_group_cache_key (as_printed Sym6_key) "Sym6"
                            (toy_key D16_ring) 2) 720 16 true (Some D16_ring))) as Hthm.
  cbv zeta in Hthm.
  destruct Hthm as [_ Hsave].
  - reflexivity.
  - vm_compute. reflexivity.
  - eexists _, _. split; [reflexivity|]. left. eexists. reflexivity.
  - discriminate.
  - destruct (Hsave eq_refl) as (_ & _ & s3 & Hrun & _ & l & Hlog).
    exists s3. split; [exact Hrun|].
    rewrite Hlog. apply in_or_app. left. apply in_or_app. right. left. reflexivity.
Defined.


(** ** A computation from scratch over data on disk *)

Section FromScratch.
Context `{RingEngine}.

(** C5: [from_scratch] is asked for, the ring is not in the cache, and its
    file in the workspace can be read.  Both resolvers end in a
    [RuntimeError] whose message ends in the path to remove; nothing is
    loaded, linked, fetched or saved, and the cache is as before. *)
Theorem from_scratch_refuses_existing_data (GStem : string) (KEY : pyval) (pr : Z)
    (websource : websource_arg) (props : list (string * pyval))
    (s : state) (root_workspace : string) :
  get_root_workspace s = (s, Ok root_workspace) ->
  (cache_lookup (p_group_cache_key KEY (state_file root_workspace GStem)) (cache s) = None ->
   os_access_R (path_join root_workspace (path_join GStem ("H" +:+ GStem +:+ ".sobj"))) (world s) = true ->
   exists s',
     get_p_group_from_cache_or_db GStem KEY true websource props s
     = (s', Raise (RuntimeError ("You requested a computation from scratch. Please remove "
                                   +:+ path_join root_workspace GStem))) /\
     world s' = world s /\ cache s' = cache s /\
     forall e, e ∈ log s' -> e ∈ log s \/ exists level msg, e = LogMsg level msg)
  /\
  (os_access_R (path_join root_workspace ("H" +:+ GStem +:+ "mod" +:+ pretty pr +:+ ".sobj")) (world s) = true ->
   get_non_p_group_from_db GStem pr true websource s
   = (s, Raise (RuntimeError ("You requested a computation from scratch. Please remove "
                                +:+ path_join root_workspace
                                      ("H" +:+ GStem +:+ "mod" +:+ pretty pr +:+ ".sobj"))))).
Proof.
  intros Hroot. split.
  - intros Hmiss Hfile. unfold get_p_group_from_cache_or_db. run.
    rewrite Hroot. unfold set_option, access_R_ok, logger, emit. run.
    state_simpl. rewrite Hmiss. cbv beta iota. state_simpl.
    rewrite Hfile.
    destruct (nonempty (local_sources s)); cbv beta iota;
      eexists; (split; [reflexivity|]); state_simpl;
      (split; [reflexivity|]); (split; [reflexivity|]);
      intros e He; apply elem_of_app in He as [He|He]; auto;
      apply list_elem_of_singleton in He; eauto.
  - intros Hfile. unfold get_non_p_group_from_db. run. rewrite Hroot.
    unfold access_R_ok. run. rewrite Hfile.
    destruct (nonempty (local_sources s)); reflexivity.
Qed.

End FromScratch.

Lemma from_scratch_refuses_existing_data_witness :
  let s := toy_state ["/ws/8gp3/H8gp3.sobj"; "/ws/H8gp3mod2.sobj"] false in
  @get_root_workspace toy_backend toy_engine s = (s, Ok "/ws") /\
  (@get_p_group_from_cache_or_db toy_backend toy_engine
     "8gp3" (PTuple [PInt 8; PInt 3]) true WsNone [] s).2
  = Raise (RuntimeError "You requested a computation from scratch. Please remove /ws/8gp3") /\
  (@get_non_p_group_from_db toy_backend toy_engine "8gp3" 2 true WsNone s).2
  = Raise (RuntimeError "You requested a computation from scratch. Please remove /ws/H8gp3mod2.sobj").
Proof.
  intros s. split; [reflexivity|].
  destruct (@from_scratch_refuses_existing_data toy_backend toy_engine
              "8gp3" (PTuple [PInt 8; PInt 3]) 2 WsNone [] s "/ws" eq_refl) as [Hp Hn].
  destruct (Hp eq_refl eq_refl) as (s' & E & _).
  split.
  - rewrite E. reflexivity.
  - rewrite (Hn eq_refl). reflexivity.
Defined.

(** ** A given subgroup that misses the Sylow subgroup *)

Section GivenSubgroup.
Context `{RingEngine}.

(** C6: no ring of the group is stored, a subgroup [U] is given and the
    prime divides its index.  Then [__call__] raises a [ValueError] right
    after the look-up: the state is the one the look-up left, so no
    subgroup and no ring has been computed.  The rings given along with the
    subgroup are taken to pass their own check (lines 1826-1830), which
    comes first. *)
Theorem given_subgroup_index_rejected (KEY : pyval) (q pr : Z) (Hfinal U : Group)
    (GStem : string) (GroupName : option string) (k : kwds) (s s1 : state) :
  get_non_p_group_from_db GStem pr (kw_from_scratch k) (kw_websource k) s = (s1, Ok None) ->
  (forall R, given_HSyl k = Some R -> is_MODCOHO R = false) ->
  kw_Subgroup k = Some U ->
  divides pr (Index Hfinal U) = true ->
  exists msg,
    call_non_p_group KEY q Hfinal pr GStem GroupName k s = (s1, Raise (ValueError msg)) /\
    (msg = "The given subgroup is in fact not a subgroup" \/
     msg = "The given subgroup must contain a Sylow " +:+ pretty pr +:+ "-subgroup").
Proof.
  intros Hdb Hrings HU Hdiv. unfold call_non_p_group. run. rewrite Hdb.
  unfold check_given_subgroups.
  assert (match given_HSyl k with
          | Some R =>
              if is_MODCOHO R
              then Raise (TypeError "The given cohomology of a Sylow subgroup does in fact not belong to a prime power group")
              else Ok tt
          | None => Ok tt
          end = Ok tt) as ->.
  { destruct (given_HSyl k) as [R|] eqn:E; [|reflexivity]. rewrite (Hrings R eq_refl). reflexivity. }
  rewrite HU. run.
  destruct (IsSubgroup Hfinal U); cbn [negb].
  - rewrite Hdiv. eauto.
  - eauto.
Qed.

End GivenSubgroup.

Lemma given_subgroup_index_rejected_witness :
  let s := toy_state [] false in
  divides 2 (@Index toy_backend (cyclic 24) (cyclic 4)) = true /\
  exists msg,
    @call_non_p_group toy_backend toy_engine (PTuple [PInt 24; PInt 1]) 24 (cyclic 24) 2
      "24gp1" None (toy_kwds_subgroup 4) s
    = (s, Raise (ValueError msg)) /\
    (msg = "The given subgroup is in fact not a subgroup" \/
     msg = "The given subgroup must contain a Sylow " +:+ pretty 2 +:+ "-subgroup").
Proof.
  intros s. split; [reflexivity|].
  apply (@given_subgroup_index_rejected toy_backend toy_engine
           (PTuple [PInt 24; PInt 1]) 24 2 (cyclic 24) (cyclic 4) "24gp1" None
           (toy_kwds_subgroup 4) s s eq_refl).
  - intros R HR. discriminate HR.
  - reflexivity.
  - reflexivity.
Defined.

(** ** A user interrupt during the download *)

Section Interrupt.
Context `{RingEngine}.

Lemma web_tier_interrupted (GStem : string) (websource : websource_arg) (s s2 : state) :
  from_remote_sources GStem (websource_url websource) s = (s2, Raise KeyboardInterrupt) ->
  web_tier GStem websource s
  = (add_log (LogMsg "warning" "Access to websource was interrupted.") s2, Ok None).
Proof.
  intros Hfetch. unfold web_tier, try_except. rewrite Hfetch. cbn.
  unfold logger, emit. run. reflexivity.
Qed.

(** C2, as the code has it: the ring is in none of the first three tiers
    and the download ends in [KeyboardInterrupt].  The resolver catches the
    interrupt (line 1244), logs a warning and returns [None]; [__call__]
    then goes on to build the ring from scratch. *)
Theorem keyboard_interrupt_is_a_miss (GStem : string) (KEY : pyval) (q : Z)
    (GroupName : option string) (k : kwds) (s s2 : state) (root_workspace : string) :
  let file_name := path_join GStem ("H" +:+ GStem +:+ ".sobj") in
  let CacheKey := p_group_cache_key KEY (state_file root_workspace GStem) in
  let s3 := add_log (LogMsg "warning" "Access to websource was interrupted.") s2 in
  get_root_workspace s = (s, Ok root_workspace) ->
  cache_lookup CacheKey (cache s) = None ->
  os_access_R (path_join root_workspace file_name) (world s) = false ->
  (forall r, nonempty (local_sources s) = Some r ->
             os_access_R (path_join r file_name) (world s) = false) ->
  kw_from_scratch k = false ->
  websource_allowed (kw_websource k) = true ->
  from_remote_sources GStem (websource_url (kw_websource k)) s = (s2, Raise KeyboardInterrupt) ->
  get_p_group_from_cache_or_db GStem KEY false (kw_websource k) (kw_props k) s = (s3, Ok None)
  /\
  (128 <= q ->
   call_p_group KEY q GStem GroupName k s
   = (R ← get_p_group_from_scratch KEY q GStem GroupName false (kw_websource k) (kw_props k);
      check_compatibility CacheKey R) s3).
Proof.
  intros file_name CacheKey s3 Hroot Hmiss Hws Hls Hfs Hallowed Hfetch.
  assert (get_p_group_from_cache_or_db GStem KEY false (kw_websource k) (kw_props k) s
          = (s3, Ok None)) as Hres.
  { unfold get_p_group_from_cache_or_db. run. rewrite Hroot. run.
    fold CacheKey. rewrite Hmiss. unfold access_R_ok. run.
    fold file_name. rewrite Hws.
    destruct (nonempty (local_sources s)) as [r|] eqn:Els.
    - rewrite (Hls r eq_refl). cbn [andb negb]. rewrite Hallowed. cbn [andb].
      rewrite (web_tier_interrupted _ _ _ _ Hfetch). reflexivity.
    - cbn [andb negb]. rewrite Hallowed. cbn [andb].
      rewrite (web_tier_interrupted _ _ _ _ Hfetch). reflexivity. }
  split; [exact Hres|].
  intros Hq. unfold call_p_group. run. rewrite Hroot. run.
  destruct (Z.ltb_spec q 128) as [Hlt|_]; [lia|].
  rewrite Hfs, Hres. reflexivity.
Qed.

End Interrupt.

(** C2, as the claim has it, fails: the user interrupts the download of
    the ring of a group of order 128, and the resolver returns [None]
    instead of raising; the factory then returns a ring built from
    scratch. *)
Lemma keyboard_interrupt_does_not_propagate :
  let s := toy_state [] true in
  (@fetch_archive toy_backend toy_engine
     "http://cohomology.uni-jena.de/db/128gp1.tar.gz" "/ws" (world s)).2
  = Raise KeyboardInterrupt /\
  (@get_p_group_from_cache_or_db toy_backend toy_engine
     "128gp1" (PTuple [PInt 128; PInt 1]) false WsNone [] s).2 = Ok None /\
  (@get_p_group_from_cache_or_db toy_backend toy_engine
     "128gp1" (PTuple [PInt 128; PInt 1]) false WsNone [] s).2 <> Raise KeyboardInterrupt /\
  is_ok (@call toy_backend toy_engine (ExplicitGroup (cyclic 128)) toy_kwds s).2 = true.
Proof. vm_compute. repeat split; discriminate. Qed.

Lemma keyboard_interrupt_is_a_miss_witness :
  let s := toy_state [] true in
  exists s3,
    @get_p_group_from_cache_or_db toy_backend toy_engine
      "128gp1" (PTuple [PInt 128; PInt 1]) false WsNone [] s = (s3, Ok None) /\
    LogMsg "warning" "Access to websource was interrupted." ∈ log s3.
Proof.
  intros s.
  destruct (@from_remote_sources toy_backend toy_engine "128gp1" None s) as [s2 r] eqn:Hfetch.
  assert (r = Raise KeyboardInterrupt) as ->.
  { apply (f_equal snd) in Hfetch. vm_compute in Hfetch. symmetry. exact Hfetch. }
  destruct (@keyboard_interrupt_is_a_miss toy_backend toy_engine
              "128gp1" (PTuple [PInt 128; PInt 1]) 128 None toy_kwds s s2 "/ws"
              eq_refl eq_refl eq_refl) as [Hres _].
  - intros r Hr. discriminate Hr.
  - reflexivity.
  - reflexivity.
  - exact Hfetch.
  - eexists. split; [exact Hres|].
    rewrite log_add_log. apply elem_of_app. right. apply list_elem_of_singleton. reflexivity.
Defined.

(** ** Towers of more than two groups *)

Section Tower.
Context {backend : GroupBackend} {engine : RingEngine}.

(** Once the loop condition holds it holds for ever: the loop cannot end
    normally. *)
Lemma tower_loop_never_returns (args : list Group) (i : nat) (p : Z) (k : kwds)
    (names : list (option string)) (GroupDescrs : pyseq) (G0 : Group) (H0 : Ring)
    (s : state) :
  in_range i 1 (List.length args - 1) = true ->
  exists s' e, tower_loop args i p k names GroupDescrs G0 H0 s = (s', Raise e).
Proof.
  intros Hin. revert GroupDescrs G0 H0 s.
  induction names as [|name names IH]; intros GroupDescrs G0 H0 s;
    cbn [tower_loop]; rewrite Hin; cbn [negb].
  - destruct (nth_error args i); unfold raise; eauto.
  - destruct (nth_error args i) as [G1|]; [|unfold raise; eauto].
    run. destruct (pop0 GroupDescrs) as [[descr GroupDescrs']|e]; [|eauto].
    destruct (call (ExplicitGroup G1) (step_kwds H0 G0 p name descr k) s)
      as [s1 [H1|e]]; [|eauto].
    unfold outside.
    destruct (ring_make H1 (world s1)) as [w2 [H2|e]]; [|eauto].
    state_simpl.
    destruct (verify_consistency_of_dimensions H2 w2) as [w3 [[]|e]]; [|eauto].
    apply IH.
Qed.

(** A tower of three or more groups never yields a ring. *)
Lemma from_subgroup_tower_long_chain_fails (args : list Group)
    (GroupName GroupDescr : names_arg) (k : kwds) (s : state) :
  (3 <= List.length args)%nat ->
  exists s' e, from_subgroup_tower args GroupName GroupDescr k s = (s', Raise e).
Proof.
  intros Hlen. unfold from_subgroup_tower.
  destruct args as [|G0 [|G1 [|G2 rest]]]; try (simpl in Hlen; lia).
  set (args := G0 :: G1 :: G2 :: rest) in *.
  destruct (is_prime_power (Order G0)); cbn [negb]; [|unfold raise; eauto].
  run.
  destruct (tower_names _ _ GroupName) as [GroupNames|e]; [|eauto].
  destruct (tower_descrs _ _ GroupDescr) as [GroupDescrs|e]; [|eauto].
  destruct (check_nested args) as [[]|e]; [|eauto].
  destruct (negb (divides (Order G0) (Order (List.last args G0)))); [eauto|].
  destruct (_ =? 0); [eauto|].
  destruct (pop_names GroupNames GroupDescrs) as [[[[name descr] GroupNames'] GroupDescrs']|e];
    [|eauto].
  destruct (call (ExplicitGroup G0) (with_names name descr k) s) as [s1 [H0'|e]]; [|eauto].
  unfold outside.
  destruct (ring_make H0' (world s1)) as [w2 [H2|e]]; [|eauto].
  state_simpl.
  destruct (verify_consistency_of_dimensions H2 w2) as [w3 [[]|e]]; [|eauto].
  assert (in_range (List.length args - 2) 1 (List.length args - 1) = true) as Hin.
  { unfold in_range, args. cbn [List.length].
    apply andb_true_iff. split; [apply Nat.leb_le | apply Nat.ltb_lt]; lia. }
  destruct GroupNames' as [names|names].
  - destruct (tower_loop_never_returns args _ (smallest_prime_factor (Order G0)) k
                names GroupDescrs' G0 H2 (set_world w3 (set_world w2 s1)) Hin)
      as (s' & e & ->). eauto.
  - rewrite Hin. eauto.
Qed.

End Tower.

(** C3 (code): a tower of three groups of orders 8, 24 and 120.  After the
    ring of the first group, the loop builds the ring of the second group
    over the first, then, [i] being unchanged, the ring of the second group
    over itself, and ends in [IndexError] when [GroupNames] is used up.  No
    ring of the last group is made. *)
Theorem from_subgroup_tower_three_groups_fails :
  let r := @from_subgroup_tower toy_backend toy_engine
             [cyclic 8; cyclic 24; cyclic 120] (NamesStr "G") NamesNone toy_kwds
             (toy_state [] false) in
  r.2 = Raise (IndexError "pop from empty list") /\
  tw_trace (world r.1)
  = ["COHO 8gp1"; "save autosave"; "MODCOHO 24 over 8"; "save autosave";
     "MODCOHO 24 over 24"; "save autosave"].
Proof. vm_compute. split; reflexivity. Qed.

(** With two groups the loop is not entered and the one step is made. *)
Lemma from_subgroup_tower_two_groups :
  let r := @from_subgroup_tower toy_backend toy_engine
             [cyclic 8; cyclic 120] (NamesStr "G") NamesNone toy_kwds
             (toy_state [] false) in
  is_ok r.2 = true /\
  tw_trace (world r.1)
  = ["COHO 8gp1"; "save autosave"; "MODCOHO 120 over 8"; "save autosave"].
Proof. vm_compute. split; reflexivity. Qed.

(** ** What a call leaves unchanged *)

Section Preservation.
Context {backend : GroupBackend} {engine : RingEngine}.
Variable I : state -> Prop.
Hypothesis HI : stable I.

Lemma preserves_ret {A} (a : A) : preserves I (mret a).
Proof. intros s Hs. exact Hs. Qed.

Lemma preserves_raise {A} (e : exn) : preserves I (@raise state A e).
Proof. intros s Hs. exact Hs. Qed.

Lemma preserves_lift {A} (r : result A) : preserves I (lift r).
Proof. intros s Hs. exact Hs. Qed.

Lemma preserves_gets {A} (g : state -> A) : preserves I (gets g).
Proof. intros s Hs. exact Hs. Qed.

Lemma preserves_bind {A B} (m : M A) (k : A -> M B) :
  preserves I m -> (forall a, preserves I (k a)) -> preserves I (m ≫= k).
Proof.
  intros Hm Hk s Hs. specialize (Hm s Hs). unfold mbind, SM_bind.
  destruct (m s) as [s' [a|e]]; [apply Hk|]; exact Hm.
Qed.

Lemma preserves_try_except {A} (m : M A) (handled : exn -> bool) (h : exn -> M A) :
  preserves I m -> (forall e, preserves I (h e)) -> preserves I (try_except m handled h).
Proof.
  intros Hm Hh s Hs. specialize (Hm s Hs). unfold try_except.
  destruct (m s) as [s' [a|e]]; [exact Hm|].
  destruct (handled e); [apply Hh|]; exact Hm.
Qed.

Lemma preserves_outside {A} (op : World -> World * result A) : preserves I (outside op).
Proof.
  intros s Hs. unfold outside. destruct (op (world s)) as [w r].
  apply (stable_world I HI), Hs.
Qed.

Lemma preserves_emit (e : event) : is_fetch e = false -> preserves I (emit e).
Proof. intros He s Hs. apply (stable_log I HI); assumption. Qed.

Lemma preserves_logger (level msg : string) : preserves I (logger level msg).
Proof. apply preserves_emit. reflexivity. Qed.

Lemma preserves_set_option (k : string) (v : optval) :
  k <> "use_web" -> preserves I (set_option k v).
Proof. intros Hk s Hs. apply (stable_insert I HI); assumption. Qed.

Lemma preserves_del_option (k : string) : k <> "use_web" -> preserves I (del_option k).
Proof. intros Hk s Hs. apply (stable_delete I HI); assumption. Qed.

Lemma preserves_web_off : preserves I (set_option "use_web" (OBool false)).
Proof. intros s Hs. apply (stable_web_off I HI), Hs. Qed.

Lemma preserves_set_cache (g : list (pyval * Ring) -> list (pyval * Ring)) :
  preserves I (modify (fun s => set_cache (g (cache s)) s)).
Proof. intros s Hs. apply (stable_cache I HI), Hs. Qed.

Lemma preserves_access (file : string) : preserves I (access_R_ok file).
Proof. intros s Hs. exact Hs. Qed.

Lemma preserves_root_workspace : preserves I get_root_workspace.
Proof.
  intros s Hs. unfold get_root_workspace.
  destruct (create_local_sources s); [destruct (local_sources s)|]; exact Hs.
Qed.

End Preservation.

Create HintDb preserves.
#[global] Hint Resolve preserves_ret preserves_raise preserves_lift preserves_gets
  preserves_outside preserves_logger preserves_web_off preserves_set_cache
  preserves_access preserves_root_workspace : preserves.

(** One step of a proof that a computation preserves an invariant. *)
Ltac preserve_step :=
  first
    [ solve [eauto with preserves]
    | apply preserves_emit; [assumption | reflexivity]
    | apply preserves_set_option; [assumption | discriminate]
    | apply preserves_del_option; [assumption | discriminate]
    | apply preserves_bind; [ | intros ? ]
    | apply preserves_try_except; [ | intros ? ]
    | match goal with
      | |- preserves _ (match ?x with _ => _ end) => destruct x
      | |- preserves _ (if ?b then _ else _) => destruct b
      | |- preserves _ (let _ := _ in _) => cbv zeta
      end ].

Ltac preserve := repeat preserve_step.

Section PreservationOfTheFactory.
Context {backend : GroupBackend} {engine : RingEngine}.
Variable I : state -> Prop.
Hypothesis HI : stable I.

Lemma preserves_load_with_root (root file : string) (failure : string -> exn) :
  preserves I (load_with_root root file failure).
Proof. unfold load_with_root. preserve. Qed.

Lemma preserves_finish_p_group (KEY : pyval) (props : list (string * pyval))
    (OUT : option Ring) : preserves I (finish_p_group KEY props OUT).
Proof. unfold finish_p_group. preserve. Qed.

Lemma preserves_get_p_group_from_scratch (KEY : pyval) (q : Z) (GStem : string)
    (GroupName : option string) (from_scratch : bool) (websource : websource_arg)
    (props : list (string * pyval)) :
  preserves I (get_p_group_from_scratch KEY q GStem GroupName from_scratch websource props).
Proof. unfold get_p_group_from_scratch. preserve. Qed.

Lemma preserves_check_compatibility (CacheKey : pyval) (R : Ring) :
  preserves I (check_compatibility CacheKey R).
Proof. unfold check_compatibility. preserve. Qed.

(** The gate of line 2244: with [use_web] off, [from_remote_sources]
    returns [None] at once. *)
Lemma from_remote_sources_off (GStem : string) (websource : option string) (s : state) :
  web_off s -> from_remote_sources GStem websource s = (s, Ok None).
Proof.
  intros Hoff. unfold from_remote_sources. run. unfold web_off in Hoff.
  rewrite Hoff. reflexivity.
Qed.

Lemma web_tier_off (GStem : string) (websource : websource_arg) (s : state) :
  web_off s -> web_tier GStem websource s = (s, Ok None).
Proof.
  intros Hoff. unfold web_tier, try_except.
  rewrite (from_remote_sources_off _ _ _ Hoff). reflexivity.
Qed.

Lemma preserves_web_tier (GStem : string) (websource : websource_arg) :
  (forall s, I s -> web_off s) -> preserves I (web_tier GStem websource).
Proof. intros Hoff s Hs. rewrite (web_tier_off _ _ _ (Hoff s Hs)). exact Hs. Qed.

Lemma preserves_from_remote_sources (GStem : string) (websource : option string) :
  (forall s, I s -> web_off s) -> preserves I (from_remote_sources GStem websource).
Proof. intros Hoff s Hs. rewrite (from_remote_sources_off _ _ _ (Hoff s Hs)). exact Hs. Qed.

(** The resolvers keep [I] when the remote tier is closed to them: by
    [websource=False], or because [I] has [use_web] off. *)
Lemma preserves_get_p_group_from_cache_or_db (GStem : string) (KEY : pyval)
    (from_scratch : bool) (websource : websource_arg) (props : list (string * pyval)) :
  websource_allowed websource = false \/ (forall s, I s -> web_off s) ->
  preserves I (get_p_group_from_cache_or_db GStem KEY from_scratch websource props).
Proof.
  intros Hweb. unfold get_p_group_from_cache_or_db.
  destruct (websource_allowed websource) eqn:Eallowed.
  - destruct Hweb as [Hweb|Hoff]; [discriminate|].
    pose proof (preserves_web_tier GStem websource Hoff).
    pose proof preserves_finish_p_group. pose proof preserves_load_with_root.
    preserve.
  - pose proof preserves_finish_p_group. pose proof preserves_load_with_root.
    cbn [andb]. preserve.
Qed.

Lemma preserves_get_non_p_group_from_db (GStem : string) (pr : Z)
    (from_scratch : bool) (websource : websource_arg) :
  websource_allowed websource = false \/ (forall s, I s -> web_off s) ->
  preserves I (get_non_p_group_from_db GStem pr from_scratch websource).
Proof.
  intros Hweb. unfold get_non_p_group_from_db.
  destruct (websource_allowed websource) eqn:Eallowed.
  - destruct Hweb as [Hweb|Hoff]; [discriminate|].
    pose proof (preserves_from_remote_sources GStem (websource_url websource) Hoff).
    pose proof preserves_load_with_root.
    preserve.
  - pose proof preserves_load_with_root. cbn [andb]. preserve.
Qed.

Lemma preserves_verify_assembled_key (CacheKey : pyval) (OUT : Ring) :
  preserves I (verify_assembled_key CacheKey OUT).
Proof. unfold verify_assembled_key, update_on_disk. preserve. Qed.

Lemma preserves_assemble (KEY : pyval) (GStem : string) (GroupName : option string)
    (Hfinal : Group) (pr : Z) (k : kwds) (Subgroup : Group) (HP : Ring)
    (SubgpId : option (Z * Z)) :
  preserves I (assemble KEY GStem GroupName Hfinal pr k Subgroup HP SubgpId).
Proof. unfold assemble. pose proof preserves_verify_assembled_key. preserve. Qed.

Lemma preserves_call_p_group (KEY : pyval) (q : Z) (GStem : string)
    (GroupName : option string) (k : kwds) :
  q < 128 \/ (forall s, I s -> web_off s) ->
  preserves I (call_p_group KEY q GStem GroupName k).
Proof.
  intros Hweb. unfold call_p_group.
  pose proof preserves_get_p_group_from_scratch. pose proof preserves_check_compatibility.
  assert (preserves I (get_p_group_from_cache_or_db GStem KEY (kw_from_scratch k)
                         (if q <? 128 then WsFalse else kw_websource k) (kw_props k))).
  { apply preserves_get_p_group_from_cache_or_db.
    destruct Hweb as [Hq|Hoff]; [left|right; exact Hoff].
    destruct (Z.ltb_spec q 128); [reflexivity | lia]. }
  preserve.
Qed.

Lemma preserves_call_non_p_group (KEY : pyval) (q : Z) (Hfinal : Group) (pr : Z)
    (GStem : string) (GroupName : option string) (k : kwds) :
  (forall s, I s -> web_off s) ->
  preserves I (call_non_p_group KEY q Hfinal pr GStem GroupName k).
Proof.
  intros Hoff. unfold call_non_p_group.
  pose proof preserves_assemble.
  assert (preserves I (get_non_p_group_from_db GStem pr (kw_from_scratch k) (kw_websource k)))
    by (apply preserves_get_non_p_group_from_db; right; exact Hoff).
  preserve.
Qed.

Lemma preserves_call_main (args : descriptor) (k : kwds) :
  (forall s, I s -> web_off s) -> preserves I (call_main args k).
Proof.
  intros Hoff. unfold call_main.
  assert (forall KEY q GStem GroupName, preserves I (call_p_group KEY q GStem GroupName k))
    by (intros; apply preserves_call_p_group; right; exact Hoff).
  assert (forall KEY q Hfinal pr GStem GroupName,
             preserves I (call_non_p_group KEY q Hfinal pr GStem GroupName k))
    by (intros; apply preserves_call_non_p_group; exact Hoff).
  preserve.
Qed.

End PreservationOfTheFactory.

(** ** The remote tier *)

Section RemoteTier.
Context {backend : GroupBackend} {engine : RingEngine}.

Lemma fetches_snoc (l : list event) (e : event) :
  is_fetch e = false -> fetches (l ++ [e]) = fetches l.
Proof.
  intros He. unfold fetches. rewrite List.filter_app. cbn [List.filter].
  rewrite He. apply app_nil_r.
Qed.

Lemma stable_same_fetches (L : list event) : stable (same_fetches L).
Proof.
  split; unfold same_fetches; intros; state_simpl; try assumption.
  rewrite fetches_snoc; assumption.
Qed.

Lemma stable_web_switched_off : stable web_switched_off.
Proof.
  split; unfold web_switched_off; intros; state_simpl; try assumption.
  - rewrite lookup_insert_ne; [assumption | congruence].
  - rewrite lookup_delete_ne; [assumption | congruence].
  - apply lookup_insert_eq.
Qed.

Lemma stable_and (I J : state -> Prop) :
  stable I -> stable J -> stable (fun s => I s /\ J s).
Proof.
  intros HI HJ. split; cbv beta; intros;
    match goal with Hc : _ /\ _ |- _ => destruct Hc end; split;
    first [ apply (stable_world _ HI) | apply (stable_world _ HJ)
          | apply (stable_cache _ HI) | apply (stable_cache _ HJ)
          | apply (stable_log _ HI) | apply (stable_log _ HJ)
          | apply (stable_web_off _ HI) | apply (stable_web_off _ HJ)
          | apply (stable_insert _ HI) | apply (stable_insert _ HJ)
          | apply (stable_delete _ HI) | apply (stable_delete _ HJ) ];
    assumption.
Qed.

Lemma web_switched_off_web_off (s : state) : web_switched_off s -> web_off s.
Proof. unfold web_switched_off, web_off. intros ->. reflexivity. Qed.

Lemma preserves_lift_bind {A B} (I : state -> Prop) (r : result A) (k : A -> M B) :
  (forall a, r = Ok a -> preserves I (k a)) -> preserves I (lift r ≫= k).
Proof.
  intros Hk s Hs. unfold mbind, SM_bind, lift.
  destruct r as [a|e]; [apply (Hk a eq_refl)|]; exact Hs.
Qed.

Lemma apply_options_log (opts : options_arg) (s : state) :
  log (apply_options opts s).1 = log s.
Proof. destruct opts; reflexivity. Qed.

(** C9: for a group of prime power order below 128 the factory passes
    [websource=False] to the resolver; the call, however it ends, makes no
    download. *)
Theorem small_p_group_never_fetched (args : descriptor) (k : kwds) (s : state)
    (q : Z) (Hfinal : Group) :
  check_arguments args (kw_minimal_generators k) (kw_GroupId k) = Ok (q, Hfinal) ->
  is_prime_power q = true ->
  q < 128 ->
  fetches (log (call args k s).1) = fetches (log s).
Proof.
  intros Hcheck Hpp Hq.
  assert (preserves (same_fetches (fetches (log s))) (call_main args k)) as Hmain.
  { pose proof (stable_same_fetches (fetches (log s))) as HI.
    unfold call_main. rewrite Hcheck.
    apply preserves_lift_bind. intros [q' Hfinal'] [= <- <-].
    apply preserves_bind; [preserve|]. intros KEY.
    apply preserves_bind; [preserve|]. intros args'.
    unfold required_prime. rewrite Hpp.
    apply preserves_lift_bind. intros pr [= <-].
    apply preserves_bind; [preserve|]. intros GStem.
    apply preserves_call_p_group; [exact HI | left; exact Hq]. }
  unfold call. destruct (kw_root k); [reflexivity|].
  run.
  destruct (apply_options (kw_options k) s) as [s1 [[]|e]] eqn:Eopts.
  - assert (log s1 = log s) as Hlog
      by (rewrite <- (apply_options_log (kw_options k) s), Eopts; reflexivity).
    destruct (kw_from_scratch k).
    + unfold set_option. run.
      apply Hmain. unfold same_fetches. state_simpl. rewrite Hlog. reflexivity.
    + apply Hmain. unfold same_fetches. rewrite Hlog. reflexivity.
  - cbn. rewrite <- (apply_options_log (kw_options k) s), Eopts. reflexivity.
Qed.

(** C8: a call with [from_scratch=True] leaves [use_web] switched off in
    the global options, whether it returns or raises.  In the state it
    leaves, [from_remote_sources] returns [None] without a download, and a
    later call for any group that passes no [options] makes no download
    and leaves [use_web] off. *)
Theorem from_scratch_switches_web_off (args : descriptor) (k : kwds) (s : state) :
  kw_root k = false ->
  kw_from_scratch k = true ->
  let s1 := (call args k s).1 in
  coho_options s1 !! "use_web" = Some (OBool false) /\
  (forall GStem websource, from_remote_sources GStem websource s1 = (s1, Ok None)) /\
  (forall args2 k2, kw_options k2 = OptsNone ->
     let s2 := (call args2 k2 s1).1 in
     coho_options s2 !! "use_web" = Some (OBool false) /\
     fetches (log s2) = fetches (log s1)).
Proof.
  intros Hroot Hfs s1.
  assert (web_switched_off s1) as Hoff.
  { subst s1. unfold call. rewrite Hroot, Hfs. run.
    destruct (apply_options (kw_options k) s) as [s0 [[]|e]] eqn:Eopts.
    - unfold set_option. run.
      apply (preserves_call_main _ stable_web_switched_off args k web_switched_off_web_off).
      unfold web_switched_off. state_simpl. apply lookup_insert_eq.
    - destruct (kw_options k); discriminate Eopts. }
  split; [exact Hoff|]. split.
  - intros GStem websource. apply from_remote_sources_off, web_switched_off_web_off, Hoff.
  - intros args2 k2 Hopts s2.
    set (J := fun s => web_switched_off s /\ same_fetches (fetches (log s1)) s).
    assert (stable J) as HJ
      by (apply stable_and; [apply stable_web_switched_off | apply stable_same_fetches]).
    assert (forall s, J s -> web_off s) as HJoff
      by (intros s' [Hs' _]; apply web_switched_off_web_off, Hs').
    assert (J s1) as HJ1 by (split; [exact Hoff | reflexivity]).
    cut (J s2); [intros [? ?]; split; assumption|].
    subst s2. unfold call. destruct (kw_root k2); [exact HJ1|].
    rewrite Hopts. run. cbn [apply_options]. run.
    destruct (kw_from_scratch k2).
    + unfold set_option. run.
      apply (preserves_call_main _ HJ args2 k2 HJoff).
      apply (stable_web_off _ HJ), HJ1.
    + apply (preserves_call_main _ HJ args2 k2 HJoff), HJ1.
Qed.

End RemoteTier.

Lemma small_p_group_never_fetched_witness :
  let s := toy_state [] false in
  is_prime_power 8 = true /\ 8 < 128 /\
  fetches (log (@call toy_backend toy_engine (ExplicitGroup (cyclic 8)) toy_kwds s).1)
  = fetches (log s).
Proof.
  intros s. split; [reflexivity|]. split; [lia|].
  apply (@small_p_group_never_fetched toy_backend toy_engine
           (ExplicitGroup (cyclic 8)) toy_kwds s 8 (cyclic 8)).
  - reflexivity.
  - reflexivity.
  - lia.
Defined.

Lemma from_scratch_switches_web_off_witness :
  let s := toy_state [] false in
  let s1 := (@call toy_backend toy_engine (ExplicitGroup (cyclic 8)) toy_kwds_from_scratch s).1 in
  coho_options s !! "use_web" = Some (OBool true) /\
  coho_options s1 !! "use_web" = Some (OBool false) /\
  (forall GStem websource,
     @from_remote_sources toy_backend toy_engine GStem websource s1 = (s1, Ok None)) /\
  (forall args2 k2, kw_options k2 = OptsNone ->
     let s2 := (@call toy_backend toy_engine args2 k2 s1).1 in
     coho_options s2 !! "use_web" = Some (OBool false) /\
     fetches (log s2) = fetches (log s1)).
Proof.
  intros s s1. split; [reflexivity|].
  apply (@from_scratch_switches_web_off toy_backend toy_engine
           (ExplicitGroup (cyclic 8)) toy_kwds_from_scratch s); reflexivity.
Defined.

(** ** The mirror of the public database *)

Lemma upd_eq (f : fs) (p : path) (v : option node) : upd f p v p = v.
Proof. unfold upd. rewrite decide_True; reflexivity. Qed.

Lemma upd_ne (f : fs) (p q : path) (v : option node) : q <> p -> upd f p v q = f q.
Proof. intros Hne. unfold upd. rewrite decide_False; [reflexivity | exact Hne]. Qed.

Lemma split_last_snoc (p : path) (d : string) : split_last (p ++ [d]) = Some (p, d).
Proof.
  induction p as [|c p IH]; [reflexivity|].
  cbn [app split_last]. rewrite IH. reflexivity.
Qed.

Lemma split_last_spec (p h : path) (t : string) :
  split_last p = Some (h, t) -> p = h ++ [t].
Proof.
  revert h. induction p as [|c p IH]; intros h E; [discriminate|].
  cbn [split_last] in E. destruct (split_last p) as [[h' t']|] eqn:Ep.
  - injection E as <- <-. rewrite (IH h' eq_refl). reflexivity.
  - injection E as <- <-. destruct p; [reflexivity|].
    cbn [split_last] in Ep. destruct (split_last p) as [[]|]; discriminate.
Qed.

Lemma split_last_nonempty (p : path) : p <> [] -> exists h t, split_last p = Some (h, t).
Proof.
  destruct p as [|c p]; [congruence|]. intros _. cbn [split_last].
  destruct (split_last p) as [[h t]|]; eauto.
Qed.

Lemma is_link_false_cases (o : option node) :
  is_link o = false -> o = None \/ o = Some File \/ o = Some Dir.
Proof. destruct o as [[| |t]|]; intros E; try discriminate; auto. Qed.

Lemma plain_prefix (f : fs) (p q : path) : plain f (p ++ q) -> plain f p.
Proof.
  intros Hpl n Hn. specialize (Hpl n). rewrite length_app in Hpl.
  rewrite take_app_le in Hpl by lia. apply Hpl. lia.
Qed.

Lemma plain_snoc (f : fs) (p : path) (d : string) :
  plain f p -> is_link (f (p ++ [d])) = false -> plain f (p ++ [d]).
Proof.
  intros Hpl Hd n Hn. rewrite length_app in Hn. cbn in Hn.
  destruct (decide (n < List.length p)%nat) as [Hlt|Hge].
  - rewrite take_app_le by lia. apply Hpl, Hlt.
  - rewrite take_ge by (rewrite length_app; cbn; lia). exact Hd.
Qed.

Lemma plain_last (f : fs) (p : path) : plain f p -> p <> [] -> is_link (f p) = false.
Proof.
  intros Hpl Hne. destruct p as [|c p]; [congruence|].
  specialize (Hpl (List.length p)). rewrite take_ge in Hpl by (cbn; lia).
  apply Hpl. cbn. lia.
Qed.

Lemma plain_ext (f g : fs) (p : path) :
  (forall n, (n < List.length p)%nat -> g (take (S n) p) = f (take (S n) p)) ->
  plain f p -> plain g p.
Proof. intros Heq Hpl n Hn. rewrite (Heq n Hn). apply Hpl, Hn. Qed.

Section MirrorFacts.
Variable names : list string.
Variable readable : path -> bool.
Variable link_limit : nat.

Lemma walk_plain (f : fs) (follow : path -> path -> string -> path -> path)
    (cur rest : path) :
  (forall n, (n < List.length rest)%nat -> is_link (f (cur ++ take (S n) rest)) = false) ->
  walk f follow cur rest = cur ++ rest.
Proof.
  revert cur. induction rest as [|c rest IH]; intros cur Hpl.
  - cbn [walk]. rewrite app_nil_r. reflexivity.
  - cbn [walk]. pose proof (Hpl 0%nat ltac:(cbn; lia)) as H0. cbn in H0. rewrite take_0 in H0.
    assert (walk f follow (cur ++ [c]) rest = (cur ++ [c]) ++ rest) as Hrest.
    { apply IH. intros n Hn. rewrite <- app_assoc. cbn [app].
      apply (Hpl (S n)). cbn. lia. }
    rewrite <- app_assoc in Hrest. cbn [app] in Hrest.
    destruct (f (cur ++ [c])) as [[| |t]|]; try exact Hrest.
    cbn in H0. discriminate H0.
Qed.

Lemma resolve_unfold (fuel : nat) (f : fs) (cur rest : path) :
  resolve fuel f cur rest
  = walk f (match fuel with
            | O => fun _ cur c rest' => cur ++ c :: rest'
            | S fuel' => fun t _ _ rest' => resolve fuel' f [] (t ++ rest')
            end) cur rest.
Proof. destruct fuel; reflexivity. Qed.

Lemma resolve_plain (fuel : nat) (f : fs) (p : path) : plain f p -> resolve fuel f [] p = p.
Proof. intros Hpl. rewrite resolve_unfold. apply (walk_plain f _ [] p). exact Hpl. Qed.

Lemma realpath_plain (f : fs) (p : path) : plain f p -> realpath link_limit f p = p.
Proof. apply resolve_plain. Qed.

Lemma walk_link (f : fs) (follow : path -> path -> string -> path -> path)
    (cur pre : path) (c : string) (t : path) :
  (forall n, (n < List.length pre)%nat -> is_link (f (cur ++ take (S n) pre)) = false) ->
  f (cur ++ pre ++ [c]) = Some (Link t) ->
  walk f follow cur (pre ++ [c]) = follow t (cur ++ pre) c [].
Proof.
  revert cur. induction pre as [|a pre IH]; intros cur Hpl Hlink.
  - cbn [app walk] in *. rewrite Hlink, app_nil_r. reflexivity.
  - cbn [app walk]. pose proof (Hpl 0%nat ltac:(cbn; lia)) as H0. cbn in H0. rewrite take_0 in H0.
    assert (walk f follow (cur ++ [a]) (pre ++ [c]) = follow t ((cur ++ [a]) ++ pre) c []) as Hrest.
    { apply IH.
      - intros n Hn. rewrite <- app_assoc. cbn [app]. apply (Hpl (S n)). cbn. lia.
      - rewrite <- app_assoc. exact Hlink. }
    rewrite <- app_assoc in Hrest. cbn [app] in Hrest.
    destruct (f (cur ++ [a])) as [[| |t']|]; try exact Hrest.
    cbn in H0. discriminate H0.
Qed.

Lemma realpath_link (f : fs) (p : path) (d : string) (t : path) :
  (1 <= link_limit)%nat ->
  plain f p -> f (p ++ [d]) = Some (Link t) -> plain f t ->
  realpath link_limit f (p ++ [d]) = t.
Proof.
  intros Hlimit Hpl Hlink Ht. unfold realpath. rewrite resolve_unfold.
  rewrite (walk_link f _ [] p d t Hpl Hlink).
  destruct link_limit as [|fuel]; [lia|].
  rewrite app_nil_r. apply resolve_plain, Ht.
Qed.

Lemma lpath_snoc (f : fs) (p : path) (d : string) :
  plain f p -> lpath link_limit f (p ++ [d]) = p ++ [d].
Proof. intros Hpl. unfold lpath. rewrite split_last_snoc, realpath_plain; auto. Qed.

Lemma lpath_plain (f : fs) (p : path) : plain f p -> p <> [] -> lpath link_limit f p = p.
Proof.
  intros Hpl Hne. destruct (split_last_nonempty p Hne) as (h & t & E).
  pose proof (split_last_spec _ _ _ E) as ->.
  apply lpath_snoc. exact (plain_prefix _ _ _ Hpl).
Qed.

Lemma stat_plain (f : fs) (p : path) : plain f p -> p <> [] -> stat link_limit f p = f p.
Proof.
  intros Hpl Hne. unfold stat. rewrite realpath_plain by exact Hpl.
  pose proof (plain_last f p Hpl Hne) as Hl.
  destruct (f p) as [[| |t]|]; try reflexivity. cbn in Hl. discriminate Hl.
Qed.

End MirrorFacts.

Lemma stat_plain_dir (link_limit : nat) (f : fs) (p : path) :
  plain f p -> f p = Some Dir -> stat link_limit f p = Some Dir.
Proof.
  intros Hpl Hd. unfold stat. rewrite realpath_plain by exact Hpl. rewrite Hd. reflexivity.
Qed.

Ltac path_eq := repeat rewrite <- app_assoc; cbn [app]; reflexivity.

Lemma path_not_longer (p u : path) (d : string) : p <> p ++ d :: u.
Proof.
  intros E. apply (f_equal (@List.length string)) in E.
  rewrite length_app in E. cbn in E. lia.
Qed.

Lemma path_not_longer_app (p s u : path) (d : string) : p ++ s <> p ++ s ++ d :: u.
Proof. rewrite app_assoc. apply path_not_longer. Qed.

Lemma path_take_shorter (p u : path) (d : string) (k : nat) : take k p <> p ++ d :: u.
Proof.
  intros E. apply (f_equal (@List.length string)) in E.
  rewrite length_take, length_app in E. cbn [List.length] in E. lia.
Qed.

Lemma path_other_child (p u u' : path) (d d' : string) :
  d <> d' -> p ++ d' :: u' <> p ++ d :: u.
Proof. intros Hne E. apply app_inv_head in E. congruence. Qed.

(** *** Paths apart from the target *)

Lemma apart_app (T p r : path) : apart T p -> apart T (p ++ r).
Proof. intros Hap u v. rewrite <- app_assoc. apply Hap. Qed.

Lemma apart_outside (T p : path) : apart T p -> forall u, p <> T ++ u.
Proof. intros Hap u E. apply (Hap [] u). rewrite app_nil_r. exact E. Qed.

Lemma apart_take_outside (T p : path) (k : nat) :
  apart T p -> forall u, take k p <> T ++ u.
Proof.
  intros Hap u E. apply (Hap [] (u ++ drop k p)).
  rewrite app_nil_r, app_assoc, <- E. symmetry. apply take_drop.
Qed.

Lemma apart_prefix_outside (T p r : path) : apart T (p ++ r) -> forall u, p <> T ++ u.
Proof.
  intros Hap u E. apply (Hap [] (u ++ r)). rewrite app_nil_r, app_assoc, <- E. reflexivity.
Qed.

Lemma apart_target_nonempty (T p : path) : apart T p -> T <> [].
Proof. intros Hap ->. apply (Hap [] p). rewrite app_nil_r. reflexivity. Qed.

Lemma apart_not_below (T p s : path) : apart T p -> T ++ s <> p.
Proof. intros Hap E. apply (Hap [] s). rewrite app_nil_r. symmetry. exact E. Qed.

Lemma resolve_nil (fuel : nat) (f : fs) (cur : path) : resolve fuel f cur [] = cur.
Proof. destruct fuel; reflexivity. Qed.

Lemma resolve_cons (fuel : nat) (f : fs) (cur : path) (c : string) (rest : path) :
  resolve fuel f cur (c :: rest)
  = match f (cur ++ [c]) with
    | Some (Link t) =>
        match fuel with
        | O => cur ++ c :: rest
        | S k => resolve k f [] (t ++ rest)
        end
    | _ => resolve fuel f (cur ++ [c]) rest
    end.
Proof. destruct fuel; cbn [resolve walk]; destruct (f (cur ++ [c])) as [[| |t]|]; reflexivity. Qed.

Section Stability.
Variable names : list string.
Variable readable : path -> bool.
Variable link_limit : nat.
Variables (T : path) (f0 f : fs).
Hypothesis Hlinks0 : links_apart T f0.
Hypothesis Hag : agree T f0 f.

Lemma resolve_stable (fuel : nat) : forall cur rest,
  apart T (cur ++ rest) -> resolve fuel f cur rest = resolve fuel f0 cur rest.
Proof.
  induction fuel as [|k IH]; intros cur rest; revert cur;
    induction rest as [|c rest IHr]; intros cur Hap.
  - rewrite !resolve_nil. reflexivity.
  - rewrite !resolve_cons.
    assert (f (cur ++ [c]) = f0 (cur ++ [c])) as ->.
    { apply Hag. apply (apart_prefix_outside T _ rest). rewrite <- app_assoc. exact Hap. }
    destruct (f0 (cur ++ [c])) as [[| |t]|]; try reflexivity;
      apply IHr; rewrite <- app_assoc; exact Hap.
  - rewrite !resolve_nil. reflexivity.
  - rewrite !resolve_cons.
    assert (f (cur ++ [c]) = f0 (cur ++ [c])) as ->.
    { apply Hag. apply (apart_prefix_outside T _ rest). rewrite <- app_assoc. exact Hap. }
    destruct (f0 (cur ++ [c])) as [[| |t]|] eqn:E;
      try (apply IHr; rewrite <- app_assoc; exact Hap).
    apply IH. cbn [app]. apply apart_app. exact (Hlinks0 _ _ E).
Qed.

Lemma resolve_apart (fuel : nat) : forall cur rest,
  apart T (cur ++ rest) -> apart T (resolve fuel f0 cur rest).
Proof.
  induction fuel as [|k IH]; intros cur rest; revert cur;
    induction rest as [|c rest IHr]; intros cur Hap.
  - rewrite resolve_nil. rewrite app_nil_r in Hap. exact Hap.
  - rewrite resolve_cons.
    destruct (f0 (cur ++ [c])) as [[| |t]|]; try exact Hap;
      apply IHr; rewrite <- app_assoc; exact Hap.
  - rewrite resolve_nil. rewrite app_nil_r in Hap. exact Hap.
  - rewrite resolve_cons.
    destruct (f0 (cur ++ [c])) as [[| |t]|] eqn:E;
      try (apply IHr; rewrite <- app_assoc; exact Hap).
    apply IH. cbn [app]. apply apart_app. exact (Hlinks0 _ _ E).
Qed.

Lemma realpath_stable (p : path) :
  apart T p -> realpath link_limit f p = realpath link_limit f0 p.
Proof. intros Hap. apply resolve_stable. exact Hap. Qed.

Lemma realpath_apart (p : path) : apart T p -> apart T (realpath link_limit f0 p).
Proof. intros Hap. apply resolve_apart. exact Hap. Qed.

Lemma stat_stable (p : path) : apart T p -> stat link_limit f p = stat link_limit f0 p.
Proof.
  intros Hap. unfold stat. rewrite (realpath_stable p Hap).
  rewrite (Hag (realpath link_limit f0 p)); [reflexivity|].
  apply apart_outside, realpath_apart, Hap.
Qed.

Lemma isdir_stable (p : path) : apart T p -> isdir link_limit f p = isdir link_limit f0 p.
Proof. intros Hap. unfold isdir. rewrite (stat_stable p Hap). reflexivity. Qed.

Lemma access_R_stable (p : path) :
  apart T p -> access_R readable link_limit f p = access_R readable link_limit f0 p.
Proof.
  intros Hap. unfold access_R. rewrite (stat_stable p Hap), (realpath_stable p Hap). reflexivity.
Qed.

Lemma children_stable (p : path) : apart T p -> children names f p = children names f0 p.
Proof.
  intros Hap. unfold children. apply List.filter_ext. intros d.
  rewrite (Hag (p ++ [d])); [reflexivity|]. apply apart_outside, apart_app, Hap.
Qed.

Lemma plain_stable (p : path) : apart T p -> plain f0 p -> plain f p.
Proof.
  intros Hap Hpl. apply (plain_ext f0); [|exact Hpl].
  intros n _. apply Hag. apply apart_take_outside, Hap.
Qed.

End Stability.

(** *** What the operations of [os] write *)

Lemma plain_upd (f : fs) (t p : path) (v : option node) :
  plain f t -> (is_link v = false \/ forall k, take k t <> p) -> plain (upd f p v) t.
Proof.
  intros Hpl Hv n Hn. destruct (decide (take (S n) t = p)) as [E|E].
  - rewrite E, upd_eq. destruct Hv as [Hv|Hv]; [exact Hv | exfalso; exact (Hv _ E)].
  - rewrite upd_ne by exact E. apply Hpl, Hn.
Qed.

Lemma plain_upd_child (f : fs) (t : path) (d : string) (v : option node) :
  plain f t -> plain (upd f (t ++ [d]) v) t.
Proof. intros Hpl. apply plain_upd; [exact Hpl|]. right. intros k. apply path_take_shorter. Qed.

Lemma agree_upd (T : path) (f0 f : fs) (s : path) (v : option node) :
  agree T f0 f -> agree T f0 (upd f (T ++ s) v).
Proof. intros Hag q Hq. rewrite upd_ne by apply Hq. apply Hag, Hq. Qed.

Lemma links_apart_upd (T : path) (f : fs) (p : path) (v : option node) :
  links_apart T f -> (forall t, v = Some (Link t) -> apart T t) -> links_apart T (upd f p v).
Proof.
  intros Hl Hv q t. destruct (decide (q = p)) as [E|E].
  - rewrite E, upd_eq. apply Hv.
  - rewrite upd_ne by exact E. apply Hl.
Qed.

Section Operations.
Variable names : list string.
Variable writable : path -> bool.
Variable link_limit : nat.

Lemma unlink_inv (f f' : fs) (p : path) :
  lpath link_limit f p = p -> unlink writable link_limit f p = Ok f' -> f' = upd f p None.
Proof.
  intros Hlp. unfold unlink, lstat. rewrite Hlp.
  destruct (f p) as [[| |t]|]; try discriminate;
    destruct (parent_writable writable link_limit f p); try discriminate;
    intros E; injection E as <-; reflexivity.
Qed.

Lemma rmdir_inv (f f' : fs) (p : path) :
  lpath link_limit f p = p -> rmdir names writable link_limit f p = Ok f' -> f' = upd f p None.
Proof.
  intros Hlp. unfold rmdir, lstat. rewrite Hlp.
  destruct (f p) as [[| |t]|]; try discriminate.
  destruct (parent_writable writable link_limit f p); cbn [negb]; try discriminate.
  destruct (children names f p); try discriminate.
  intros E; injection E as <-; reflexivity.
Qed.

Lemma mkdir_inv (f f' : fs) (p : path) :
  lpath link_limit f p = p -> mkdir writable link_limit f p = Ok f' -> f' = upd f p (Some Dir).
Proof.
  intros Hlp. unfold mkdir, lstat. rewrite Hlp.
  destruct (is_some_node (f p)); try discriminate.
  destruct (parent_isdir link_limit f p); cbn [negb]; try discriminate.
  destruct (parent_writable writable link_limit f p); cbn [negb]; try discriminate.
  intros E; injection E as <-; reflexivity.
Qed.

Lemma symlink_inv (f f' : fs) (src dst : path) :
  lpath link_limit f dst = dst ->
  symlink writable link_limit src dst f = Ok f' -> f' = upd f dst (Some (Link src)).
Proof.
  intros Hlp. unfold symlink, lstat. rewrite Hlp.
  destruct (is_some_node (f dst)); try discriminate.
  destruct (parent_isdir link_limit f dst); cbn [negb]; try discriminate.
  destruct (parent_writable writable link_limit f dst); cbn [negb]; try discriminate.
  intros E; injection E as <-; reflexivity.
Qed.

(** [os.makedirs] below an existing directory makes one directory. *)
Lemma makedirs_inv (f f' : fs) (t : path) :
  plain f t -> t <> [] ->
  (forall h c, split_last t = Some (h, c) -> f h = Some Dir) ->
  makedirs writable link_limit f t = Ok f' -> f' = upd f t (Some Dir).
Proof.
  intros Hpl Hne Hparent.
  destruct (split_last_nonempty t Hne) as (h & c & Esplit).
  pose proof (split_last_spec _ _ _ Esplit) as Eht.
  assert (plain f h) as Hph by (apply (plain_prefix f h [c]); rewrite <- Eht; exact Hpl).
  pose proof (Hparent h c Esplit) as Hhd.
  pose proof (lpath_plain link_limit f t Hpl Hne) as Hlp.
  unfold makedirs. destruct (List.length t) as [|m]; cbn [makedirs_from].
  - apply mkdir_inv, Hlp.
  - rewrite Esplit. unfold access_F.
    rewrite (stat_plain_dir link_limit f h Hph Hhd). cbn [is_some_node negb andb].
    unfold mbind, result_bind. apply mkdir_inv, Hlp.
Qed.

(** Lines 268-272: after them the target is a directory, and nothing else
    has changed. *)
Lemma target_prepared (f fm : fs) (t : path) :
  plain f t -> t <> [] ->
  (f t = Some Dir \/ forall h c, split_last t = Some (h, c) -> f h = Some Dir) ->
  (if negb (isdir link_limit f t)
   then f1 ← (if access_F link_limit f t || islink link_limit f t
              then unlink writable link_limit f t else Ok f);
        makedirs writable link_limit f1 t
   else Ok f) = Ok fm ->
  fm t = Some Dir /\ (forall p, p <> t -> fm p = f p).
Proof.
  intros Hpl Hne Htgt.
  pose proof (lpath_plain link_limit f t Hpl Hne) as Hlp.
  unfold isdir. rewrite (stat_plain link_limit f t Hpl Hne).
  destruct (is_dir (f t)) eqn:Hd; cbn [negb].
  - intros E. injection E as <-. split; [|reflexivity].
    destruct (f t) as [[| |x]|]; try discriminate. reflexivity.
  - destruct Htgt as [Htd | Hparent]; [rewrite Htd in Hd; discriminate|].
    unfold mbind, result_bind.
    destruct (if access_F link_limit f t || islink link_limit f t
              then unlink writable link_limit f t else Ok f) as [f1|e] eqn:E1; [|discriminate].
    assert (f1 = f \/ f1 = upd f t None) as Hf1.
    { destruct (access_F link_limit f t || islink link_limit f t).
      - right. apply (unlink_inv f f1 t Hlp E1).
      - left. congruence. }
    assert (forall p, p <> t -> f1 p = f p) as Hframe1.
    { intros p Hp. destruct Hf1 as [-> | ->]; [reflexivity | apply upd_ne, Hp]. }
    assert (plain f1 t) as Hpl1.
    { destruct Hf1 as [-> | ->]; [exact Hpl|]. apply plain_upd; auto. }
    intros Hmk. apply makedirs_inv in Hmk; [| exact Hpl1 | exact Hne |].
    + subst fm. split; [apply upd_eq|].
      intros p Hp. rewrite upd_ne by exact Hp. apply Hframe1, Hp.
    + intros h c Esplit. rewrite Hframe1; [apply (Hparent h c Esplit)|].
      rewrite (split_last_spec _ _ _ Esplit). apply path_not_longer.
Qed.

End Operations.

(** *** A run of the mirror that returns *)

Lemma mirrored_ext (names : list string) (readable : path -> bool) (link_limit : nat)
    (f0 : fs) (n : nat) : forall (f g : fs) (q t : path),
  (forall u, g (t ++ u) = f (t ++ u)) ->
  mirrored names readable link_limit f0 n f q t ->
  mirrored names readable link_limit f0 n g q t.
Proof.
  induction n as [|n IH]; intros f g q t Heq; [exact (fun H => H)|].
  cbn [mirrored]. intros (Ht & Hq & Hent). split; [|split; [exact Hq|]].
  - rewrite <- Ht. rewrite <- (app_nil_r t). apply Heq.
  - intros d Hd. destruct (Hent d Hd) as [(t' & Hl & Hr) | (Hdir & Hm)].
    + left. exists t'. split; [|exact Hr]. rewrite <- Hl. apply Heq.
    + right. split; [exact Hdir|]. apply (IH f g); [|exact Hm].
      intros u. rewrite <- !app_assoc. apply Heq.
Qed.

Section MirrorRuns.
Variable names : list string.
Variable readable : path -> bool.
Variable writable : path -> bool.
Variable link_limit : nat.
Variables (T : path) (f0 : fs).
Hypothesis Hnodup : List.NoDup names.
Hypothesis Hlimit : (1 <= link_limit)%nat.
Hypothesis Hlinks0 : links_apart T f0.
Hypothesis Hresolved : forall p, apart T p -> plain f0 (realpath link_limit f0 p).

Lemma realpath_of_link (f : fs) (t : path) (d : string) (t' : path) :
  agree T f0 f -> plain f t -> f (t ++ [d]) = Some (Link t') -> apart T t' ->
  realpath link_limit f (t ++ [d]) = resolve (link_limit - 1) f0 [] t'.
Proof.
  intros Hag Hpl Hlink Hap. unfold realpath. rewrite resolve_unfold.
  rewrite (walk_link f _ [] t d t' Hpl Hlink).
  destruct link_limit as [|k]; [lia|].
  replace (S k - 1)%nat with k by lia. rewrite app_nil_r.
  apply (resolve_stable T f0 f Hlinks0 Hag). exact Hap.
Qed.

(** Lines 282-292, once a link found in the way has been removed. *)
Lemma mirror_entry_body_post (self : path -> path -> fs -> result fs) (n : nat)
    (q t : path) (d : string) (g g1 : fs) :
  mirrors names readable link_limit f0 T self n ->
  agree T f0 g -> links_apart T g -> apart T q ->
  (exists s, t = T ++ s) -> plain g t -> g t = Some Dir ->
  is_link (g (t ++ [d])) = false ->
  (if isdir link_limit g (realpath link_limit f0 (q ++ [d]))
   then self (realpath link_limit f0 (q ++ [d])) (t ++ [d]) g
   else
     f ← (if isdir link_limit g (t ++ [d]) then rmdir names writable link_limit g (t ++ [d])
          else if access_F link_limit g (t ++ [d]) then unlink writable link_limit g (t ++ [d])
          else Ok g);
     symlink writable link_limit (realpath link_limit f0 (q ++ [d])) (t ++ [d]) f) = Ok g1 ->
  (forall p, (forall u, p <> t ++ d :: u) -> g1 p = g p) /\
  links_apart T g1 /\
  entry_mirrored names readable link_limit f0 n g1 q t d.
Proof.
  intros Hself Hag Hl Hq [s Hs] Hpl Htd Hnl.
  set (qd := realpath link_limit f0 (q ++ [d])).
  assert (apart T qd) as Hqd_ap by (apply (realpath_apart link_limit T f0 Hlinks0), apart_app, Hq).
  assert (plain f0 qd) as Hqd_pl by (apply Hresolved, apart_app, Hq).
  rewrite (isdir_stable link_limit T f0 g Hlinks0 Hag qd Hqd_ap).
  destruct (isdir link_limit f0 qd) eqn:Eqd.
  - (* a directory: the mirror goes down *)
    intros Hrun. apply Hself in Hrun.
    + destruct Hrun as (Hframe & Hl1 & Hm). split; [|split; [exact Hl1|]].
      * intros p Hp. apply Hframe. intros u. rewrite <- app_assoc. apply Hp.
      * right. split; [exact Eqd | exact Hm].
    + exact Hag.
    + exact Hl.
    + exact Hqd_ap.
    + exact Hqd_pl.
    + exists (s ++ [d]). rewrite Hs, <- app_assoc. reflexivity.
    + apply plain_snoc; assumption.
    + right. intros h c E. rewrite split_last_snoc in E. injection E as <- <-. exact Htd.
  - (* anything else: a link is made *)
    pose proof (lpath_snoc link_limit g t d Hpl) as Hlpd.
    unfold mbind, result_bind.
    destruct (if isdir link_limit g (t ++ [d]) then rmdir names writable link_limit g (t ++ [d])
              else if access_F link_limit g (t ++ [d])
                   then unlink writable link_limit g (t ++ [d])
                   else Ok g) as [g3|e] eqn:Ec; [|discriminate].
    assert (g3 = g \/ g3 = upd g (t ++ [d]) None) as Hg3.
    { destruct (isdir link_limit g (t ++ [d])).
      - right. apply (rmdir_inv names writable link_limit g g3 _ Hlpd Ec).
      - destruct (access_F link_limit g (t ++ [d])).
        + right. apply (unlink_inv writable link_limit g g3 _ Hlpd Ec).
        + left. congruence. }
    assert (plain g3 t) as Hpl3
      by (destruct Hg3 as [-> | ->]; [exact Hpl | apply plain_upd_child, Hpl]).
    assert (forall p, p <> t ++ [d] -> g3 p = g p) as Hframe3
      by (intros p Hp; destruct Hg3 as [-> | ->]; [reflexivity | apply upd_ne, Hp]).
    assert (links_apart T g3) as Hl3.
    { destruct Hg3 as [-> | ->]; [exact Hl|]. apply links_apart_upd; [exact Hl | discriminate]. }
    intros Hsym.
    apply symlink_inv in Hsym; [|apply lpath_snoc, Hpl3]. subst g1.
    split; [|split].
    + intros p Hp. rewrite upd_ne by apply (Hp []). apply Hframe3, (Hp []).
    + apply links_apart_upd; [exact Hl3|]. intros t' E. injection E as <-. exact Hqd_ap.
    + left. exists qd. split; [apply upd_eq|]. apply resolve_plain, Hqd_pl.
Qed.

(** Lines 274-292: one entry of the source directory. *)
Lemma mirror_entry_post (self : path -> path -> fs -> result fs) (n : nat)
    (q t : path) (d : string) (g g1 : fs) :
  mirrors names readable link_limit f0 T self n ->
  agree T f0 g -> links_apart T g -> apart T q ->
  (exists s, t = T ++ s) -> plain g t -> g t = Some Dir ->
  mirror_entry names writable link_limit self q t d g = Ok g1 ->
  (forall p, (forall u, p <> t ++ d :: u) -> g1 p = g p) /\
  links_apart T g1 /\
  entry_mirrored names readable link_limit f0 n g1 q t d.
Proof.
  intros Hself Hag Hl Hq Hs Hpl Htd.
  pose proof (lpath_snoc link_limit g t d Hpl) as Hlpd.
  unfold mirror_entry. cbv zeta.
  rewrite (realpath_stable link_limit T f0 g Hlinks0 Hag (q ++ [d])) by apply apart_app, Hq.
  unfold islink, lstat. rewrite Hlpd.
  destruct (g (t ++ [d])) as [[| |t']|] eqn:Eg; cbn [is_link andb];
    try (unfold mbind at 1, result_bind at 1;
         apply (mirror_entry_body_post self n q t d g g1); try assumption;
         rewrite Eg; reflexivity).
  pose proof (Hl _ _ Eg) as Hap'.
  rewrite (realpath_of_link g t d t' Hag Hpl Eg Hap').
  case_bool_decide as Ekept.
  - (* the link is kept *)
    intros E. injection E as <-. split; [reflexivity|]. split; [exact Hl|].
    left. exists t'. split; [exact Eg | exact Ekept].
  - (* the link is removed first *)
    unfold mbind at 1, result_bind at 1.
    destruct (unlink writable link_limit g (t ++ [d])) as [g2|e] eqn:Eu; [|discriminate].
    apply (unlink_inv writable link_limit g g2 _ Hlpd) in Eu. subst g2.
    intros Hbody.
    destruct Hs as [s Hs].
    apply (mirror_entry_body_post self n q t d (upd g (t ++ [d]) None) g1) in Hbody.
    + destruct Hbody as (Hframe & Hl1 & Hent). split; [|split; assumption].
      intros p Hp. rewrite Hframe by exact Hp. apply upd_ne, (Hp []).
    + exact Hself.
    + rewrite Hs, <- app_assoc. apply agree_upd, Hag.
    + apply links_apart_upd; [exact Hl | discriminate].
    + exact Hq.
    + exists s. exact Hs.
    + apply plain_upd_child, Hpl.
    + rewrite upd_ne; [exact Htd | apply path_not_longer].
    + rewrite upd_eq. reflexivity.
Qed.

Lemma entry_mirrored_ext (n : nat) (f g : fs) (q t : path) (d : string) :
  (forall u, g (t ++ d :: u) = f (t ++ d :: u)) ->
  entry_mirrored names readable link_limit f0 n f q t d -> entry_mirrored names readable link_limit f0 n g q t d.
Proof.
  intros Heq [(t' & Hl & Hr) | (Hdir & Hm)].
  - left. exists t'. split; [|exact Hr]. rewrite <- Hl. apply (Heq []).
  - right. split; [exact Hdir|].
    apply (mirrored_ext names readable link_limit f0 n f g); [|exact Hm].
    intros u. rewrite <- !app_assoc. apply Heq.
Qed.

(** The loop of line 274 over the entries of one source directory. *)
Lemma mirror_entries_post (self : path -> path -> fs -> result fs) (n : nat) (q t : path) :
  mirrors names readable link_limit f0 T self n -> apart T q -> (exists s, t = T ++ s) ->
  forall (L : list string) (g f' : fs),
  List.NoDup L ->
  agree T f0 g -> links_apart T g -> plain g t -> g t = Some Dir ->
  mirror_entries names writable link_limit self q t L g = Ok f' ->
  (forall p, (forall d u, In d L -> p <> t ++ d :: u) -> f' p = g p) /\
  links_apart T f' /\
  (forall d, In d L -> entry_mirrored names readable link_limit f0 n f' q t d).
Proof.
  intros Hself Hq Hs. induction L as [|d L IH]; intros g f' Hnd Hag Hl Hpl Htd.
  - cbn [mirror_entries]. intros E. injection E as <-.
    split; [reflexivity|]. split; [exact Hl|]. intros d [].
  - apply List.NoDup_cons_iff in Hnd as [Hd HndL].
    cbn [mirror_entries]. unfold mbind, result_bind.
    destruct (mirror_entry names writable link_limit self q t d g) as [g1|e] eqn:E1;
      [|discriminate].
    apply (mirror_entry_post self n q t d g g1 Hself Hag Hl Hq Hs Hpl Htd) in E1.
    destruct E1 as (Hframe1 & Hl1 & Hent1).
    intros Hrest. apply IH in Hrest.
    + destruct Hrest as (Hframe2 & Hl2 & Hent2). split; [|split; [exact Hl2|]].
      * intros p Hp. rewrite Hframe2.
        -- apply Hframe1. intros u. apply Hp. left. reflexivity.
        -- intros d' u Hd'. apply Hp. right. exact Hd'.
      * intros d' [<- | Hd'].
        -- apply (entry_mirrored_ext n g1); [|exact Hent1].
           intros u. apply Hframe2. intros d' u' Hd'.
           apply path_other_child. intros ->. contradiction.
        -- apply Hent2, Hd'.
    + exact HndL.
    + destruct Hs as [s Hs]. intros p Hp. rewrite Hframe1; [apply Hag, Hp|].
      intros u. rewrite Hs, <- app_assoc. apply Hp.
    + exact Hl1.
    + apply (plain_ext g); [|exact Hpl]. intros k _. apply Hframe1.
      intros u. apply path_take_shorter.
    + rewrite Hframe1; [exact Htd|]. intros u. apply path_not_longer.
Qed.

Lemma result_bind_ok {A B : Type} (m : result A) (k : A -> result B) (b : B) :
  (m ≫= k) = Ok b -> exists a, m = Ok a /\ k a = Ok b.
Proof. destruct m as [a|e]; [|discriminate]. intros E. exists a. split; [reflexivity | exact E]. Qed.

(** Every run that returns leaves a mirror. *)
Lemma run_mirrors (n : nat) :
  mirrors names readable link_limit f0 T
    (symlink_to_database names readable writable link_limit n) n.
Proof.
  induction n as [|n IH]; intros q t f f' Hag Hl Hq Hqpl Hs Hpl Htgt; [discriminate|].
  assert (t <> []) as Hne.
  { destruct Hs as [s ->]. intros E. apply app_eq_nil in E as [E _].
    exact (apart_target_nonempty T q Hq E). }
  cbn [symlink_to_database]. cbv zeta.
  rewrite (realpath_plain link_limit f t Hpl).
  rewrite (realpath_stable link_limit T f0 f Hlinks0 Hag q Hq).
  rewrite (realpath_plain link_limit f0 q Hqpl).
  rewrite (access_R_stable readable link_limit T f0 f Hlinks0 Hag q Hq).
  rewrite (isdir_stable link_limit T f0 f Hlinks0 Hag q Hq).
  destruct (access_R readable link_limit f0 q && isdir link_limit f0 q) eqn:Hchk;
    cbn [negb]; [|discriminate].
  case_bool_decide as Eself; [discriminate|].
  intros Hrun. apply result_bind_ok in Hrun as (fm & Eprep & Hrun).
  apply (target_prepared writable link_limit f fm t Hpl Hne Htgt) in Eprep.
  destruct Eprep as [Hfm_dir Hfm_frame].
  assert (agree T f0 fm) as Hagm.
  { destruct Hs as [s Hs]. intros p Hp. rewrite Hfm_frame; [apply Hag, Hp|].
    rewrite Hs. apply Hp. }
  assert (links_apart T fm) as Hlm.
  { intros p x E. destruct (decide (p = t)) as [->|Hp]; [congruence|].
    rewrite Hfm_frame in E by exact Hp. exact (Hl _ _ E). }
  assert (plain fm t) as Hplm.
  { intros k Hk. destruct (decide (take (S k) t = t)) as [E|E].
    - rewrite E, Hfm_dir. reflexivity.
    - rewrite Hfm_frame by exact E. apply Hpl, Hk. }
  apply result_bind_ok in Hrun as (L0 & EL & Hrun).
  apply andb_true_iff in Hchk as Hchk'. destruct Hchk' as [Hacc Hisdir].
  unfold access_R in Hacc. apply andb_true_iff in Hacc as [_ Hread].
  rewrite (realpath_plain link_limit f0 q Hqpl) in Hread.
  unfold listdir in EL.
  rewrite (isdir_stable link_limit T f0 fm Hlinks0 Hagm q Hq), Hisdir in EL.
  rewrite (realpath_stable link_limit T f0 fm Hlinks0 Hagm q Hq) in EL.
  rewrite (realpath_plain link_limit f0 q Hqpl), Hread in EL. cbn [andb] in EL.
  rewrite (children_stable names T f0 fm Hagm q Hq) in EL. injection EL as <-.
  apply (mirror_entries_post _ n q t IH Hq Hs) in Hrun;
    [ | apply List.NoDup_filter, Hnodup | assumption ..].
  destruct Hrun as (Hframe & Hl' & Hent).
  assert (f' t = Some Dir) as Htd'.
  { rewrite Hframe; [exact Hfm_dir|]. intros d u _. apply path_not_longer. }
  split; [|split; [exact Hl'|]].
  - intros p Hp. rewrite Hframe.
    + apply Hfm_frame. rewrite <- (app_nil_r t). apply Hp.
    + intros d u _. apply Hp.
  - cbn [mirrored]. split; [exact Htd'|]. split; [exact Hchk|].
    intros d Hd. exact (Hent d Hd).
Qed.

Lemma mirrored_target_dir (n : nat) (f : fs) (q t : path) :
  mirrored names readable link_limit f0 n f q t -> f t = Some Dir.
Proof. destruct n; [contradiction|]. intros (H & _). exact H. Qed.

(** On a mirror the run finds every link in place and writes nothing. *)
Lemma mirrored_fixed (n : nat) : forall (q t : path) (f : fs),
  agree T f0 f -> links_apart T f ->
  apart T q -> plain f0 q ->
  (exists s, t = T ++ s) -> plain f t ->
  mirrored names readable link_limit f0 n f q t ->
  symlink_to_database names readable writable link_limit n q t f = Ok f.
Proof.
  induction n as [|n IH]; intros q t f Hag Hl Hq Hqpl Hs Hpl Hm; [contradiction|].
  destruct Hm as (Htd & Hchk & Hent).
  cbn [symlink_to_database]. cbv zeta.
  rewrite (realpath_plain link_limit f t Hpl).
  rewrite (realpath_stable link_limit T f0 f Hlinks0 Hag q Hq).
  rewrite (realpath_plain link_limit f0 q Hqpl).
  rewrite (access_R_stable readable link_limit T f0 f Hlinks0 Hag q Hq).
  rewrite (isdir_stable link_limit T f0 f Hlinks0 Hag q Hq).
  rewrite Hchk. cbn [negb].
  rewrite bool_decide_false by (destruct Hs as [s ->]; apply apart_not_below, Hq).
  assert (isdir link_limit f t = true) as ->
    by (unfold isdir; rewrite (stat_plain_dir link_limit f t Hpl Htd); reflexivity).
  cbn [negb]. unfold mbind, result_bind.
  apply andb_true_iff in Hchk as [Hacc Hisdir].
  unfold access_R in Hacc. apply andb_true_iff in Hacc as [_ Hread].
  rewrite (realpath_plain link_limit f0 q Hqpl) in Hread.
  unfold listdir.
  rewrite (isdir_stable link_limit T f0 f Hlinks0 Hag q Hq), Hisdir.
  rewrite (realpath_stable link_limit T f0 f Hlinks0 Hag q Hq).
  rewrite (realpath_plain link_limit f0 q Hqpl), Hread. cbn [andb].
  rewrite (children_stable names T f0 f Hag q Hq).
  assert (forall L, (forall d, In d L -> In d (children names f0 q)) ->
            mirror_entries names writable link_limit
              (symlink_to_database names readable writable link_limit n) q t L f = Ok f)
    as Hloop.
  { induction L as [|d L IHL]; intros HL; [reflexivity|].
    cbn [mirror_entries]. unfold mbind, result_bind.
    assert (mirror_entry names writable link_limit
              (symlink_to_database names readable writable link_limit n) q t d f = Ok f) as ->.
    { pose proof (lpath_snoc link_limit f t d Hpl) as Hlpd.
      unfold mirror_entry. cbv zeta.
      rewrite (realpath_stable link_limit T f0 f Hlinks0 Hag (q ++ [d])) by apply apart_app, Hq.
      unfold islink, lstat. rewrite Hlpd.
      destruct (Hent d (HL d (or_introl eq_refl))) as [(t' & Hlink & Hr) | (Hdir & Hm)].
      - rewrite Hlink. cbn [is_link andb].
        rewrite (realpath_of_link f t d t' Hag Hpl Hlink (Hl _ _ Hlink)).
        rewrite bool_decide_true by exact Hr. reflexivity.
      - pose proof (mirrored_target_dir _ _ _ _ Hm) as Hsub.
        rewrite Hsub. cbn [is_link andb]. unfold mbind, result_bind.
        assert (apart T (realpath link_limit f0 (q ++ [d]))) as Hqd
          by (apply (realpath_apart link_limit T f0 Hlinks0), apart_app, Hq).
        rewrite (isdir_stable link_limit T f0 f Hlinks0 Hag _ Hqd), Hdir.
        apply IH; try assumption.
        + apply Hresolved, apart_app, Hq.
        + destruct Hs as [s ->]. exists (s ++ [d]). rewrite <- app_assoc. reflexivity.
        + apply plain_snoc; [exact Hpl|]. rewrite Hsub. reflexivity. }
    apply IHL. intros d' Hd'. apply HL. right. exact Hd'. }
  apply Hloop. intros d Hd. exact Hd.
Qed.

End MirrorRuns.



Ltac demo_fs_cases :=
  unfold demo_fs; repeat case_bool_decide; try reflexivity; try discriminate.

Lemma busy_fs_plain (p : path) :
  (forall r, p <> "db" :: "l" :: r) -> (forall r, p <> "ws" :: "l" :: r) -> plain busy_fs p.
Proof.
  intros H1 H2 k Hk. unfold busy_fs. repeat case_bool_decide; try reflexivity; exfalso.
  - match goal with H : take _ _ = ["db"; "l"] |- _ =>
      apply (H1 (drop (S k) p)); rewrite <- (take_drop (S k) p) at 1; rewrite H; reflexivity
    end.
  - match goal with H : take _ _ = ["ws"; "l"] |- _ =>
      apply (H2 (drop (S k) p)); rewrite <- (take_drop (S k) p) at 1; rewrite H; reflexivity
    end.
Qed.

Lemma busy_fs_resolved (p : path) :
  apart ["ws"] p -> plain busy_fs (realpath 40 busy_fs p).
Proof.
  intros Hap. destruct p as [|a r].
  { exfalso. apply (Hap ["ws"] []). reflexivity. }
  assert (a <> "ws") as Ha.
  { intros ->. apply (Hap [] r). rewrite app_nil_r. reflexivity. }
  assert ((a = "db" /\ exists r', r = "l" :: r') \/
          ~ (a = "db" /\ exists r', r = "l" :: r')) as [[-> [r' ->]] | Hno].
  { destruct (decide (a = "db")) as [->|Hdb]; [|right; intros [E _]; exact (Hdb E)].
    destruct r as [|b r']; [right; intros [_ [r' E]]; discriminate E|].
    destruct (decide (b = "l")) as [->|Hb]; [left; eauto|].
    right. intros [_ [r'' E]]. injection E as E _. exact (Hb E). }
  - unfold realpath. rewrite resolve_cons. cbn [app].
    change (busy_fs ["db"]) with (Some Dir). cbv iota.
    rewrite resolve_cons. cbn [app].
    change (busy_fs ["db"; "l"]) with (Some (Link ["db"; "x"])). cbv iota.
    assert (plain busy_fs (["db"; "x"] ++ r')) as Hpl
      by (apply busy_fs_plain; intros r E; discriminate E).
    rewrite (resolve_plain 39 busy_fs _ Hpl). exact Hpl.
  - assert (plain busy_fs (a :: r)) as Hpl.
    { apply busy_fs_plain; intros r' E; injection E as -> ->.
      - apply Hno. split; [reflexivity | eauto].
      - apply Ha. reflexivity. }
    rewrite (realpath_plain 40 busy_fs _ Hpl). exact Hpl.
Qed.


(** ** More on the equivalence of keys *)

Section KeyEquivalenceValues.
Context `{GroupBackend}.

Lemma IsKeyEquivalent_body_values (rec_last : pyval -> result Z) (k1 k2 : pyval) (r : Z) :
  (forall l r', rec_last l = Ok r' -> r' = 0 \/ r' = 1 \/ r' = 2) ->
  IsKeyEquivalent_body rec_last k1 k2 = Ok r -> r = 0 \/ r = 1 \/ r = 2.
Proof.
  intros Hrec. unfold IsKeyEquivalent_body. run_result.
  destruct (py_len k1) as [n1|]; [|discriminate].
  destruct (py_len k2) as [n2|]; [|discriminate].
  destruct (negb (n1 =? n2)); [intros [= <-]; auto|].
  destruct (py_getitem k1 0) as [a|]; [|discriminate].
  destruct (py_getitem k2 0) as [b|]; [|discriminate].
  assert (forall sim, (sim = 1 \/ sim = 2) ->
    (if sim =? 0 then Ok 0
     else if n1 =? 3
          then match py_getitem k1 (-1) with
               | Ok _ => match py_getitem k2 (-1) with
                         | Ok l2 => match rec_last l2 with
                                    | Ok r0 => Ok (Z.min sim r0)
                                    | Raise e => Raise e
                                    end
                         | Raise e => Raise e
                         end
               | Raise e => Raise e
               end
          else Ok sim) = Ok r -> r = 0 \/ r = 1 \/ r = 2) as Htail.
  { intros sim Hsim.
    destruct (sim =? 0); [intros [= <-]; auto|].
    destruct (n1 =? 3).
    - destruct (py_getitem k1 (-1)); [|discriminate].
      destruct (py_getitem k2 (-1)) as [l2|]; [|discriminate].
      destruct (rec_last l2) as [r0|] eqn:E; [|discriminate].
      intros [= <-]. destruct (Hrec _ _ E) as [-> | [-> | ->]]; destruct Hsim as [-> | ->]; auto.
    - intros [= <-]. tauto. }
  destruct (pyval_eqb a b).
  - apply Htail. auto.
  - destruct (group_of_key a) as [G1|]; [|discriminate].
    destruct (group_of_key b) as [G2|]; [|discriminate].
    destruct (canonicalIsomorphism G1 G2).
    + apply Htail. auto.
    + cbn. intros [= <-]. auto.
Qed.

(** X1: [_IsKeyEquivalent] answers 0, 1 or 2 whenever it answers. *)
Theorem IsKeyEquivalent_values (k1 k2 : pyval) (r : Z) :
  IsKeyEquivalent k1 k2 = Ok r -> r = 0 \/ r = 1 \/ r = 2.
Proof.
  revert k2 r. induction k1 as [x|s|l IH] using pyval_ind_nested; intros k2 r.
  - cbn [IsKeyEquivalent]. apply IsKeyEquivalent_body_values. intros l r'. discriminate.
  - cbn [IsKeyEquivalent]. apply IsKeyEquivalent_body_values. intros l r'.
    apply IsKeyEquivalent_body_values. intros l' r''. discriminate.
  - cbn [IsKeyEquivalent]. apply IsKeyEquivalent_body_values.
    induction IH as [|x l' Hx Hl IHl]; [intros ? ?; discriminate|].
    destruct l' as [|y l'']; [exact Hx | exact IHl].
Qed.

End KeyEquivalenceValues.

Lemma py_getitem_second (x y : pyval) (l : list pyval) :
  py_getitem (PTuple (x :: y :: l)) 1 = Ok y.
Proof.
  unfold py_getitem. cbn [List.length].
  replace (1 <? 0) with false by reflexivity.
  replace ((0 <=? 1) && (1 <? Z.of_nat (S (S (List.length l))))) with true; [reflexivity|].
  symmetry. apply andb_true_iff. split; [reflexivity | apply Z.ltb_lt; lia].
Qed.

Section KeysOfPrimePowerGroups.
Context `{RingEngine}.

(** X2: The state file named in the key of a prime power group plays no part in
    the comparison: a ring whose key names the same group is accepted by
    [_check_compatibility] without a warning, whatever workspace its key
    points to. *)
Theorem check_compatibility_ignores_state_file (KEY : pyval) (path path' : string)
    (R : Ring) (s : state) :
  ring_key R = p_group_cache_key KEY path' ->
  check_compatibility (p_group_cache_key KEY path) R s = (s, Ok R).
Proof.
  intros HR. unfold check_compatibility. rewrite HR. run.
  unfold p_group_cache_key. cbn [IsKeyEquivalent]. unfold IsKeyEquivalent_body.
  run_result. cbn [py_len List.length]. rewrite !py_getitem_head.
  rewrite pyval_eqb_refl. reflexivity.
Qed.

(** X3: Two keys of prime power groups with different addresses in the
    SmallGroups library are equivalent (value 1) exactly when GAP finds a
    canonical isomorphism between the two groups, and different (value 0)
    otherwise. *)
Theorem IsKeyEquivalent_by_canonical_isomorphism (q1 n1 q2 n2 : Z)
    (path1 path2 : string) (G1 G2 : Group) :
  (q1, n1) <> (q2, n2) ->
  SmallGroup q1 n1 = Ok G1 ->
  SmallGroup q2 n2 = Ok G2 ->
  IsKeyEquivalent (p_group_cache_key (PTuple [PInt q1; PInt n1]) path1)
                  (p_group_cache_key (PTuple [PInt q2; PInt n2]) path2)
  = Ok (if canonicalIsomorphism G1 G2 then 1 else 0).
Proof.
  intros Hne E1 E2.
  unfold p_group_cache_key. cbn [IsKeyEquivalent]. unfold IsKeyEquivalent_body.
  run_result. cbn [py_len List.length]. rewrite !py_getitem_head.
  destruct (pyval_eqb (PTuple [PInt q1; PInt n1]) (PTuple [PInt q2; PInt n2])) eqn:E.
  - apply pyval_eqb_spec in E. injection E as -> ->. contradiction.
  - unfold group_of_key. run_result. cbn [py_len List.length].
    rewrite !py_getitem_head, !py_getitem_second.
    change (Z.of_nat 2) with 2. cbn [Z.eqb Pos.eqb negb SmallGroup_val].
    rewrite E1, E2.
    destruct (canonicalIsomorphism G1 G2); reflexivity.
Qed.

End KeysOfPrimePowerGroups.

Lemma check_compatibility_ignores_state_file_witness :
  let R := ToyRing (p_group_cache_key (PTuple [PInt 8; PInt 3]) "/other/8gp3/dat/State")
             8 8 false None in
  @check_compatibility toy_backend toy_engine
    (p_group_cache_key (PTuple [PInt 8; PInt 3]) "/ws/8gp3/dat/State") R (toy_state [] false)
  = (toy_state [] false, Ok R).
Proof.
  intros R.
  apply (@check_compatibility_ignores_state_file toy_backend toy_engine
           (PTuple [PInt 8; PInt 3]) "/ws/8gp3/dat/State" "/other/8gp3/dat/State" R).
  reflexivity.
Defined.

Lemma IsKeyEquivalent_by_canonical_isomorphism_witness :
  @IsKeyEquivalent toy_backend
    (p_group_cache_key (PTuple [PInt 8; PInt 1]) "/ws/8gp1/dat/State")
    (p_group_cache_key (PTuple [PInt 8; PInt 2]) "/ws/8gp2/dat/State")
  = Ok (if @canonicalIsomorphism toy_backend (cyclic 8) (cyclic 8) then 1 else 0).
Proof.
  apply (@IsKeyEquivalent_by_canonical_isomorphism toy_backend 8 1 8 2).
  - intros [=].
  - reflexivity.
  - reflexivity.
Defined.

Lemma IsKeyEquivalent_values_witness :
  let r := 2 in
  @IsKeyEquivalent toy_backend
    (p_group_cache_key (PTuple [PInt 8; PInt 3]) "/ws/8gp3/dat/State")
    (p_group_cache_key (PTuple [PInt 8; PInt 3]) "/ws/8gp3/dat/State") = Ok r /\
  (r = 0 \/ r = 1 \/ r = 2).
Proof.
  intros r. split; [reflexivity|].
  apply (@IsKeyEquivalent_values toy_backend
           (p_group_cache_key (PTuple [PInt 8; PInt 3]) "/ws/8gp3/dat/State")
           (p_group_cache_key (PTuple [PInt 8; PInt 3]) "/ws/8gp3/dat/State") r).
  reflexivity.
Defined.

(** ** The global options *)

Lemma global_option_keeps_keys (o : gmap string optval) (opt k : string) :
  is_Some (o !! k) -> is_Some (global_option o opt !! k).
Proof.
  intros Hk. unfold global_option.
  case_bool_decide; [exact Hk|].
  destruct ((1 <? String.length opt)%nat && starts_with_no opt).
  - destruct (decide (drop2 opt = k)) as [->|Hne].
    + rewrite lookup_insert_eq. eauto.
    + rewrite lookup_insert_ne by exact Hne. exact Hk.
  - destruct (decide (opt = k)) as [->|Hne].
    + rewrite lookup_insert_eq. eauto.
    + rewrite lookup_insert_ne by exact Hne. exact Hk.
Qed.

Lemma fold_global_option_keeps_keys (args : list string) (o : gmap string optval) (k : string) :
  is_Some (o !! k) -> is_Some (List.fold_left global_option args o !! k).
Proof.
  revert o. induction args as [|a args IH]; intros o Hk; [exact Hk|].
  cbn [List.fold_left]. apply IH, global_option_keeps_keys, Hk.
Qed.

(** X4: [global_options] never removes an option: a name that has a value
    before still has one afterwards. *)
Theorem global_options_keeps_keys (args : list string) (o : gmap string optval) (k : string) :
  is_Some (o !! k) -> is_Some (global_options args o !! k).
Proof.
  intros Hk. unfold global_options.
  destruct args as [|a [|b args]]; [exact Hk| |].
  - destruct (decide (a = "")) as [->|Hne]; [exact Hk|].
    destruct a as [|c a]; [contradiction|].
    apply fold_global_option_keeps_keys, Hk.
  - assert (is_Some (List.fold_left global_option (a :: b :: args) o !! k)) as Hf
      by apply fold_global_option_keeps_keys, Hk.
    destruct a as [|c a]; exact Hf.
Qed.

Lemma global_options_snoc (args : list string) (opt : string) (o : gmap string optval) :
  opt <> "" ->
  global_options (args ++ [opt]) o = global_option (List.fold_left global_option args o) opt.
Proof.
  intros Hopt. unfold global_options.
  assert (List.fold_left global_option (args ++ [opt]) o
          = global_option (List.fold_left global_option args o) opt) as Hfold
    by (rewrite List.fold_left_app; reflexivity).
  destruct args as [|a [|b args]]; cbn [app].
  - destruct opt as [|c opt]; [contradiction | reflexivity].
  - destruct a; exact Hfold.
  - destruct a; exact Hfold.
Qed.

(** X5: The last positional argument wins.  An option prefixed by [no] is set to
    [False], except for [time], [cputime] and [walltime], whose [no] forms
    only reconfigure the log format; any other name that is not a logging
    option and does not start with [no] is set to [True]. *)
Theorem global_options_last_wins (args : list string) (opt : string)
    (o : gmap string optval) :
  (opt <> "time" -> opt <> "cputime" -> opt <> "walltime" ->
   global_options (args ++ ["no" +:+ opt]) o !! opt = Some (OBool false)) /\
  (opt <> "" -> opt ∉ logging_options -> starts_with_no opt = false ->
   global_options (args ++ [opt]) o !! opt = Some (OBool true)).
Proof.
  split.
  - intros H1 H2 H3.
    assert ("no" +:+ opt = String "n" (String "o" opt)) as Eno
      by (rewrite !string_app_cons, string_app_nil_l; reflexivity).
    rewrite Eno.
    rewrite global_options_snoc by discriminate.
    unfold global_option.
    rewrite bool_decide_eq_false_2.
    + cbn [String.length Nat.ltb Nat.leb andb starts_with_no drop2].
      apply lookup_insert_eq.
    + unfold logging_options.
      intros Hin. repeat (apply elem_of_cons in Hin as [Hin|Hin]; [try discriminate|]).
      * injection Hin as ->. contradiction.
      * injection Hin as ->. contradiction.
      * injection Hin as ->. contradiction.
      * apply elem_of_nil in Hin. exact Hin.
  - intros Hne Hlog Hno.
    rewrite global_options_snoc by exact Hne.
    unfold global_option.
    rewrite bool_decide_eq_false_2 by exact Hlog.
    rewrite Hno, andb_false_r. apply lookup_insert_eq.
Qed.

(** X6: The logging options ([warn], [info], [debug] and the timing options)
    leave the option dictionary as it is. *)
Theorem global_options_logging_only (args : list string) (o : gmap string optval) :
  Forall (fun a => a ∈ logging_options) args -> global_options args o = o.
Proof.
  intros Hall. unfold global_options.
  assert (List.fold_left global_option args o = o) as Hfold.
  { revert o. induction Hall as [|a args Ha Hall IH]; intros o; [reflexivity|].
    cbn [List.fold_left]. unfold global_option at 2.
    rewrite bool_decide_eq_true_2 by exact Ha. apply IH. }
  destruct args as [|a [|b args]]; [reflexivity| |].
  - destruct a; [reflexivity | exact Hfold].
  - destruct a; exact Hfold.
Qed.

Lemma global_options_keeps_keys_witness :
  is_Some (global_options ["nosave"; "debug"] {[ "use_web" := OBool true ]} !! "use_web").
Proof.
  apply (global_options_keeps_keys ["nosave"; "debug"] {[ "use_web" := OBool true ]} "use_web").
  rewrite lookup_singleton_eq. eauto.
Defined.

Lemma global_options_last_wins_witness :
  global_options (["save"] ++ ["no" +:+ "save"]) ∅ !! "save" = Some (OBool false) /\
  global_options (["nosave"] ++ ["save"]) ∅ !! "save" = Some (OBool true).
Proof.
  split.
  - apply (global_options_last_wins ["save"] "save" ∅); discriminate.
  - apply (global_options_last_wins ["nosave"] "save" ∅).
    + discriminate.
    + unfold logging_options. intros Hin.
      repeat (apply elem_of_cons in Hin as [Hin|Hin]; [discriminate|]).
      apply elem_of_nil in Hin. exact Hin.
    + reflexivity.
Defined.

Lemma global_options_logging_only_witness :
  global_options ["debug"; "notime"] {[ "time" := OBool true ]}
  = ({[ "time" := OBool true ]} : gmap string optval).
Proof.
  apply (global_options_logging_only ["debug"; "notime"]).
  repeat constructor; unfold logging_options; set_solver.
Defined.

(** ** Stems and keys *)

Lemma GStemMaker_sub_word (t : string) : string_all is_word_char (GStemMaker_sub t) = true.
Proof.
  unfold GStemMaker_sub. induction t as [|c t IH]; [reflexivity|].
  cbn [string_map string_all]. rewrite IH, andb_true_r.
  unfold is_word_char. destruct (is_alnum c) eqn:E; [rewrite E; reflexivity|].
  apply orb_true_r.
Qed.

Lemma GStemMaker_sub_length (t : string) :
  String.length (GStemMaker_sub t) = String.length t.
Proof.
  unfold GStemMaker_sub. induction t as [|c t IH]; [reflexivity|].
  cbn [string_map String.length]. rewrite IH. reflexivity.
Qed.

Section Stems.
Context `{GroupBackend}.

(** X7: A stem name that is taken from the keyword [GStem], from the keyword
    [GroupName] or from the name the group has in GAP consists of letters,
    digits and underscores only. *)
Theorem gstem_from_name_is_word (G : descriptor) (GStem GroupName : option string)
    (GroupId : option (Z * Z)) (r : string) :
  nonempty GStem <> None \/
    ((forall q n, G <> SmallGroupAddress q n) /\ GroupId = None) ->
  gstem G GStem GroupName GroupId = Ok r ->
  string_all is_word_char r = true.
Proof.
  intros Hfrom. unfold gstem.
  destruct (nonempty GStem) as [t|] eqn:Et.
  - intros [= <-]. apply GStemMaker_sub_word.
  - destruct Hfrom as [Hfrom|[Hnot ->]]; [contradiction|].
    destruct G as [q n|g|].
    + exfalso. apply (Hnot q n). reflexivity.
    + destruct (nonempty GroupName) as [t|].
      * intros [= <-]. apply GStemMaker_sub_word.
      * destruct (HasName g); [|discriminate].
        intros [= <-]. apply GStemMaker_sub_word.
    + destruct (nonempty GroupName) as [t|]; [|discriminate].
      intros [= <-]. apply GStemMaker_sub_word.
Qed.

End Stems.

Lemma gstem_from_name_is_word_witness :
  @gstem toy_backend (ExplicitGroup (cyclic 8)) None (Some "C(8) x 1") None = Ok "C_8__x_1" /\
  string_all is_word_char "C_8__x_1" = true.
Proof.
  split; [reflexivity|].
  apply (@gstem_from_name_is_word toy_backend (ExplicitGroup (cyclic 8)) None
           (Some "C(8) x 1") None "C_8__x_1").
  - right. split; [discriminate | reflexivity].
  - reflexivity.
Defined.


Lemma string_all_filter (ok : ascii -> bool) (s : string) :
  string_all ok (string_filter ok s) = true.
Proof.
  induction s as [|c s IH]; [reflexivity|].
  cbn [string_filter]. destruct (ok c) eqn:E; [|exact IH].
  cbn [string_all]. rewrite E, IH. reflexivity.
Qed.

Lemma string_all_filter_weaker (ok ok' : ascii -> bool) (s : string) :
  (forall c, ok c = true -> ok' c = true) ->
  string_all ok' (string_filter ok s) = true.
Proof.
  intros Himp. induction s as [|c s IH]; [reflexivity|].
  cbn [string_filter]. destruct (ok c) eqn:E; [|exact IH].
  cbn [string_all]. rewrite (Himp c E), IH. reflexivity.
Qed.

Lemma not_space_not_blank (c : ascii) : not_space c = true -> not_blank c = true.
Proof.
  destruct c as [[] [] [] [] [] [] [] []]; vm_compute; congruence.
Qed.

Section GroupKeyShape.
Context `{GroupBackend}.

(** X8: Without the keyword [GroupDefinition], the key of a group is either a
    pair of integers (an address in the SmallGroups library) or a 1-tuple
    with a string that contains neither blanks nor line feeds. *)
Theorem create_group_key_shape (G : descriptor) (GroupId : option (Z * Z)) (KEY : pyval) :
  create_group_key G GroupId None = Ok KEY ->
  (exists q n, KEY = PTuple [PInt q; PInt n]) \/
  (exists d, KEY = PTuple [PStr d] /\ string_all not_blank d = true).
Proof.
  unfold create_group_key.
  destruct G as [q n|g|].
  - intros [= <-]. left. eauto.
  - destruct GroupId as [[a b]|]; [intros [= <-]; left; eauto|].
    unfold key_from_gap. run_result.
    destruct (IdGroup g) as [[a b]|e]; cbn [fst snd].
    + destruct (SmallGroup a b) as [gs|e].
      * destruct (canonicalIsomorphism g gs); [intros [= <-]; left; eauto|].
        destruct (IsPermGroup g); intros [= <-]; right; eexists; (split; [reflexivity|]).
        -- rewrite strip_blanks_filter.
           apply string_all_filter_weaker, not_space_not_blank.
        -- apply string_all_filter.
      * destruct (isinstance_ValueError e); [|discriminate].
        destruct (IsPermGroup g); intros [= <-]; right; eexists; (split; [reflexivity|]).
        -- rewrite strip_blanks_filter.
           apply string_all_filter_weaker, not_space_not_blank.
        -- apply string_all_filter.
    + destruct (isinstance_ValueError e); [|discriminate].
      destruct (IsPermGroup g); intros [= <-]; right; eexists; (split; [reflexivity|]).
      * rewrite strip_blanks_filter.
        apply string_all_filter_weaker, not_space_not_blank.
      * apply string_all_filter.
  - destruct GroupId as [[a b]|]; [intros [= <-]; left; eauto | discriminate].
Qed.

End GroupKeyShape.

Lemma create_group_key_shape_witness :
  @create_group_key toy_backend (ExplicitGroup (cyclic 8)) None None
  = Ok (PTuple [PInt 8; PInt 1]) /\
  ((exists q n, PTuple [PInt 8; PInt 1] = PTuple [PInt q; PInt n]) \/
   (exists d, PTuple [PInt 8; PInt 1] = PTuple [PStr d] /\ string_all not_blank d = true)).
Proof.
  split; [reflexivity|].
  apply (@create_group_key_shape toy_backend (ExplicitGroup (cyclic 8)) None).
  reflexivity.
Defined.

(** ** The remote repositories *)

Section RemoteLoop.
Context `{RingEngine}.

Lemma M_bind_assoc {A B C} (m : M A) (f : A -> M B) (g : B -> M C) (s : state) :
  ((m ≫= f) ≫= g) s = (m ≫= (fun x => f x ≫= g)) s.
Proof.
  unfold mbind, SM_bind. destruct (m s) as [s' [a|e]]; reflexivity.
Qed.

Lemma M_bind_ext {A B} (m : M A) (f f' : A -> M B) (s : state) :
  (forall x s', f x s' = f' x s') -> (m ≫= f) s = (m ≫= f') s.
Proof.
  intros Hf. unfold mbind, SM_bind. destruct (m s) as [s' [a|e]]; [apply Hf | reflexivity].
Qed.

(** X9: The loop over the repositories keeps no ring from one round to the
    next: trying the repositories [urls] and then [u] gives what trying [u]
    alone gives in the state that the rounds for [urls] leave behind.  A
    ring found in an earlier repository is dropped when the last one does
    not deliver. *)
Theorem remote_loop_last_repository_decides (GStem root : string)
    (urls : list string) (u : string) (OUT : option Ring) (s : state) :
  remote_loop GStem root (urls ++ [u]) OUT s
  = (_ ← remote_loop GStem root urls OUT; remote_loop GStem root [u] None) s.
Proof.
  assert (forall tail : M (option Ring),
            (forall OUT' s', remote_loop GStem root [u] OUT' s' = tail s') ->
            remote_loop GStem root (urls ++ [u]) OUT s
            = (_ ← remote_loop GStem root urls OUT; tail) s) as Hgen;
    [|apply Hgen; reflexivity].
  revert OUT s. induction urls as [|x urls IH]; intros OUT s tail Htail.
  - apply Htail.
  - cbn [app remote_loop].
    do 7 (etransitivity; [|symmetry; apply M_bind_assoc]; apply M_bind_ext; intros ? ?).
    apply IH. exact Htail.
Qed.

(** X10: With [use_web] on but no repository to ask (an empty tuple of remote
    sources, or an empty [websource]), nothing is fetched and the answer is
    [None]. *)
Theorem from_remote_sources_without_repository (GStem : string)
    (websource : option string) (s : state) (root : string) :
  opt_truthy (coho_options s !! "use_web") = true ->
  get_root_workspace s = (s, Ok root) ->
  match websource with
  | None => remote_sources s = []
  | Some w => w = ""
  end ->
  from_remote_sources GStem websource s = (s, Ok None).
Proof.
  intros Hweb Hroot Hnone. unfold from_remote_sources.
  unfold mbind at 1. unfold SM_bind, gets. rewrite Hweb. cbn [negb].
  unfold mbind at 1. unfold SM_bind. rewrite Hroot.
  destruct websource as [w|].
  - subst w. reflexivity.
  - unfold mbind, SM_bind, gets. rewrite Hnone. reflexivity.
Qed.

End RemoteLoop.

Lemma from_remote_sources_without_repository_witness :
  let s := toy_state [] false in
  @from_remote_sources toy_backend toy_engine "128gp1" (Some "") s = (s, Ok None).
Proof.
  intros s.
  apply (@from_remote_sources_without_repository toy_backend toy_engine
           "128gp1" (Some "") s "/ws"); reflexivity.
Defined.

(** ** The resolvers *)

Section Resolvers.
Context `{RingEngine}.

(** X11: A ring that is in the cache and whose file can be read is returned at
    once: nothing is loaded, linked, fetched or saved, the cache is left as
    it is, and the only trace is one debug record (after [use_web] has been
    switched off when [from_scratch] is set). *)
Theorem cache_hit_touches_nothing (GStem : string) (KEY : pyval) (from_scratch : bool)
    (websource : websource_arg) (props : list (string * pyval))
    (s : state) (root : string) (OUT : Ring) :
  get_root_workspace s = (s, Ok root) ->
  cache_lookup (p_group_cache_key KEY (state_file root GStem)) (cache s) = Some OUT ->
  os_access_R (autosave_name OUT) (world s) = true ->
  get_p_group_from_cache_or_db GStem KEY from_scratch websource props s
  = (add_log (LogMsg "debug" "Got ring from cache")
       (if from_scratch
        then set_options (<["use_web" := OBool false]> (coho_options s)) s
        else s),
     Ok (Some OUT)).
Proof.
  intros Hroot Hcache Hdisk. unfold get_p_group_from_cache_or_db.
  unfold mbind at 1. unfold SM_bind, gets.
  unfold mbind at 1. unfold SM_bind. rewrite Hroot.
  destruct from_scratch.
  - run. unfold set_option, access_R_ok, logger, emit. run. state_simpl.
    rewrite Hcache. state_simpl. rewrite Hdisk. reflexivity.
  - run. unfold access_R_ok, logger, emit. run.
    rewrite Hcache. rewrite Hdisk. reflexivity.
Qed.

(** X12: For a group that is not of prime power order, no failure of the
    download gets out of the resolver: whatever [from_remote_sources]
    raises, a keyboard interrupt included, is recorded as an info message
    and the resolver reports a miss. *)
Theorem non_p_group_download_failure_is_a_miss (GStem : string) (pr : Z)
    (websource : websource_arg) (s s2 : state) (root : string) (e : exn) :
  let file_name := "H" +:+ GStem +:+ "mod" +:+ pretty pr +:+ ".sobj" in
  get_root_workspace s = (s, Ok root) ->
  os_access_R (path_join root file_name) (world s) = false ->
  (forall r, nonempty (local_sources s) = Some r ->
             os_access_R (path_join r file_name) (world s) = false) ->
  websource_allowed websource = true ->
  from_remote_sources GStem (websource_url websource) s = (s2, Raise e) ->
  get_non_p_group_from_db GStem pr false websource s
  = (add_log (LogMsg "info" "No cohomology ring found in web repository.") s2, Ok None).
Proof.
  intros file_name Hroot Hws Hls Hallowed Hraise. unfold get_non_p_group_from_db.
  run. rewrite Hroot. unfold access_R_ok. run. fold file_name. rewrite Hws.
  destruct (nonempty (local_sources s)) as [r|] eqn:E.
  - rewrite (Hls r eq_refl). cbn [andb negb]. rewrite Hallowed. cbn [andb].
    unfold try_except. rewrite Hraise. cbn [isinstance_BaseException].
    unfold logger, emit. run. reflexivity.
  - cbn [andb negb]. rewrite Hallowed. cbn [andb].
    unfold try_except. rewrite Hraise. cbn [isinstance_BaseException].
    unfold logger, emit. run. reflexivity.
Qed.

End Resolvers.

Lemma cache_hit_touches_nothing_witness :
  let KEY := PTuple [PInt 8; PInt 3] in
  let R := ToyRing (p_group_cache_key KEY "/ws/8gp3/dat/State") 8 8 false None in
  let s := @set_cache toy_backend toy_engine
             [(p_group_cache_key KEY "/ws/8gp3/dat/State", R)] (toy_state ["autosave"] false) in
  @get_p_group_from_cache_or_db toy_backend toy_engine "8gp3" KEY false WsNone [] s
  = (add_log (LogMsg "debug" "Got ring from cache") s, Ok (Some R)).
Proof.
  intros KEY R s.
  apply (@cache_hit_touches_nothing toy_backend toy_engine "8gp3" KEY false WsNone [] s "/ws" R).
  - reflexivity.
  - reflexivity.
  - reflexivity.
Defined.

Lemma non_p_group_download_failure_is_a_miss_witness :
  let s := toy_state [] true in
  let s2 := (@from_remote_sources toy_backend toy_engine "24gp1" None s).1 in
  @get_non_p_group_from_db toy_backend toy_engine "24gp1" 2 false WsNone s
  = (add_log (LogMsg "info" "No cohomology ring found in web repository.") s2, Ok None).
Proof.
  intros s s2.
  apply (@non_p_group_download_failure_is_a_miss toy_backend toy_engine
           "24gp1" 2 WsNone s s2 "/ws" KeyboardInterrupt).
  - reflexivity.
  - reflexivity.
  - intros r Hr. discriminate Hr.
  - reflexivity.
  - reflexivity.
Defined.

(** ** Calls that stay away from the repositories *)

Section QuietResolution.
Context {backend : GroupBackend} {engine : RingEngine}.
Variable I : state -> Prop.
Hypothesis HI : stable I.

Lemma preserves_web_tier_when (GStem : string) (websource : websource_arg) :
  preserves I (from_remote_sources GStem (websource_url websource)) ->
  preserves I (web_tier GStem websource).
Proof. intros Hremote. unfold web_tier. preserve. Qed.

Lemma preserves_p_resolver_when (GStem : string) (KEY : pyval)
    (from_scratch : bool) (websource : websource_arg) (props : list (string * pyval)) :
  websource_allowed websource = false \/
    (forall G, preserves I (from_remote_sources G (websource_url websource))) ->
  preserves I (get_p_group_from_cache_or_db GStem KEY from_scratch websource props).
Proof.
  intros [Hclosed|Hremote].
  - apply preserves_get_p_group_from_cache_or_db; [exact HI | left; exact Hclosed].
  - unfold get_p_group_from_cache_or_db.
    pose proof (preserves_web_tier_when GStem websource (Hremote GStem)).
    pose proof (preserves_finish_p_group I HI). pose proof (preserves_load_with_root I HI).
    preserve.
Qed.

Lemma preserves_non_p_resolver_when (GStem : string) (pr : Z)
    (from_scratch : bool) (websource : websource_arg) :
  websource_allowed websource = false \/
    (forall G, preserves I (from_remote_sources G (websource_url websource))) ->
  preserves I (get_non_p_group_from_db GStem pr from_scratch websource).
Proof.
  intros [Hclosed|Hremote].
  - apply preserves_get_non_p_group_from_db; [exact HI | left; exact Hclosed].
  - unfold get_non_p_group_from_db.
    pose proof (Hremote GStem). pose proof (preserves_load_with_root I HI).
    preserve.
Qed.

Lemma preserves_call_p_group_when (KEY : pyval) (q : Z) (GStem : string)
    (GroupName : option string) (k : kwds) :
  websource_allowed (kw_websource k) = false \/
    (forall G, preserves I (from_remote_sources G (websource_url (kw_websource k)))) ->
  preserves I (call_p_group KEY q GStem GroupName k).
Proof.
  intros Hweb. unfold call_p_group.
  pose proof (preserves_get_p_group_from_scratch I HI).
  pose proof (preserves_check_compatibility I HI).
  assert (preserves I (get_p_group_from_cache_or_db GStem KEY (kw_from_scratch k)
                         (if q <? 128 then WsFalse else kw_websource k) (kw_props k))).
  { apply preserves_p_resolver_when.
    destruct (q <? 128); [left; reflexivity | exact Hweb]. }
  preserve.
Qed.

Lemma preserves_call_main_when (args : descriptor) (k : kwds) :
  websource_allowed (kw_websource k) = false \/
    (forall G, preserves I (from_remote_sources G (websource_url (kw_websource k)))) ->
  preserves I (call_main args k).
Proof.
  intros Hweb. unfold call_main.
  assert (forall KEY q GStem GroupName, preserves I (call_p_group KEY q GStem GroupName k))
    by (intros; apply preserves_call_p_group_when; exact Hweb).
  assert (forall KEY q Hfinal pr GStem GroupName,
             preserves I (call_non_p_group KEY q Hfinal pr GStem GroupName k)).
  { intros KEY q Hfinal pr GStem GroupName. unfold call_non_p_group.
    pose proof (preserves_assemble I HI).
    assert (preserves I (get_non_p_group_from_db GStem pr (kw_from_scratch k) (kw_websource k)))
      by (apply preserves_non_p_resolver_when; exact Hweb).
    preserve. }
  preserve.
Qed.

(** [I] does not look at the options. *)
Hypothesis HIo : forall s o, I s -> I (set_options o s).

Lemma preserves_call_when (args : descriptor) (k : kwds) :
  websource_allowed (kw_websource k) = false \/
    (forall G, preserves I (from_remote_sources G (websource_url (kw_websource k)))) ->
  preserves I (call args k).
Proof.
  intros Hweb. unfold call.
  pose proof (preserves_call_main_when args k Hweb).
  assert (preserves I (apply_options (kw_options k))).
  { unfold apply_options. destruct (kw_options k); [preserve|..];
      intros s0 Hs0; apply HIo, Hs0. }
  preserve.
Qed.

End QuietResolution.

Section NoDownload.
Context {backend : GroupBackend} {engine : RingEngine}.

(** X13: For a group of prime power order, [websource=False] closes the remote
    tier: the call makes no download, however it ends. *)
Theorem websource_False_never_fetches (args : descriptor) (k : kwds) (s : state)
    (q : Z) (Hfinal : Group) :
  check_arguments args (kw_minimal_generators k) (kw_GroupId k) = Ok (q, Hfinal) ->
  is_prime_power q = true ->
  kw_websource k = WsFalse ->
  fetches (log (call args k s).1) = fetches (log s).
Proof.
  intros Hcheck Hpp Hws.
  assert (preserves (same_fetches (fetches (log s))) (call_main args k)) as Hmain.
  { pose proof (stable_same_fetches (fetches (log s))) as HI.
    unfold call_main. rewrite Hcheck.
    apply preserves_lift_bind. intros [q' Hfinal'] [= <- <-].
    apply preserves_bind; [preserve|]. intros KEY.
    apply preserves_bind; [preserve|]. intros args'.
    unfold required_prime. rewrite Hpp.
    apply preserves_lift_bind. intros pr [= <-].
    apply preserves_bind; [preserve|]. intros GStem.
    apply preserves_call_p_group_when; [exact HI|]. left. rewrite Hws. reflexivity. }
  unfold call. destruct (kw_root k); [reflexivity|].
  run.
  destruct (apply_options (kw_options k) s) as [s1 [[]|e]] eqn:Eopts.
  - assert (log s1 = log s) as Hlog
      by (rewrite <- (apply_options_log (kw_options k) s), Eopts; reflexivity).
    destruct (kw_from_scratch k).
    + unfold set_option. run.
      apply Hmain. unfold same_fetches. state_simpl. rewrite Hlog. reflexivity.
    + apply Hmain. unfold same_fetches. rewrite Hlog. reflexivity.
  - cbn. rewrite <- (apply_options_log (kw_options k) s), Eopts. reflexivity.
Qed.

End NoDownload.

Lemma websource_False_never_fetches_witness :
  let s := toy_state [] false in
  fetches (log (@call toy_backend toy_engine (ExplicitGroup (cyclic 128))
                  (toy_kwds_subgroup 8) s).1)
  = fetches (log s).
Proof.
  intros s.
  apply (@websource_False_never_fetches toy_backend toy_engine
           (ExplicitGroup (cyclic 128)) (toy_kwds_subgroup 8) s 128 (cyclic 128)).
  - reflexivity.
  - reflexivity.
  - reflexivity.
Defined.

(** ** The configuration of the factory *)

Section Configuration.
Context {backend : GroupBackend} {engine : RingEngine}.
Variable I : state -> Prop.
Hypothesis HI : stable I.

(** [I] does not look at the log or at the options. *)
Hypothesis HIlog : forall s e, I s -> I (add_log e s).
Hypothesis HIo : forall s o, I s -> I (set_options o s).

Lemma preserves_emit_any (e : event) : preserves I (emit e).
Proof. intros s Hs. apply HIlog, Hs. Qed.

Lemma preserves_remote_loop (GStem root : string) (urls : list string) (OUT : option Ring) :
  preserves I (remote_loop GStem root urls OUT).
Proof.
  revert OUT. induction urls as [|URL urls IH]; intros OUT; cbn [remote_loop]; [preserve|].
  repeat first [ apply preserves_emit_any | apply IH | preserve_step ].
Qed.

Lemma preserves_from_remote_sources_any (GStem : string) (websource : option string) :
  preserves I (from_remote_sources GStem websource).
Proof.
  unfold from_remote_sources. pose proof preserves_remote_loop.
  repeat first [ apply preserves_emit_any | preserve_step ].
Qed.

Lemma preserves_call_any (args : descriptor) (k : kwds) : preserves I (call args k).
Proof.
  apply (preserves_call_when I HI HIo). right. intros G.
  apply preserves_from_remote_sources_any.
Qed.

End Configuration.

Section ConfigurationOfCall.
Context {backend : GroupBackend} {engine : RingEngine}.

(** X14: [__call__] reads the workspace, the local sources, the remote sources
    and the flag [_create_local_sources], and never sets them: they are the
    same after the call, whether it returns a ring or raises. *)
Theorem call_keeps_configuration (args : descriptor) (k : kwds) (s : state) :
  let s' := (call args k s).1 in
  workspace s' = workspace s /\ local_sources s' = local_sources s /\
  remote_sources s' = remote_sources s /\
  create_local_sources s' = create_local_sources s.
Proof.
  cbv zeta.
  apply (preserves_call_any
           (fun s' => workspace s' = workspace s /\ local_sources s' = local_sources s /\
                      remote_sources s' = remote_sources s /\
                      create_local_sources s' = create_local_sources s)).
  - split; intros; assumption.
  - intros; assumption.
  - intros; assumption.
  - repeat split.
Qed.

End ConfigurationOfCall.

(** ** Workspace, local sources and remote sources *)

Section FolderFacts.
Context `{FolderEnv}.

(** X15: [set_workspace] does not take over a path that exists and is a file, or
    a folder that cannot be written: it raises [OSError] and changes
    nothing. *)
Theorem set_workspace_refuses_unusable_path (p : string) (s : state) :
  os_exists p (world s) = true ->
  os_isdir p (world s) = false \/ os_access_W p (world s) = false ->
  exists msg, set_workspace (WorkspacePath p) s = (s, Raise (OSError msg)).
Proof.
  intros Hex Hbad. unfold set_workspace. run. rewrite Hex.
  destruct (os_isdir p (world s)) eqn:Edir; cbn [negb].
  - destruct Hbad as [Hbad|Hbad]; [discriminate|]. rewrite Hbad. cbn [negb]. eauto.
  - eauto.
Qed.

(** X16: After a successful [set_workspace(p)], [get_workspace()] is [p]; when
    the path existed before, it is a writeable folder and nothing else has
    changed. *)
Theorem set_then_get_workspace (p : string) (s s' : state) :
  set_workspace (WorkspacePath p) s = (s', Ok tt) ->
  get_workspace s' = (s', Ok p) /\
  (os_exists p (world s) = true ->
   os_isdir p (world s) = true /\ os_access_W p (world s) = true /\
   s' = set_workspace_attr p s).
Proof.
  unfold set_workspace, get_workspace. run.
  destruct (os_exists p (world s)) eqn:Eex.
  - destruct (os_isdir p (world s)) eqn:Edir; cbn [negb]; [|discriminate].
    destruct (os_access_W p (world s)) eqn:Ew; cbn [negb]; [|discriminate].
    intros [= <-]. split; [reflexivity|]. intros _. repeat split.
  - unfold outside. destruct (os_makedirs p (world s)) as [w [[]|e]]; [|discriminate].
    intros [= <-]. split; [reflexivity | discriminate].
Qed.

Lemma set_local_sources_no_folder (p : string) (s : state) :
  p <> "" ->
  os_exists (os_realpath p (world s)) (world s) = true ->
  os_isdir (os_realpath p (world s)) (world s) = false ->
  set_local_sources (FolderStr p) s
  = (set_create_local_sources true s,
     Raise (OSError ("'" +:+ os_realpath p (world s) +:+ "' is no folder"))).
Proof.
  intros Hp Hex Hdir. unfold set_local_sources.
  destruct p as [|c p]; [contradiction|].
  run. cbn [world set_create_local_sources]. rewrite Hex. run.
  cbn [world set_create_local_sources]. rewrite Hdir. reflexivity.
Qed.

(** X17: [set_local_sources] switches the flag [_create_local_sources] on before
    it looks at the folder.  When the path exists and is no folder, it
    raises [OSError] with the flag left on, while [COHO.local_sources] still
    names the old folder. *)
Theorem set_local_sources_no_folder_leaves_flag_on (p : string) (s : state) :
  p <> "" ->
  let folder := os_realpath p (world s) in
  os_exists folder (world s) = true ->
  os_isdir folder (world s) = false ->
  exists s',
    set_local_sources (FolderStr p) s
    = (s', Raise (OSError ("'" +:+ folder +:+ "' is no folder"))) /\
    create_local_sources s' = true /\ local_sources s' = local_sources s /\
    world s' = world s /\ log s' = log s.
Proof.
  intros Hp folder Hex Hdir. subst folder.
  rewrite (set_local_sources_no_folder p s Hp Hex Hdir).
  eexists. split; [reflexivity|]. repeat split.
Qed.

(** X18: A folder that exists but cannot be written becomes the local sources
    in read-only mode: a warning is logged and the flag ends up off. *)
Theorem set_local_sources_read_only_folder (p : string) (s : state) :
  p <> "" ->
  let folder := os_realpath p (world s) in
  os_exists folder (world s) = true ->
  os_isdir folder (world s) = true ->
  os_access_W folder (world s) = false ->
  exists s', set_local_sources (FolderStr p) s = (s', Ok tt) /\
    create_local_sources s' = false /\ local_sources s' = Some folder /\
    world s' = world s /\
    log s' = log s ++ [LogMsg "warning" ("WARNING: '" +:+ folder +:+ "' is not writeable")].
Proof.
  intros Hp folder Hex Hdir Hw. subst folder. unfold set_local_sources.
  destruct p as [|c p]; [contradiction|].
  run. cbn [world set_create_local_sources]. rewrite Hex. run.
  cbn [world set_create_local_sources]. rewrite Hdir. run.
  cbn [world set_create_local_sources]. rewrite Hw.
  cbn [negb]. unfold logger, emit. run.
  eexists. split; [reflexivity|]. repeat split.
Qed.

(** X19: [from_local_sources] switches to the local sources before its [try]
    block.  When the folder of the local sources turns out to be no folder,
    the call raises [OSError] and the flag [_create_local_sources], which
    was off, stays on. *)
Theorem from_local_sources_failure_leaves_flag_on (args : descriptor) (k : kwds)
    (p : string) (s : state) :
  create_local_sources s = false ->
  local_sources s = Some p ->
  p <> "" ->
  let folder := os_realpath p (world s) in
  os_exists folder (world s) = true ->
  os_isdir folder (world s) = false ->
  from_local_sources args k s
  = (set_create_local_sources true s, Raise (OSError ("'" +:+ folder +:+ "' is no folder"))).
Proof.
  intros Hflag Hls Hp folder Hex Hdir. unfold from_local_sources.
  unfold mbind at 1. unfold SM_bind, gets. rewrite Hflag. cbn [negb].
  unfold mbind at 1. unfold SM_bind.
  unfold mbind at 1. unfold SM_bind, get_local_sources, gets. rewrite Hls.
  rewrite (set_local_sources_no_folder p s Hp Hex Hdir). reflexivity.
Qed.

End FolderFacts.

Lemma set_workspace_refuses_unusable_path_witness :
  let s := toy_state ["/ws/H8gp3.sobj"] false in
  exists msg, @set_workspace toy_backend toy_engine toy_folders
                (WorkspacePath "/ws/H8gp3.sobj") s = (s, Raise (OSError msg)).
Proof.
  intros s.
  apply (@set_workspace_refuses_unusable_path toy_backend toy_engine toy_folders
           "/ws/H8gp3.sobj" s).
  - reflexivity.
  - left. reflexivity.
Defined.

Lemma set_then_get_workspace_witness :
  let s := toy_state [] false in
  let s' := (@set_workspace toy_backend toy_engine toy_folders (WorkspacePath "/new/") s).1 in
  @get_workspace toy_backend toy_engine s' = (s', Ok "/new/").
Proof.
  intros s s'.
  apply (@set_then_get_workspace toy_backend toy_engine toy_folders "/new/" s s').
  reflexivity.
Defined.

Lemma set_local_sources_no_folder_leaves_flag_on_witness :
  let s := toy_state ["/share/db"] false in
  create_local_sources s = false /\
  exists s',
    @set_local_sources toy_backend toy_engine toy_folders (FolderStr "/share/db") s
    = (s', Raise (OSError "'/share/db' is no folder")) /\
    create_local_sources s' = true /\ local_sources s' = local_sources s /\
    world s' = world s /\ log s' = log s.
Proof.
  intros s. split; [reflexivity|].
  apply (@set_local_sources_no_folder_leaves_flag_on toy_backend toy_engine toy_folders
           "/share/db" s).
  - discriminate.
  - reflexivity.
  - reflexivity.
Defined.

Lemma set_local_sources_read_only_folder_witness :
  let s := toy_state ["/readonly/db/"] false in
  exists s',
    @set_local_sources toy_backend toy_engine toy_folders (FolderStr "/readonly/db/") s
    = (s', Ok tt) /\
    create_local_sources s' = false /\ local_sources s' = Some "/readonly/db/".
Proof.
  intros s.
  destruct (@set_local_sources_read_only_folder toy_backend toy_engine toy_folders
              "/readonly/db/" s) as (s' & Hrun & Hflag & Hls & _).
  - discriminate.
  - reflexivity.
  - reflexivity.
  - reflexivity.
  - exists s'. split; [exact Hrun|]. split; [exact Hflag | exact Hls].
Defined.

Lemma from_local_sources_failure_leaves_flag_on_witness :
  let s := @set_local_sources_attr toy_backend toy_engine (Some "/share/db")
             (toy_state ["/share/db"] false) in
  create_local_sources s = false /\
  exists msg,
    @from_local_sources toy_backend toy_engine toy_folders
      (ExplicitGroup (cyclic 8)) toy_kwds s
    = (set_create_local_sources true s, Raise (OSError msg)).
Proof.
  intros s. split; [reflexivity|]. eexists.
  apply (@from_local_sources_failure_leaves_flag_on toy_backend toy_engine toy_folders
           (ExplicitGroup (cyclic 8)) toy_kwds "/share/db" s).
  - reflexivity.
  - reflexivity.
  - discriminate.
  - reflexivity.
  - reflexivity.
Defined.

Section WorkspaceOnly.
Context {backend : GroupBackend} {engine : RingEngine} {folders : FolderEnv}.

(** X20: [from_workspace] puts the local sources, the remote sources and the
    flag [_create_local_sources] back as they were, whether the call
    returns a ring or raises; the workspace is not touched either. *)
Theorem from_workspace_restores_configuration (args : descriptor) (k : kwds) (s : state) :
  let s' := (from_workspace args k s).1 in
  create_local_sources s' = create_local_sources s /\
  local_sources s' = local_sources s /\
  remote_sources s' = remote_sources s /\
  workspace s' = workspace s.
Proof.
  cbv zeta. unfold from_workspace, set_local_sources. run. unfold try_finally.
  match goal with |- context [call args k ?s1] =>
    assert (workspace (call args k s1).1 = workspace s) as Hws
      by (apply (preserves_call_any (fun s' => workspace s' = workspace s));
          [split; intros; assumption | intros; assumption | intros; assumption
          | reflexivity]);
    destruct (call args k s1) as [s2 r]
  end.
  cbn [fst] in Hws.
  run. cbn. repeat split. exact Hws.
Qed.

Lemma from_remote_sources_no_urls (GStem : string) (s : state) :
  remote_sources s = [] -> (from_remote_sources GStem None s).1 = s.
Proof.
  intros Hnone. unfold from_remote_sources. run.
  destruct (negb (opt_truthy (coho_options s !! "use_web"))); [reflexivity|].
  unfold get_root_workspace.
  destruct (create_local_sources s); [destruct (local_sources s)|];
    cbn; rewrite ?Hnone; reflexivity.
Qed.

Lemma preserves_call_without_repositories (L : list event) (args : descriptor) (k : kwds) :
  (forall url, kw_websource k <> WsStr url) ->
  preserves (fun s => remote_sources s = [] /\ same_fetches L s) (call args k).
Proof.
  intros Hws.
  apply preserves_call_when.
  - pose proof (stable_same_fetches L) as HL.
    split; intros; match goal with Hc : _ /\ _ |- _ => destruct Hc as [Hr Hf] end;
      (split; [exact Hr|]);
      first [ apply (stable_world _ HL) | apply (stable_cache _ HL)
            | apply (stable_log _ HL) | apply (stable_web_off _ HL)
            | apply (stable_insert _ HL) | apply (stable_delete _ HL) ]; assumption.
  - intros s0 o Hs0. exact Hs0.
  - destruct (kw_websource k) as [| |url|] eqn:E.
    + right. intros G s0 [Hr Hf]. cbn [websource_url].
      rewrite (from_remote_sources_no_urls G s0 Hr). split; assumption.
    + left. reflexivity.
    + exfalso. apply (Hws url). reflexivity.
    + right. intros G s0 [Hr Hf]. cbn [websource_url].
      rewrite (from_remote_sources_no_urls G s0 Hr). split; assumption.
Qed.

(** X21: Unless the keyword [websource] names a URL, the resolver tiers that
    [from_workspace] runs make no download: the call runs with an empty
    tuple of remote sources.  (The rings of subgroups are computed behind
    the interface of the ring engine; the log does not show them.) *)
Theorem from_workspace_never_fetches (args : descriptor) (k : kwds) (s : state) :
  (forall url, kw_websource k <> WsStr url) ->
  fetches (log (from_workspace args k s).1) = fetches (log s).
Proof.
  intros Hws. unfold from_workspace, set_local_sources. run. unfold try_finally.
  match goal with |- context [call args k ?s1] =>
    pose proof (preserves_call_without_repositories (fetches (log s)) args k Hws s1) as Hcall;
    destruct (call args k s1) as [s2 r]
  end.
  run. cbn. apply Hcall. split; reflexivity.
Qed.

Lemma set_workspace_frame (a : workspace_arg) (s : state) :
  let s' := (set_workspace a s).1 in
  cache s' = cache s /\ coho_options s' = coho_options s /\
  remote_sources s' = remote_sources s /\
  create_local_sources s' = create_local_sources s /\
  local_sources s' = local_sources s.
Proof.
  cbv zeta. unfold set_workspace. destruct a as [|p|]; [| |repeat split]; run.
  - match goal with |- context [os_exists ?q ?w] => destruct (os_exists q w) end; run.
    + match goal with |- context [os_isdir ?q ?w] => destruct (os_isdir q w) end;
        cbn [negb]; run; [|repeat split].
      match goal with |- context [os_access_W ?q ?w] => destruct (os_access_W q w) end;
        cbn [negb]; repeat split.
    + unfold outside.
      match goal with |- context [os_makedirs ?q ?w] =>
        destruct (os_makedirs q w) as [w' [[]|e]] end; repeat split.
  - destruct (os_exists p (world s)); run.
    + destruct (os_isdir p (world s)); cbn [negb]; run; [|repeat split].
      destruct (os_access_W p (world s)); cbn [negb]; repeat split.
    + unfold outside. destruct (os_makedirs p (world s)) as [w' [[]|e]]; repeat split.
Qed.

Lemma set_workspace_remote_sources (a : workspace_arg) (s : state) :
  remote_sources (set_workspace a s).1 = remote_sources s.
Proof. apply (set_workspace_frame a s). Qed.

Lemma set_local_sources_frame (a : folder_arg) (s : state) :
  let s' := (set_local_sources a s).1 in
  cache s' = cache s /\ coho_options s' = coho_options s /\
  remote_sources s' = remote_sources s /\ workspace s' = workspace s.
Proof.
  cbv zeta. unfold set_local_sources.
  assert (forall t : string,
    let s' := ((_ ← modify (set_create_local_sources true);
      folder ← gets (fun s0 => os_realpath t (world s0));
      folder_exists ← gets (fun s0 => os_exists folder (world s0));
      _ ← (if (folder_exists : bool) then
             folder_isdir ← gets (fun s0 => os_isdir folder (world s0));
             if (folder_isdir : bool) then
               writeable ← gets (fun s0 => os_access_W folder (world s0));
               if negb (writeable : bool) then
                 _ ← logger "warning" ("WARNING: '" +:+ folder +:+ "' is not writeable");
                 modify (set_create_local_sources false)
               else mret tt
             else raise (OSError ("'" +:+ folder +:+ "' is no folder"))
           else outside (os_makedirs folder));
      modify (set_local_sources_attr (Some folder))) s).1 in
    cache s' = cache s /\ coho_options s' = coho_options s /\
    remote_sources s' = remote_sources s /\ workspace s' = workspace s) as Hbody.
  { intros t. cbv zeta. run. cbn [world set_create_local_sources].
    destruct (os_exists (os_realpath t (world s)) (world s)); run.
    - cbn [world set_create_local_sources].
      destruct (os_isdir (os_realpath t (world s)) (world s)); run; [|repeat split].
      cbn [world set_create_local_sources].
      destruct (os_access_W (os_realpath t (world s)) (world s)); cbn [negb];
        unfold logger, emit; run; repeat split.
    - unfold outside. cbn [world set_create_local_sources].
      destruct (os_makedirs (os_realpath t (world s)) (world s)) as [w' [[]|e]];
        repeat split. }
  destruct a as [| |t]; [apply Hbody | repeat split |].
  destruct t as [|c t]; [repeat split | apply Hbody].
Qed.

(** X22: After [doctest_setup] the tuple of remote sources is empty, and the
    resolver tiers of a call without a URL in the keyword [websource] make
    no download. *)
Theorem doctest_setup_closes_the_web (s s1 : state) :
  doctest_setup s = (s1, Ok tt) ->
  remote_sources s1 = [] /\
  forall args k, (forall url, kw_websource k <> WsStr url) ->
    fetches (log (call args k s1).1) = fetches (log s1).
Proof.
  intros Hsetup.
  assert (remote_sources s1 = []) as Hnone.
  { revert Hsetup. unfold doctest_setup.
    unfold mbind at 1. unfold SM_bind. destruct (reset s) as [sa [[]|e]]; [|discriminate].
    unfold mbind at 1. unfold SM_bind. cbn [set_remote_sources modify].
    unfold mbind at 1. unfold SM_bind, outside.
    destruct (tmp_dir _) as [w [d|e]]; [|discriminate].
    intros Hset.
    pose proof (set_workspace_remote_sources (WorkspacePath d)
                  (set_world w (set_remote_sources_attr [] sa))) as Hkeep.
    rewrite Hset in Hkeep. exact Hkeep. }
  split; [exact Hnone|]. intros args k Hws.
  apply (preserves_call_without_repositories (fetches (log s1)) args k Hws s1).
  split; [exact Hnone | reflexivity].
Qed.

(** X23: A successful [reset] empties the cache, restores the default options
    and the default repository, and leaves the local sources read-only. *)
Theorem reset_postcondition (s s1 : state) :
  reset s = (s1, Ok tt) ->
  cache s1 = [] /\ coho_options s1 = default_options /\
  remote_sources s1 = ["http://cohomology.uni-jena.de/db/"] /\
  create_local_sources s1 = false.
Proof.
  unfold reset.
  unfold mbind at 1. unfold SM_bind. cbn [modify].
  unfold mbind at 1. unfold SM_bind.
  pose proof (set_local_sources_frame FolderDefault (set_cache [] s)) as Ha.
  destruct (set_local_sources FolderDefault (set_cache [] s)) as [sa [[]|e]]; [|discriminate].
  cbv zeta in Ha. cbn [fst] in Ha. destruct Ha as (Hca & _).
  unfold mbind at 1. unfold SM_bind. cbn [set_local_sources modify].
  unfold mbind at 1. unfold SM_bind.
  pose proof (set_workspace_frame WorkspaceDefault (set_create_local_sources false sa)) as Hb.
  destruct (set_workspace WorkspaceDefault (set_create_local_sources false sa))
    as [sb [[]|e]]; [|discriminate].
  cbv zeta in Hb. cbn [fst] in Hb. destruct Hb as (Hcb & _ & _ & Hfb & _).
  unfold mbind at 1. unfold SM_bind. cbn [set_remote_sources modify].
  unfold mbind at 1. unfold SM_bind. cbn [modify].
  unfold outside. cbn [world set_options set_remote_sources_attr].
  destruct (reset_sessions (world sb)) as [w [[]|e]]; [|discriminate].
  intros [= <-]. cbn. rewrite Hcb, Hfb. cbn. rewrite Hca. repeat split.
Qed.

End WorkspaceOnly.

Lemma from_workspace_never_fetches_witness :
  let s := toy_state [] false in
  fetches (log (@from_workspace toy_backend toy_engine toy_folders
                  (ExplicitGroup (cyclic 128)) toy_kwds s).1)
  = fetches (log s).
Proof.
  intros s.
  apply (@from_workspace_never_fetches toy_backend toy_engine toy_folders
           (ExplicitGroup (cyclic 128)) toy_kwds s).
  intros url. discriminate.
Defined.

Lemma doctest_setup_closes_the_web_witness :
  let s := toy_state [] false in
  let s1 := (@doctest_setup toy_backend toy_engine toy_folders s).1 in
  remote_sources s1 = [] /\
  fetches (log (@call toy_backend toy_engine (ExplicitGroup (cyclic 128)) toy_kwds s1).1)
  = fetches (log s1).
Proof.
  intros s s1.
  assert (@doctest_setup toy_backend toy_engine toy_folders s = (s1, Ok tt)) as Hrun.
  { unfold s1.
    assert ((@doctest_setup toy_backend toy_engine toy_folders s).2 = Ok tt) as Hok
      by reflexivity.
    destruct (@doctest_setup toy_backend toy_engine toy_folders s) as [s' r].
    cbn [fst snd] in *. rewrite Hok. reflexivity. }
  destruct (@doctest_setup_closes_the_web toy_backend toy_engine toy_folders s s1 Hrun)
    as [Hnone Hquiet].
  split; [exact Hnone|]. apply Hquiet. intros url. discriminate.
Defined.

Lemma reset_postcondition_witness :
  let s := toy_state [] false in
  let s1 := (@reset toy_backend toy_engine toy_folders s).1 in
  cache s1 = [] /\ coho_options s1 = {[ "use_web" := OBool true ]} /\
  remote_sources s1 = ["http://cohomology.uni-jena.de/db/"] /\
  create_local_sources s1 = false.
Proof.
  intros s s1.
  assert (@reset toy_backend toy_engine toy_folders s = (s1, Ok tt)) as Hrun.
  { unfold s1.
    assert ((@reset toy_backend toy_engine toy_folders s).2 = Ok tt) as Hok
      by reflexivity.
    destruct (@reset toy_backend toy_engine toy_folders s) as [s' r].
    cbn [fst snd] in *. rewrite Hok. reflexivity. }
  exact (@reset_postcondition toy_backend toy_engine toy_folders s s1 Hrun).
Defined.

(** ** More on [__call__] *)

Section CallFacts.
Context {backend : GroupBackend} {engine : RingEngine}.

Lemma apply_options_frame (opts : options_arg) (s : state) :
  exists o, apply_options opts s = (set_options o s, Ok tt).
Proof.
  destruct opts; cbn [apply_options]; unfold modify, mret, SM_ret; eauto.
  exists (coho_options s). destruct s; reflexivity.
Qed.

(** X24: For a group whose order is no prime power the keyword [prime] must give
    a prime divisor of the order.  Otherwise the call raises [ValueError]
    before any resolver runs: the cache is as before, and apart from log
    records the call has left no event, so that nothing has been loaded,
    saved, linked, fetched or constructed. *)
Theorem call_without_suitable_prime (args args' : descriptor) (k : kwds) (s : state)
    (q : Z) (Hfinal : Group) (KEY : pyval) :
  kw_root k = false ->
  check_arguments args (kw_minimal_generators k) (kw_GroupId k) = Ok (q, Hfinal) ->
  create_group_key args (kw_GroupId k) (kw_GroupDefinition k) = Ok KEY ->
  arguments_from_key KEY Hfinal = Ok args' ->
  is_prime_power q = false ->
  (forall pr, kw_prime k = Some pr -> is_prime pr = false \/ divides pr q = false) ->
  exists msg s1, call args k s = (s1, Raise (ValueError msg)) /\
    cache s1 = cache s /\ only_records_added (log s) (log s1).
Proof.
  intros Hroot Hcheck Hkey Hargs Hpp Hprime.
  assert (exists msg, required_prime q (kw_prime k) = Raise (ValueError msg)) as [msg Hreq].
  { unfold required_prime. rewrite Hpp.
    destruct (kw_prime k) as [pr|]; [|eauto].
    destruct (Hprime pr eq_refl) as [Hp|Hd].
    - rewrite Hp. cbn [negb]. eauto.
    - destruct (is_prime pr); cbn [negb]; [|eauto]. rewrite Hd. cbn [negb]. eauto. }
  assert (forall s0, call_main args k s0 = (s0, Raise (ValueError msg))) as Hmain.
  { intros s0. unfold call_main. rewrite Hcheck, Hkey. run. rewrite Hargs, Hreq. reflexivity. }
  unfold call. rewrite Hroot.
  destruct (apply_options_frame (kw_options k) s) as [o Ho].
  unfold mbind at 1. unfold SM_bind. rewrite Ho.
  unfold mbind at 1. unfold SM_bind.
  destruct (kw_from_scratch k).
  - unfold set_option, modify. rewrite Hmain. do 2 eexists. split; [reflexivity|].
    split; [reflexivity|]. intros e He. left. exact He.
  - unfold mret, SM_ret. rewrite Hmain. do 2 eexists. split; [reflexivity|].
    split; [reflexivity|]. intros e He. left. exact He.
Qed.

Lemma check_compatibility_accepts (CacheKey : pyval) (R R' : Ring) (s s' : state) :
  check_compatibility CacheKey R s = (s', Ok R') ->
  R' = R /\ exists sim, IsKeyEquivalent CacheKey (ring_key R) = Ok sim /\ sim <> 0.
Proof.
  unfold check_compatibility. run.
  destruct (IsKeyEquivalent CacheKey (ring_key R)) as [sim|e]; [|discriminate].
  destruct (sim =? 1) eqn:E1.
  - unfold logger, emit. run. intros [= _ <-]. split; [reflexivity|].
    exists sim. split; [reflexivity|]. apply Z.eqb_eq in E1. lia.
  - destruct (sim =? 0) eqn:E0; [discriminate|].
    intros [= _ <-]. split; [reflexivity|].
    exists sim. split; [reflexivity|]. apply Z.eqb_neq in E0. exact E0.
Qed.

(** X25: A ring that the factory returns for a group of prime power order has
    passed the comparison with the cache key of the request: the two keys
    do not compare as different (value 0). *)
Theorem call_p_group_result_matches_key (KEY : pyval) (q : Z) (GStem : string)
    (GroupName : option string) (k : kwds) (s s' : state) (root : string) (R : Ring) :
  get_root_workspace s = (s, Ok root) ->
  call_p_group KEY q GStem GroupName k s = (s', Ok R) ->
  exists sim,
    IsKeyEquivalent (p_group_cache_key KEY (state_file root GStem)) (ring_key R) = Ok sim /\
    sim <> 0.
Proof.
  intros Hroot. unfold call_p_group.
  unfold mbind at 1. unfold SM_bind. rewrite Hroot.
  unfold mbind at 1. unfold SM_bind.
  destruct (get_p_group_from_cache_or_db _ _ _ _ _ s) as [s1 [found|e]]; [|discriminate].
  unfold mbind at 1. unfold SM_bind.
  match goal with |- context [match ?m s1 with _ => _ end] =>
    destruct (m s1) as [s2 [R0|e]]; [|discriminate] end.
  intros Hc. apply check_compatibility_accepts in Hc as [-> (sim & Hsim & Hne)].
  exists sim. split; [exact Hsim | exact Hne].
Qed.

End CallFacts.

Lemma call_without_suitable_prime_witness :
  let s := toy_state [] false in
  exists msg s1,
    @call toy_backend toy_engine (ExplicitGroup (cyclic 24)) toy_kwds s
    = (s1, Raise (ValueError msg)) /\
    cache s1 = cache s /\ only_records_added (log s) (log s1).
Proof.
  intros s.
  apply (@call_without_suitable_prime toy_backend toy_engine
           (ExplicitGroup (cyclic 24)) (SmallGroupAddress 24 1) toy_kwds s
           24 (cyclic 24) (PTuple [PInt 24; PInt 1])).
  - reflexivity.
  - reflexivity.
  - reflexivity.
  - reflexivity.
  - reflexivity.
  - intros pr Hpr. discriminate Hpr.
Defined.

Lemma call_p_group_result_matches_key_witness :
  let s := toy_state [] false in
  let KEY := PTuple [PInt 8; PInt 1] in
  exists s' R sim,
    @call_p_group toy_backend toy_engine KEY 8 "8gp1" None toy_kwds s = (s', Ok R) /\
    @IsKeyEquivalent toy_backend (p_group_cache_key KEY (state_file "/ws" "8gp1")) (toy_key R)
    = Ok sim /\ sim <> 0.
Proof.
  intros s KEY.
  assert (exists R, (@call_p_group toy_backend toy_engine KEY 8 "8gp1" None toy_kwds s).2
                    = Ok R) as [R HR] by (eexists; reflexivity).
  destruct (@call_p_group toy_backend toy_engine KEY 8 "8gp1" None toy_kwds s)
    as [s' res] eqn:E.
  cbn [snd] in HR. subst res.
  destruct (@call_p_group_result_matches_key toy_backend toy_engine
              KEY 8 "8gp1" None toy_kwds s s' "/ws" R) as (sim & Hsim & Hv).
  - reflexivity.
  - exact E.
  - exists s', R, sim. split; [reflexivity|]. split; [exact Hsim | exact Hv].
Defined.

(** ** Names of a subgroup tower *)

Section TowerNames.
Context {backend : GroupBackend} {engine : RingEngine}.

Lemma tower_names_tuple (n : nat) (p : Z) (l : list (option string)) (r : pyseq) :
  tower_names n p (NamesTuple l) = Ok r -> r = PyTuple l.
Proof.
  cbn [tower_names]. destruct (negb (List.length l =? n)%nat); [discriminate|].
  intros [= <-]. reflexivity.
Qed.

Lemma tower_descrs_tuple (n : nat) (p : Z) (l : list (option string)) (r : pyseq) :
  tower_descrs n p (NamesTuple l) = Ok r -> r = PyTuple l.
Proof.
  cbn [tower_descrs]. destruct (negb (List.length l =? n)%nat); [discriminate|].
  intros [= <-]. reflexivity.
Qed.

Lemma pop_names_tuple (GroupNames GroupDescrs : pyseq) :
  (exists l, GroupNames = PyTuple l) \/ (exists l, GroupDescrs = PyTuple l) ->
  exists e, pop_names GroupNames GroupDescrs = Raise e.
Proof.
  intros [[l ->]|[l ->]]; unfold pop_names; run_result.
  - cbn [pop0]. eauto.
  - destruct (pop0 GroupNames) as [[name rest]|e]; [cbn [pop0]|]; eauto.
Qed.

(** X26: The names of the tower are taken off the front of the sequence with
    [pop(0)], which a tuple does not have: with [GroupName] or [GroupDescr]
    given as a tuple, [from_subgroup_tower] raises before any ring is
    computed, and the state is as before. *)
Theorem from_subgroup_tower_tuple_of_names_fails (args : list Group)
    (GroupName GroupDescr : names_arg) (k : kwds) (s : state) :
  (exists l, GroupName = NamesTuple l) \/ (exists l, GroupDescr = NamesTuple l) ->
  exists e, from_subgroup_tower args GroupName GroupDescr k s = (s, Raise e).
Proof.
  intros Htuple. unfold from_subgroup_tower.
  destruct args as [|G0 [|G1 args]]; [unfold raise; eauto | unfold raise; eauto |].
  destruct (negb (is_prime_power (Order G0))); [unfold raise; eauto|].
  cbv zeta. run.
  destruct (tower_names _ _ GroupName) as [GroupNames|e] eqn:En; [|eauto].
  destruct (tower_descrs _ _ GroupDescr) as [GroupDescrs|e] eqn:Ed; [|eauto].
  destruct (check_nested _) as [[]|e]; [|eauto].
  match goal with |- context [if ?b then _ else _] => destruct b; [eauto|] end.
  match goal with |- context [if ?b then _ else _] => destruct b; [eauto|] end.
  destruct (pop_names_tuple GroupNames GroupDescrs) as [e He].
  { destruct Htuple as [[l ->]|[l ->]].
    - left. exists l. eapply tower_names_tuple, En.
    - right. exists l. eapply tower_descrs_tuple, Ed. }
  rewrite He. eauto.
Qed.

End TowerNames.

Lemma from_subgroup_tower_tuple_of_names_fails_witness :
  let s := toy_state [] false in
  exists e,
    @from_subgroup_tower toy_backend toy_engine [cyclic 8; cyclic 120]
      (NamesTuple [Some "Syl"; Some "G"]) NamesNone toy_kwds s = (s, Raise e).
Proof.
  intros s.
  apply (@from_subgroup_tower_tuple_of_names_fails toy_backend toy_engine
           [cyclic 8; cyclic 120] (NamesTuple [Some "Syl"; Some "G"]) NamesNone toy_kwds s).
  left. eexists. reflexivity.
Defined.

(** ** Refusals of the mirror *)

Section MirrorRefusals.
Variable names : list string.
Variable readable : path -> bool.
Variable writable : path -> bool.
Variable link_limit : nat.

(** X27: The source of the mirror has to be a folder that can be read: anything
    else is refused with [ValueError] before the target is looked at. *)
Theorem symlink_to_database_needs_readable_folder (depth : nat) (publ priv : path) (f : fs) :
  plain f publ ->
  f publ <> Some Dir \/ readable publ = false ->
  symlink_to_database names readable writable link_limit (S depth) publ priv f
  = Raise (ValueError (path_str publ +:+ " is supposed to be a readable folder")).
Proof.
  intros Hplain Hbad. cbn [symlink_to_database].
  rewrite (realpath_plain link_limit f publ Hplain).
  assert (access_R readable link_limit f publ && isdir link_limit f publ = false) as ->;
    [|reflexivity].
  unfold access_R, isdir, stat. rewrite (realpath_plain link_limit f publ Hplain).
  destruct Hbad as [Hnd|Hr].
  - apply andb_false_iff. right. destruct (f publ) as [[| |t]|]; try reflexivity.
    contradiction.
  - rewrite Hr. apply andb_false_iff. left. apply andb_false_r.
Qed.

(** X28: A target that is a symbolic link to the source resolves to the source
    itself, and the mirror refuses it: "Can not symlink to itself". *)
Theorem symlink_to_database_refuses_link_to_source (depth : nat)
    (publ p : path) (d : string) (f : fs) :
  (1 <= link_limit)%nat ->
  plain f publ -> f publ = Some Dir -> readable publ = true ->
  plain f p -> f (p ++ [d]) = Some (Link publ) ->
  symlink_to_database names readable writable link_limit (S depth) publ (p ++ [d]) f
  = Raise (ValueError ("Can not symlink " +:+ path_str publ +:+ " to itself")).
Proof.
  intros Hlimit Hplain Hdir Hread Hp Hlink. cbn [symlink_to_database].
  rewrite (realpath_plain link_limit f publ Hplain).
  rewrite (realpath_link link_limit f p d publ Hlimit Hp Hlink Hplain).
  assert (access_R readable link_limit f publ && isdir link_limit f publ = true) as ->.
  { unfold access_R, isdir. rewrite (stat_plain_dir link_limit f publ Hplain Hdir).
    rewrite (realpath_plain link_limit f publ Hplain), Hread. reflexivity. }
  cbn [negb]. rewrite bool_decide_eq_true_2 by reflexivity. reflexivity.
Qed.

End MirrorRefusals.

Lemma symlink_to_database_needs_readable_folder_witness :
  symlink_to_database demo_names all_readable all_writable 40 5 ["db"; "x"] ["ws"] demo_fs
  = Raise (ValueError (path_str ["db"; "x"] +:+ " is supposed to be a readable folder")).
Proof.
  apply (symlink_to_database_needs_readable_folder demo_names all_readable all_writable 40 4
           ["db"; "x"] ["ws"] demo_fs).
  - intros n _. demo_fs_cases.
  - left. discriminate.
Defined.

Lemma symlink_to_database_refuses_link_to_source_witness :
  symlink_to_database demo_names all_readable all_writable 40 5 ["db"] ([] ++ ["ws"]) linked_fs
  = Raise (ValueError ("Can not symlink " +:+ path_str ["db"] +:+ " to itself")).
Proof.
  apply (symlink_to_database_refuses_link_to_source demo_names all_readable all_writable 40 4
           ["db"] [] "ws" linked_fs).
  - lia.
  - intros n Hn. destruct n; [reflexivity | cbn [List.length] in Hn; lia].
  - reflexivity.
  - reflexivity.
  - intros n Hn. cbn [List.length] in Hn. lia.
  - reflexivity.
Defined.

(** ** A file in the place of the target *)

Section FirstRun.
Variable names : list string.
Variable readable : path -> bool.
Variable writable : path -> bool.
Variable link_limit : nat.
Variables (P T : path) (f0 : fs).
Hypothesis Hdisj : forall s t, P ++ s <> T ++ t.
Hypothesis Hsrc0 : forall s, plain f0 (P ++ s).
Hypothesis Htree : forall s c, f0 (P ++ s ++ [c]) <> None ->
                               f0 (P ++ s) = Some Dir /\ In c names.
Hypothesis Hread0 : forall s, f0 (P ++ s) = Some Dir -> readable (P ++ s) = true.


Lemma agree_source (f : fs) (s : path) : agree T f0 f -> f (P ++ s) = f0 (P ++ s).
Proof. intros Hag. apply Hag. intros u. apply Hdisj. Qed.

Lemma agree_source_plain (f : fs) (s : path) : agree T f0 f -> plain f (P ++ s).
Proof.
  intros Hag. apply (plain_ext f0); [|apply Hsrc0].
  intros n Hn. apply Hag. intros u E.
  apply (Hdisj s (u ++ drop (S n) (P ++ s))).
  rewrite app_assoc, <- E. symmetry. apply take_drop.
Qed.

Lemma tree_closed (v u : path) :
  u <> [] -> f0 (P ++ v ++ u) <> None -> f0 (P ++ v) = Some Dir.
Proof.
  induction u as [|c u IH] using rev_ind; [congruence|]. intros _ Hex.
  replace (P ++ v ++ u ++ [c]) with (P ++ (v ++ u) ++ [c]) in Hex by path_eq.
  destruct (Htree (v ++ u) c Hex) as [Hd _].
  destruct u as [|a u]; [rewrite app_nil_r in Hd; exact Hd|].
  apply IH; [discriminate | congruence].
Qed.

Lemma mirror_of_below_file (v u : path) :
  f0 (P ++ v) <> Some Dir -> u <> [] -> mirror_of P f0 (v ++ u) = None.
Proof.
  intros Hnd Hu. unfold mirror_of.
  destruct (f0 (P ++ v ++ u)) as [x|] eqn:E; [|reflexivity].
  exfalso. apply Hnd. apply (tree_closed v u Hu). congruence.
Qed.

Lemma source_nonempty' (s : path) : P ++ s <> [].
Proof.
  intros E. apply app_eq_nil in E as [-> ->].
  apply (Hdisj T []). rewrite app_nil_r. reflexivity.
Qed.

Lemma target_nonempty' (s : path) : T ++ s <> [].
Proof.
  intros E. apply app_eq_nil in E as [-> ->].
  apply (Hdisj [] P). rewrite app_nil_r. reflexivity.
Qed.

Hypothesis Hwrite : forall s, writable (T ++ s) = true.

(** One entry of the source, with nothing yet under its name in the
    target. *)
Lemma first_run_entry (self : path -> path -> fs -> result fs) (s : path) (d : string)
    (f : fs) :
  (forall f, agree T f0 f -> f0 (P ++ s ++ [d]) = Some Dir ->
             plain f (T ++ s ++ [d]) ->
             (forall u, f (T ++ s ++ d :: u) = None) ->
             f (T ++ s) = Some Dir ->
             exists f', self (P ++ s ++ [d]) (T ++ s ++ [d]) f = Ok f' /\
                        (forall q, (forall u, q <> T ++ s ++ d :: u) -> f' q = f q) /\
                        (forall u, f' (T ++ s ++ d :: u) = mirror_of P f0 (s ++ d :: u))) ->
  agree T f0 f ->
  f (T ++ s) = Some Dir ->
  plain f (T ++ s) ->
  (forall u, f (T ++ s ++ d :: u) = None) ->
  f0 (P ++ s ++ [d]) <> None ->
  exists f', mirror_entry names writable link_limit self (P ++ s) (T ++ s) d f = Ok f' /\
             (forall q, (forall u, q <> T ++ s ++ d :: u) -> f' q = f q) /\
             (forall u, f' (T ++ s ++ d :: u) = mirror_of P f0 (s ++ d :: u)).
Proof.
  intros Hself Hag Htd Hpl Hfresh Hex.
  pose proof (Hfresh []) as Hnone.
  assert ((P ++ s) ++ [d] = P ++ s ++ [d]) as Epubl by path_eq.
  assert ((T ++ s) ++ [d] = T ++ s ++ [d]) as Epriv by path_eq.
  assert (plain f (T ++ s ++ [d])) as Hpld.
  { rewrite <- Epriv. apply plain_snoc; [exact Hpl|]. rewrite Epriv, Hnone. reflexivity. }
  assert (realpath link_limit f (P ++ s ++ [d]) = P ++ s ++ [d]) as Hrp
    by (apply realpath_plain, (agree_source_plain f (s ++ [d]) Hag)).
  assert (islink link_limit f (T ++ s ++ [d]) = false) as Hil.
  { unfold islink, lstat. rewrite <- Epriv, lpath_snoc by exact Hpl.
    rewrite Epriv, Hnone. reflexivity. }
  assert (stat link_limit f (P ++ s ++ [d]) = f0 (P ++ s ++ [d])) as Hsd.
  { rewrite stat_plain.
    - apply (agree_source f (s ++ [d]) Hag).
    - apply (agree_source_plain f (s ++ [d]) Hag).
    - apply (source_nonempty' (s ++ [d])). }
  assert (stat link_limit f (T ++ s ++ [d]) = None) as Hst.
  { rewrite stat_plain; [exact Hnone | exact Hpld | apply (target_nonempty' (s ++ [d]))]. }
  pose proof (plain_last f0 (P ++ s ++ [d]) (Hsrc0 (s ++ [d])) (source_nonempty' (s ++ [d])))
    as Hnl.
  unfold mirror_entry. cbv zeta. rewrite Epubl, Epriv, Hrp, Hil.
  cbn [andb]. unfold mbind, result_bind.
  unfold isdir at 1. rewrite Hsd.
  destruct (f0 (P ++ s ++ [d])) as [[| |t]|] eqn:Ed;
    [ | | cbn in Hnl; discriminate Hnl | congruence ].
  - (* a file: the link is made *)
    cbn [is_dir]. unfold isdir, access_F. rewrite Hst. cbn [is_dir is_some_node].
    unfold symlink, lstat, parent_isdir.
    rewrite <- Epriv, lpath_snoc, split_last_snoc by exact Hpl.
    rewrite Epriv, Hnone. cbn [is_some_node].
    unfold isdir. rewrite (stat_plain_dir link_limit f (T ++ s) Hpl Htd). cbn [is_dir negb].
    assert (parent_writable writable link_limit f (T ++ s ++ [d]) = true) as ->.
    { rewrite <- Epriv. unfold parent_writable.
      rewrite split_last_snoc, realpath_plain by exact Hpl. apply Hwrite. }
    cbn [negb].
    eexists. split; [reflexivity|]. split.
    + intros q Hq. apply upd_ne. apply (Hq []).
    + intros [|c u].
      * rewrite upd_eq. unfold mirror_of. rewrite Ed. reflexivity.
      * rewrite upd_ne.
        -- rewrite Hfresh. symmetry.
           replace (s ++ d :: c :: u) with ((s ++ [d]) ++ c :: u) by path_eq.
           apply mirror_of_below_file; [|discriminate]. congruence.
        -- replace (T ++ s ++ d :: c :: u) with ((T ++ s ++ [d]) ++ c :: u) by path_eq.
           intros E. symmetry in E. revert E. apply path_not_longer.
  - (* a directory: the mirror goes down *)
    cbn [is_dir]. apply Hself; try assumption. reflexivity.
Qed.

(** The loop over the entries of one source directory. *)
Lemma first_run_entries (self : path -> path -> fs -> result fs) (s : path) :
  (forall d f, agree T f0 f -> f0 (P ++ s ++ [d]) = Some Dir ->
               plain f (T ++ s ++ [d]) ->
               (forall u, f (T ++ s ++ d :: u) = None) ->
               f (T ++ s) = Some Dir ->
               exists f', self (P ++ s ++ [d]) (T ++ s ++ [d]) f = Ok f' /\
                          (forall q, (forall u, q <> T ++ s ++ d :: u) -> f' q = f q) /\
                          (forall u, f' (T ++ s ++ d :: u) = mirror_of P f0 (s ++ d :: u))) ->
  forall (L : list string) (f : fs),
  List.NoDup L ->
  (forall d, In d L -> f0 (P ++ s ++ [d]) <> None) ->
  agree T f0 f ->
  f (T ++ s) = Some Dir ->
  plain f (T ++ s) ->
  (forall d u, In d L -> f (T ++ s ++ d :: u) = None) ->
  exists f', mirror_entries names writable link_limit self (P ++ s) (T ++ s) L f = Ok f' /\
             (forall q, (forall d u, In d L -> q <> T ++ s ++ d :: u) -> f' q = f q) /\
             (forall d u, In d L -> f' (T ++ s ++ d :: u) = mirror_of P f0 (s ++ d :: u)).
Proof.
  intros Hself. induction L as [|d L IH]; intros f Hnd Hex Hag Htd Hpl Hfresh.
  - exists f. split; [reflexivity|]. split; [reflexivity|]. intros d u [].
  - apply List.NoDup_cons_iff in Hnd as [Hd HndL].
    destruct (first_run_entry self s d f (fun g => Hself d g) Hag Htd Hpl
                (fun u => Hfresh d u (or_introl eq_refl)) (Hex d (or_introl eq_refl)))
      as (f1 & Hrun1 & Hframe1 & Himg1).
    assert (forall q, (forall u, q <> T ++ s ++ d :: u) -> f1 q = f q) as Hframe1' by exact Hframe1.
    destruct (IH f1) as (f2 & Hrun2 & Hframe2 & Himg2).
    + exact HndL.
    + intros d' Hd'. apply Hex. right. exact Hd'.
    + intros q Hq. rewrite Hframe1; [apply Hag, Hq|].
      intros u E. apply (Hq (s ++ d :: u)). exact E.
    + rewrite Hframe1; [exact Htd|]. intros u. apply path_not_longer_app.
    + apply (plain_ext f); [|exact Hpl]. intros n Hn. apply Hframe1.
      intros u E. rewrite app_assoc in E. revert E. apply path_take_shorter.
    + intros d' u Hd'. rewrite Hframe1.
      * apply Hfresh. right. exact Hd'.
      * intros u'. rewrite !(app_assoc T s). apply path_other_child.
        intros ->. contradiction.
    + exists f2. split.
      * cbn [mirror_entries]. unfold mbind, result_bind. rewrite Hrun1. exact Hrun2.
      * split.
        -- intros q Hq. rewrite Hframe2.
           ++ apply Hframe1. intros u. apply Hq. left. reflexivity.
           ++ intros d' u Hd'. apply Hq. right. exact Hd'.
        -- intros d' u [<-|Hd'].
           ++ rewrite Hframe2; [apply Himg1|].
              intros d' u' Hd'. rewrite !(app_assoc T s). apply path_other_child.
              intros ->. contradiction.
           ++ apply Himg2. exact Hd'.
Qed.

Lemma children_agree (f : fs) (s : path) :
  agree T f0 f -> children names f (P ++ s) = children names f0 (P ++ s).
Proof.
  intros Hag. unfold children. apply List.filter_ext. intros d.
  replace ((P ++ s) ++ [d]) with (P ++ s ++ [d]) by path_eq.
  rewrite (agree_source f (s ++ [d]) Hag). reflexivity.
Qed.

Hypothesis Hnodup : List.NoDup names.

(** The first run on a target directory that is missing or empty. *)
Lemma first_run (n : nat) : forall (s : path) (f : fs),
  agree T f0 f ->
  f0 (P ++ s) = Some Dir ->
  (forall u, (n <= List.length u)%nat -> f0 (P ++ s ++ u) = None) ->
  plain f (T ++ s) ->
  (forall u, u <> [] -> f (T ++ s ++ u) = None) ->
  (f (T ++ s) = Some Dir \/
   (f (T ++ s) = None /\
    forall h t, split_last (T ++ s) = Some (h, t) -> f h = Some Dir /\ writable h = true)) ->
  exists f', symlink_to_database names readable writable link_limit n (P ++ s) (T ++ s) f = Ok f' /\
             (forall q, (forall u, q <> T ++ s ++ u) -> f' q = f q) /\
             (forall u, f' (T ++ s ++ u) = mirror_of P f0 (s ++ u)).
Proof.
  induction n as [|n IH]; intros s f Hag Hdir Hdepth Hpl Hfresh Htgt.
  - specialize (Hdepth [] ltac:(cbn; lia)). rewrite app_nil_r in Hdepth. congruence.
  - pose proof (agree_source_plain f s Hag) as Hsp.
    pose proof (agree_source f s Hag) as Hsf. rewrite Hdir in Hsf.
    cbn [symlink_to_database]. cbv zeta.
    rewrite (realpath_plain link_limit f (T ++ s) Hpl).
    rewrite (realpath_plain link_limit f (P ++ s) Hsp).
    assert (isdir link_limit f (P ++ s) = true) as Hisdir
      by (unfold isdir; rewrite (stat_plain_dir link_limit f (P ++ s) Hsp Hsf); reflexivity).
    assert (access_R readable link_limit f (P ++ s) = true) as ->.
    { unfold access_R. rewrite (stat_plain_dir link_limit f (P ++ s) Hsp Hsf).
      rewrite (realpath_plain link_limit f (P ++ s) Hsp), (Hread0 s Hdir). reflexivity. }
    rewrite Hisdir. cbn [andb negb].
    rewrite bool_decide_false by (intros E; exact (Hdisj s s (eq_sym E))).
    (* the target directory is there, or is made *)
    assert (exists fm,
              (if negb (isdir link_limit f (T ++ s))
               then f1 ← (if access_F link_limit f (T ++ s) || islink link_limit f (T ++ s)
                          then unlink writable link_limit f (T ++ s) else Ok f);
                    makedirs writable link_limit f1 (T ++ s)
               else Ok f) = Ok fm /\
              fm (T ++ s) = Some Dir /\
              (forall q, q <> T ++ s -> fm q = f q)) as (fm & -> & Hfm_dir & Hfm_frame).
    { destruct Htgt as [Htd | [Hnone Hparent]].
      - exists f. unfold isdir. rewrite (stat_plain_dir link_limit f (T ++ s) Hpl Htd).
        split; [reflexivity|]. split; [exact Htd | reflexivity].
      - exists (upd f (T ++ s) (Some Dir)).
        assert (stat link_limit f (T ++ s) = None) as Hst
          by (rewrite stat_plain; [exact Hnone | exact Hpl | apply target_nonempty']).
        assert (lpath link_limit f (T ++ s) = T ++ s) as Hlp
          by (apply lpath_plain; [exact Hpl | apply target_nonempty']).
        unfold isdir, access_F, islink, lstat. rewrite Hst, Hlp, Hnone.
        cbn [is_dir is_some_node is_link negb orb]. unfold mbind, result_bind.
        destruct (split_last_nonempty (T ++ s) (target_nonempty' s)) as (h & t & Esplit).
        pose proof (split_last_spec _ _ _ Esplit) as Eht.
        assert (plain f h) as Hph by (apply (plain_prefix f h [t]); rewrite <- Eht; exact Hpl).
        destruct (Hparent h t Esplit) as [Hhd Hhw].
        assert (mkdir writable link_limit f (T ++ s) = Ok (upd f (T ++ s) (Some Dir))) as Hmk.
        { unfold mkdir, lstat, parent_isdir, parent_writable. rewrite Hlp, Hnone, Esplit.
          unfold isdir. rewrite (stat_plain_dir link_limit f h Hph Hhd).
          rewrite (realpath_plain link_limit f h Hph), Hhw. reflexivity. }
        split; [|split; [apply upd_eq | intros q Hq; apply upd_ne, Hq]].
        unfold makedirs. destruct (List.length (T ++ s)) as [|m]; cbn [makedirs_from].
        + exact Hmk.
        + rewrite Esplit. unfold access_F.
          rewrite (stat_plain_dir link_limit f h Hph Hhd). cbn [is_some_node negb andb].
          unfold mbind, result_bind. exact Hmk. }
    unfold mbind, result_bind.
    assert (agree T f0 fm) as Hagm.
    { intros q Hq. rewrite Hfm_frame; [apply Hag, Hq|].
      intros E. apply (Hq s). exact E. }
    assert (plain fm (T ++ s)) as Hplm.
    { intros k Hk. destruct (decide (take (S k) (T ++ s) = T ++ s)) as [E|E].
      - rewrite E, Hfm_dir. reflexivity.
      - rewrite Hfm_frame by exact E. apply Hpl, Hk. }
    pose proof (agree_source_plain fm s Hagm) as Hspm.
    pose proof (agree_source fm s Hagm) as Hsfm. rewrite Hdir in Hsfm.
    unfold listdir, isdir. rewrite (stat_plain_dir link_limit fm (P ++ s) Hspm Hsfm).
    rewrite (realpath_plain link_limit fm (P ++ s) Hspm), (Hread0 s Hdir).
    cbn [is_dir andb]. rewrite (children_agree fm s Hagm).
    destruct (first_run_entries (symlink_to_database names readable writable link_limit n) s)
      with (L := children names f0 (P ++ s)) (f := fm) as (f' & Hrun & Hframe & Himg).
    + (* the recursive call on a subdirectory *)
      intros d g Hg Hsub Hgpl Hgfresh Hgdir.
      replace (P ++ s ++ [d]) with (P ++ (s ++ [d])) by reflexivity.
      replace (T ++ s ++ [d]) with (T ++ (s ++ [d])) by reflexivity.
      destruct (IH (s ++ [d]) g) as (g' & Hg1 & Hg2 & Hg3).
      * exact Hg.
      * exact Hsub.
      * intros u Hu. replace (P ++ (s ++ [d]) ++ u) with (P ++ s ++ d :: u) by path_eq.
        apply Hdepth. cbn. lia.
      * exact Hgpl.
      * intros u _. replace (T ++ (s ++ [d]) ++ u) with (T ++ s ++ d :: u) by path_eq.
        apply Hgfresh.
      * right. split; [apply (Hgfresh [])|].
        intros h t Esplit.
        replace (T ++ s ++ [d]) with ((T ++ s) ++ [d]) in Esplit by path_eq.
        rewrite split_last_snoc in Esplit. injection Esplit as <- <-.
        split; [exact Hgdir | apply Hwrite].
      * exists g'. split; [exact Hg1|]. split.
        -- intros q Hq. apply Hg2. intros u.
           replace (T ++ (s ++ [d]) ++ u) with (T ++ s ++ d :: u) by path_eq. apply Hq.
        -- intros u. replace (s ++ d :: u) with ((s ++ [d]) ++ u) by path_eq.
           replace (T ++ s ++ d :: u) with (T ++ (s ++ [d]) ++ u) by path_eq. apply Hg3.
    + apply List.NoDup_filter, Hnodup.
    + intros d Hd. apply filter_In in Hd as [_ Hd].
      replace ((P ++ s) ++ [d]) with (P ++ s ++ [d]) in Hd by path_eq.
      destruct (f0 (P ++ s ++ [d])); [discriminate | discriminate Hd].
    + exact Hagm.
    + exact Hfm_dir.
    + exact Hplm.
    + intros d u _. rewrite Hfm_frame.
      * apply Hfresh. discriminate.
      * intros E. symmetry in E. revert E. apply path_not_longer_app.
    + exists f'. split; [exact Hrun|]. split.
      * intros q Hq. rewrite Hframe.
        -- apply Hfm_frame. specialize (Hq []). rewrite app_nil_r in Hq. exact Hq.
        -- intros d u _. apply Hq.
      * intros [|d u].
        -- rewrite !app_nil_r. rewrite Hframe.
           ++ rewrite Hfm_dir. unfold mirror_of. rewrite Hdir. reflexivity.
           ++ intros d u _. apply path_not_longer_app.
        -- destruct (f0 (P ++ s ++ [d])) as [x|] eqn:Ed.
           ++ apply Himg. unfold children. apply filter_In. split.
              ** apply (Htree s d). congruence.
              ** replace ((P ++ s) ++ [d]) with (P ++ s ++ [d]) by path_eq.
                 rewrite Ed. reflexivity.
           ++ rewrite Hframe.
              ** rewrite Hfm_frame.
                 --- rewrite Hfresh by discriminate. symmetry. unfold mirror_of.
                     destruct (f0 (P ++ s ++ d :: u)) as [y|] eqn:Ey; [|reflexivity].
                     destruct u as [|c u]; [congruence|].
                     exfalso.
                     assert (f0 (P ++ (s ++ [d])) = Some Dir) as Hcontra.
                     { apply (tree_closed (s ++ [d]) (c :: u)); [discriminate|].
                       replace (P ++ (s ++ [d]) ++ c :: u) with (P ++ s ++ d :: c :: u)
                         by path_eq.
                       congruence. }
                     replace (P ++ (s ++ [d])) with (P ++ s ++ [d]) in Hcontra by reflexivity.
                     congruence.
                 --- intros E. symmetry in E. revert E. apply path_not_longer_app.
              ** intros d' u' Hd'. intros E. apply app_inv_head in E.
                 apply app_inv_head in E. injection E as <- _.
                 unfold children in Hd'. apply filter_In in Hd' as [_ Hd'].
                 replace ((P ++ s) ++ [d]) with (P ++ s ++ [d]) in Hd' by path_eq.
                 rewrite Ed in Hd'. discriminate Hd'.
Qed.

End FirstRun.

Lemma plain_upd_none (f : fs) (t p : path) : plain f p -> plain (upd f t None) p.
Proof. intros Hp. apply plain_upd; [exact Hp | left; reflexivity]. Qed.

Section FileAtTarget.
Variable names : list string.
Variable readable : path -> bool.
Variable writable : path -> bool.
Variable link_limit : nat.
Variables (P T : path) (f0 : fs).
Hypothesis Hnodup : List.NoDup names.
Hypothesis Hdisj : forall s t, P ++ s <> T ++ t.
Hypothesis Hsrc : forall s, plain f0 (P ++ s).
Hypothesis Htree : forall s c, f0 (P ++ s ++ [c]) <> None ->
                               f0 (P ++ s) = Some Dir /\ In c names.
Hypothesis Hread : forall s, f0 (P ++ s) = Some Dir -> readable (P ++ s) = true.
Hypothesis Hroot : f0 P = Some Dir.
Hypothesis Htplain : plain f0 T.
Hypothesis Htfile : f0 T = Some File.
Hypothesis Htfresh : forall u, u <> [] -> f0 (T ++ u) = None.
Hypothesis Htparent : forall h t, split_last T = Some (h, t) ->
                                  f0 h = Some Dir /\ writable h = true.
Hypothesis Hwrite : forall s, writable (T ++ s) = true.

Lemma source_is_not_target (s : path) : P ++ s <> T.
Proof. intros E. apply (Hdisj s []). rewrite app_nil_r. exact E. Qed.

Lemma target_is_not_empty : T <> [].
Proof.
  pose proof (target_nonempty' P T Hdisj []) as Hne. rewrite app_nil_r in Hne. exact Hne.
Qed.

Lemma source_plain : plain f0 P.
Proof. pose proof (Hsrc []) as Hp. rewrite app_nil_r in Hp. exact Hp. Qed.

(** The first activation unlinks the file and goes on as if the target had
    not been there. *)
Lemma file_at_target_is_unlinked (n : nat) :
  symlink_to_database names readable writable link_limit (S n) P T f0
  = symlink_to_database names readable writable link_limit (S n) P T (upd f0 T None).
Proof.
  pose proof target_is_not_empty as HT. pose proof source_plain as HP.
  pose proof (source_is_not_target []) as HPT. rewrite app_nil_r in HPT.
  assert (plain (upd f0 T None) T) as Htplain' by apply plain_upd_none, Htplain.
  assert (plain (upd f0 T None) P) as HP' by apply plain_upd_none, HP.
  assert (parent_writable writable link_limit f0 T = true) as Hpw.
  { destruct (split_last_nonempty T HT) as (h & c & Esplit).
    unfold parent_writable. rewrite Esplit.
    assert (plain f0 h) as Hph.
    { apply (plain_prefix f0 h [c]). rewrite <- (split_last_spec _ _ _ Esplit). exact Htplain. }
    rewrite (realpath_plain link_limit f0 h Hph). apply (Htparent h c Esplit). }
  cbn [symlink_to_database].
  rewrite !(realpath_plain link_limit f0 T Htplain), !(realpath_plain link_limit f0 P HP).
  rewrite !(realpath_plain link_limit _ T Htplain'), !(realpath_plain link_limit _ P HP').
  assert (access_R readable link_limit f0 P && isdir link_limit f0 P = true) as ->.
  { unfold access_R, isdir. rewrite (stat_plain_dir link_limit f0 P HP Hroot).
    rewrite (realpath_plain link_limit f0 P HP).
    pose proof (Hread []) as Hr. rewrite app_nil_r in Hr. rewrite (Hr Hroot). reflexivity. }
  assert (access_R readable link_limit (upd f0 T None) P
          && isdir link_limit (upd f0 T None) P = true) as ->.
  { unfold access_R, isdir.
    rewrite (stat_plain_dir link_limit _ P HP') by (rewrite upd_ne by exact HPT; exact Hroot).
    rewrite (realpath_plain link_limit _ P HP').
    pose proof (Hread []) as Hr. rewrite app_nil_r in Hr. rewrite (Hr Hroot). reflexivity. }
  cbn [negb]. rewrite bool_decide_eq_false_2 by (intros E; apply HPT; symmetry; exact E).
  unfold isdir at 1. rewrite (stat_plain link_limit f0 T Htplain HT), Htfile.
  cbn [is_dir negb].
  unfold access_F at 1. rewrite (stat_plain link_limit f0 T Htplain HT), Htfile.
  cbn [is_some_node orb].
  unfold unlink, lstat. rewrite (lpath_plain link_limit f0 T Htplain HT), Htfile, Hpw.
  unfold isdir at 1. rewrite (stat_plain link_limit _ T Htplain' HT), upd_eq.
  cbn [is_dir negb].
  unfold access_F, islink, lstat.
  rewrite (stat_plain link_limit _ T Htplain' HT), (lpath_plain link_limit _ T Htplain' HT).
  rewrite upd_eq. cbn [is_some_node is_link orb]. reflexivity.
Qed.

(** X29: A regular file in the place of the target, in a folder that may be
    written to, is removed and replaced by the mirror of the source: a
    folder with a folder for each folder and a link for each file of the
    source, provided the folders made below the target may be written to.
    Nothing outside the target is changed. *)
Theorem symlink_to_database_replaces_file_at_target (n : nat) :
  (forall u, (n <= List.length u)%nat -> f0 (P ++ u) = None) ->
  exists f1,
    symlink_to_database names readable writable link_limit n P T f0 = Ok f1 /\
    f1 T = Some Dir /\
    (forall u, f1 (T ++ u) = mirror_of P f0 u) /\
    (forall q, (forall u, q <> T ++ u) -> f1 q = f0 q).
Proof.
  intros Hdepth.
  destruct n as [|n].
  { pose proof (Hdepth [] (Nat.le_0_l _)) as Hnone. rewrite app_nil_r in Hnone. congruence. }
  rewrite file_at_target_is_unlinked.
  assert (forall s, P ++ s <> T) as HPT by apply source_is_not_target.
  destruct (first_run names readable writable link_limit P T (upd f0 T None))
    with (n := S n) (s := @nil string) (f := upd f0 T None) as (f1 & Hrun & Hframe & Himg).
  - exact Hdisj.
  - intros s. apply plain_upd_none, Hsrc.
  - intros s c. rewrite !upd_ne.
    + apply Htree.
    + apply HPT.
    + replace (P ++ s ++ [c]) with (P ++ (s ++ [c])) by reflexivity. apply HPT.
  - intros s. rewrite upd_ne by apply HPT. apply Hread.
  - exact Hwrite.
  - exact Hnodup.
  - intros q _. reflexivity.
  - rewrite app_nil_r, upd_ne; [exact Hroot|]. rewrite <- (app_nil_r P). apply HPT.
  - intros u Hu. cbn [app]. rewrite upd_ne by apply HPT. apply Hdepth, Hu.
  - rewrite app_nil_r. apply plain_upd_none, Htplain.
  - intros u Hu. cbn [app]. rewrite upd_ne; [apply Htfresh, Hu|].
    intros E. apply Hu. apply (app_inv_head T). rewrite app_nil_r. exact E.
  - right. rewrite app_nil_r. split; [apply upd_eq|]. intros h t Hsplit.
    rewrite upd_ne; [apply (Htparent h t Hsplit)|].
    intros E. subst h. apply split_last_spec in Hsplit.
    apply (f_equal (@List.length string)) in Hsplit.
    rewrite length_app in Hsplit. cbn [List.length] in Hsplit. lia.
  - rewrite !app_nil_r in Hrun. cbn [app] in Hframe, Himg.
    assert (forall u, mirror_of P (upd f0 T None) u = mirror_of P f0 u) as Hm.
    { intros u. unfold mirror_of. rewrite upd_ne by apply HPT. reflexivity. }
    exists f1. split; [exact Hrun|]. split; [|split].
    + pose proof (Himg []) as H0. rewrite app_nil_r, Hm in H0. rewrite H0.
      unfold mirror_of. rewrite app_nil_r, Hroot. reflexivity.
    + intros u. rewrite Himg. apply Hm.
    + intros q Hq. rewrite (Hframe q Hq). apply upd_ne.
      intros E. apply (Hq []). rewrite app_nil_r. exact E.
Qed.

End FileAtTarget.

Ltac occupied_fs_cases :=
  unfold occupied_fs, demo_fs; repeat case_bool_decide; try reflexivity; try discriminate.

Lemma symlink_to_database_replaces_file_at_target_witness :
  occupied_fs ["ws"] = Some File /\
  exists f1,
    symlink_to_database demo_names all_readable all_writable 40 5 ["db"] ["ws"] occupied_fs
    = Ok f1 /\
    f1 ["ws"] = Some Dir /\
    (forall u, f1 (["ws"] ++ u) = mirror_of ["db"] occupied_fs u) /\
    (forall q, (forall u, q <> ["ws"] ++ u) -> f1 q = occupied_fs q).
Proof.
  split; [reflexivity|].
  apply (symlink_to_database_replaces_file_at_target
           demo_names all_readable all_writable 40 ["db"] ["ws"] occupied_fs).
  - unfold demo_names. repeat constructor; cbn; intuition discriminate.
  - intros s t E. discriminate E.
  - intros s k _. occupied_fs_cases.
  - intros s c.
    destruct s as [|a [|b [|c' s]]]; cbn [app]; unfold occupied_fs at 1, demo_fs at 1;
      repeat case_bool_decide; try discriminate; try congruence; intros _;
      repeat match goal with
             | H : _ :: _ = _ :: _ |- _ => injection H as ?; subst
             end;
      (split; [vm_compute; reflexivity | cbn; tauto]).
  - intros s _. reflexivity.
  - reflexivity.
  - intros k _. occupied_fs_cases.
  - reflexivity.
  - intros u Hu. destruct u as [|a u]; [contradiction|]. cbn [app]. occupied_fs_cases.
  - intros h t E. cbn in E. injection E as <- _. split; reflexivity.
  - intros s. reflexivity.
  - intros u Hu.
    destruct u as [|a [|b [|c [|d [|e u]]]]]; cbn [List.length] in Hu; try lia.
    cbn [app]. occupied_fs_cases.
Defined.
